(** * DID resolution and credential verification: a shallow embedding

    The backend of the repository indexes the events of an ERC-1056
    registry ([BlockchainService]), resolves DIDs to DID Documents, also at a
    past block or time ([DidService]), and verifies credentials against the
    authority their signer held at issuance ([CredentialService]).

    Conventions of the embedding:
    - JavaScript strings are [string]s of 8-bit characters; [toLowerCase]
      acts on the letters A-Z (addresses and DIDs are ASCII);
    - JavaScript numbers that hold block numbers, ids and Unix times are [Z];
      the decimal strings the event rows keep for [validTo] (written with
      [toString], read back with [parseInt]) are the [Z] they denote;
    - a (valid) [Date] is its [getTime()], in milliseconds; [Date.now()]
      is an explicit argument [nowMs];
    - a TypeORM repository is the list of its rows, in insertion order, and
      its queries do not fail; the JSON-RPC provider answers one call like
      another ([Provider]), a node that fails between two calls of a service
      being a [DidServiceApi] whose later method rejects;
    - a JavaScript [Map] is an association list in insertion order, whose
      [set] overwrites in place;
    - a thrown exception is the [Throw] case of [result]. *)

From Stdlib Require Import String Ascii List ZArith Lia Bool DecimalString.
From Stdlib Require Import Sorted Permutation.
From Stdlib Require DecimalNat.
Import ListNotations.
Local Open Scope list_scope.
Local Open Scope string_scope.

(* ================================================================== *)
(** ** JavaScript primitives used by the services *)
(* ================================================================== *)

Module Js.

Definition lowerChar (c : ascii) : ascii :=
  let n := nat_of_ascii c in
  if ((65 <=? n) && (n <=? 90))%nat then ascii_of_nat (n + 32) else c.

(** [s.toLowerCase()] *)
Fixpoint toLowerCase (s : string) : string :=
  match s with
  | EmptyString => EmptyString
  | String c r => String (lowerChar c) (toLowerCase r)
  end.

(** [s.split(sep)] for a one-character separator: never empty. *)
Fixpoint split (sep : ascii) (s : string) : list string :=
  match s with
  | EmptyString => [EmptyString]
  | String c r =>
      if Ascii.eqb c sep then EmptyString :: split sep r
      else match split sep r with
           | [] => [String c EmptyString]
           | p :: ps => String c p :: ps
           end
  end.

(** [s.startsWith(pat)] *)
Definition startsWith (s pat : string) : bool := String.prefix pat s.

Fixpoint dropChars (n : nat) (s : string) : string :=
  match n, s with
  | O, _ => s
  | S n', EmptyString => EmptyString
  | S n', String _ r => dropChars n' r
  end.

(** [s.replace(pat, rep)] with a string pattern: the first occurrence. *)
Fixpoint replace (pat rep s : string) : string :=
  if String.prefix pat s then rep ++ dropChars (String.length pat) s
  else match s with
       | EmptyString => EmptyString
       | String c r => String c (replace pat rep r)
       end.

(** Truthiness of a string: only the empty string is falsy. *)
Definition truthy (s : string) : bool := negb (s =? EmptyString).

(** [x || d] for a possibly undefined string [x]. *)
Definition orElse (x : option string) (d : string) : string :=
  match x with
  | Some s => if truthy s then s else d
  | None => d
  end.

(** The decimal text of an array index, as a template literal prints it. *)
Definition numberToString (n : nat) : string :=
  NilEmpty.string_of_uint (Nat.to_uint n).

Definition boolToString (b : bool) : string :=
  if b then "true" else "false".

(** [arr[arr.length - 1]], which is also what [arr.pop()] returns. *)
Definition lastOf (parts : list string) : option string :=
  nth_error parts (List.length parts - 1).

(** [arr.push(x)] *)
Definition push {A : Type} (arr : list A) (x : A) : list A :=
  (arr ++ [x])%list.

(** [arr.forEach((x, index) => ...)] threading the captured variables. *)
Fixpoint forEachFrom {A S : Type} (f : S -> A -> nat -> S)
         (index : nat) (l : list A) (s : S) : S :=
  match l with
  | [] => s
  | x :: r => forEachFrom f (Datatypes.S index) r (f s x index)
  end.

Definition forEach {A S : Type} (f : S -> A -> nat -> S)
           (l : list A) (s : S) : S :=
  forEachFrom f 0 l s.

(** [arr.map((x, index) => ...)] *)
Fixpoint mapFrom {A B : Type} (f : A -> nat -> B) (index : nat)
         (l : list A) : list B :=
  match l with
  | [] => []
  | x :: r => f x index :: mapFrom f (Datatypes.S index) r
  end.

Definition mapIndexed {A B : Type} (f : A -> nat -> B) (l : list A) : list B :=
  mapFrom f 0 l.

(** A [Map]: entries in insertion order; [set] on a present key keeps
    the entry's place. *)
Section JsMap.
Context {K V : Type} (keq : K -> K -> bool).

Fixpoint mapSet (k : K) (v : V) (m : list (K * V)) : list (K * V) :=
  match m with
  | [] => [(k, v)]
  | (k', v') :: r =>
      if keq k' k then (k, v) :: r else (k', v') :: mapSet k v r
  end.

Fixpoint mapGet (k : K) (m : list (K * V)) : option V :=
  match m with
  | [] => None
  | (k', v') :: r => if keq k' k then Some v' else mapGet k r
  end.

Definition mapValues (m : list (K * V)) : list V := List.map snd m.
Definition mapKeys (m : list (K * V)) : list K := List.map fst m.
End JsMap.

End Js.

(** Exceptions. *)
Inductive result (A : Type) : Type :=
| Ok (a : A)
| Throw (msg : string).
Arguments Ok {A} a.
Arguments Throw {A} msg.

Definition bind {A B : Type} (r : result A) (k : A -> result B) : result B :=
  match r with
  | Ok a => k a
  | Throw msg => Throw msg
  end.

Notation "x <- r ;; k" := (bind r (fun x => k))
  (at level 61, r at next level, right associativity).

(* ================================================================== *)
(** ** Entities *)
(* ================================================================== *)

(** [entities/Identity.ts]: [controller] is nullable. *)
Record Identity := mkIdentity {
  i_address : string;
  i_controller : option string
}.

(** [entities/Delegate.ts].  The objects [reconstructStateFromEvents] casts
    to [Delegate] carry neither an id nor an identity. *)
Record Delegate := mkDelegate {
  d_id : option Z;
  d_identity : option string;
  d_delegateType : string;
  d_delegateAddress : string;
  d_validTo : Z
}.

(** [entities/Attribute.ts] *)
Record Attribute := mkAttribute {
  a_id : option Z;
  a_identity : option string;
  a_name : string;
  a_value : string;
  a_validTo : Z
}.

(** The [args] column of an event row.  The three handlers of
    [BlockchainService] are the only writers of the table and each stores
    the argument record of its own event kind under its own [eventName], so
    the row is a tagged union and [eventName] is read off the tag. *)
Inductive EventArgs :=
| OwnerChangedArgs (identity owner : string) (previousChange : Z)
| DelegateChangedArgs (identity delegateType delegate : string)
                      (validTo previousChange : Z)
| AttributeChangedArgs (identity name value : string)
                       (validTo previousChange : Z).

(** [entities/Event.ts] *)
Record Event := mkEvent {
  e_id : Z;
  e_transactionHash : string;
  e_blockNumber : Z;
  e_args : EventArgs
}.

Definition eventName (e : Event) : string :=
  match e_args e with
  | OwnerChangedArgs _ _ _ => "DIDOwnerChanged"
  | DelegateChangedArgs _ _ _ _ _ => "DIDDelegateChanged"
  | AttributeChangedArgs _ _ _ _ _ => "DIDAttributeChanged"
  end.

(** [args.identity] *)
Definition argsIdentity (a : EventArgs) : string :=
  match a with
  | OwnerChangedArgs i _ _ => i
  | DelegateChangedArgs i _ _ _ _ => i
  | AttributeChangedArgs i _ _ _ _ => i
  end.

(** A block as the JSON-RPC provider reports it. *)
Record Block := mkBlock {
  b_number : Z;
  b_timestamp : Z
}.

(** [ethers.JsonRpcProvider]: [getBlock('latest')] and [getBlock(n)], each
    of which may answer [null]. *)
Record Provider := mkProvider {
  getBlockLatest : option Block;
  getBlock : Z -> option Block
}.

(** The tables behind the four repositories of [DidService]. *)
Record Db := mkDb {
  identities : list Identity;
  delegates : list Delegate;
  attributes : list Attribute;
  events : list Event
}.

(* ================================================================== *)
(** ** [DidService] (did.service.ts) *)
(* ================================================================== *)

Module DidService.
Import Js.

Definition DID_CONTEXTS : list string :=
  [ "https://www.w3.org/ns/did/v1";
    "https://w3id.org/security/suites/secp256k1recovery-2020/v2";
    "https://w3id.org/security/suites/secp256k1-2019/v1" ].

Record VerificationMethod := mkVerificationMethod {
  vm_id : string;
  vm_type : string;
  vm_controller : string;
  vm_blockchainAccountId : option string;
  vm_publicKeyBase64 : option string;
  vm_publicKeyHex : option string
}.

Record ServiceEndpoint := mkServiceEndpoint {
  svc_id : string;
  svc_type : string;
  svc_serviceEndpoint : string
}.

Record DidDocument := mkDidDocument {
  doc_context : list string;
  doc_id : string;
  doc_controller : option string;
  doc_verificationMethod : list VerificationMethod;
  doc_authentication : list string;
  doc_assertionMethod : list string;
  doc_service : option (list ServiceEndpoint)
}.

(** [extractAddress]: the last [:]-separated segment, lowercased. *)
Definition extractAddress (did : string) : string :=
  let parts := split ":" did in
  let address :=
    if (1 <? List.length parts)%nat
    then match lastOf parts with Some a => a | None => EmptyString end
    else did in
  toLowerCase address.

(** [identityRepository.findOne({ where: { address } })] *)
Definition findIdentity (db : Db) (address : string) : option Identity :=
  List.find (fun i => i_address i =? address) (identities db).

(** The [delegates] and [attributes] relations of an identity row. *)
Definition delegatesOf (db : Db) (address : string) : list Delegate :=
  List.filter
    (fun d => match d_identity d with
              | Some a => a =? address
              | None => false
              end)
    (delegates db).

Definition attributesOf (db : Db) (address : string) : list Attribute :=
  List.filter
    (fun a => match a_identity a with
              | Some i => i =? address
              | None => false
              end)
    (attributes db).

(** The three arrays [buildDidDocument] pushes to. *)
Record Building := mkBuilding {
  verificationMethod : list VerificationMethod;
  authentication : list string;
  assertionMethod : list string
}.

(** Body of [validDelegates.forEach((delegate, index) => ...)]. *)
Definition addDelegate (did : string) (b : Building) (delegate : Delegate)
           (index : nat) : Building :=
  let delegateId := did ++ "#delegate-" ++ numberToString index in
  let vms :=
    push (verificationMethod b)
      {| vm_id := delegateId;
         vm_type := "EcdsaSecp256k1RecoveryMethod2020";
         vm_controller := did;
         vm_blockchainAccountId :=
           Some ("eip155:1:" ++ d_delegateAddress delegate);
         vm_publicKeyBase64 := None;
         vm_publicKeyHex := None |} in
  let auth :=
    if d_delegateType delegate =? "sigAuth"
    then push (authentication b) delegateId else authentication b in
  let assertion :=
    if d_delegateType delegate =? "veriKey"
    then push (assertionMethod b) delegateId else assertionMethod b in
  mkBuilding vms auth assertion.

(** Body of the [forEach] over the [did/pub/] attributes. *)
Definition addKey (did : string) (b : Building) (attr : Attribute)
           (index : nat) : Building :=
  let parts := split "/" (a_name attr) in
  let algorithm := orElse (nth_error parts 2) "Unknown" in
  let keyType := orElse (nth_error parts 3) "veriKey" in
  let encoding := orElse (nth_error parts 4) "base64" in
  let keyId := did ++ "#key-" ++ numberToString index in
  let keyMethod :=
    {| vm_id := keyId;
       vm_type := algorithm ++ "VerificationKey2020";
       vm_controller := did;
       vm_blockchainAccountId := None;
       vm_publicKeyBase64 :=
         if encoding =? "base64" then Some (a_value attr) else None;
       vm_publicKeyHex :=
         if encoding =? "base64" then None
         else if encoding =? "hex" then Some (a_value attr) else None |} in
  let vms := push (verificationMethod b) keyMethod in
  let assertion :=
    if keyType =? "veriKey"
    then push (assertionMethod b) keyId else assertionMethod b in
  let auth :=
    if keyType =? "sigAuth"
    then push (authentication b) keyId else authentication b in
  mkBuilding vms auth assertion.

(** [buildDidDocument]; [nowMs] is what [Date.now()] answers when the
    document is built. *)
Definition buildDidDocument (nowMs : Z) (address : string)
           (controller : option string)
           (delegates : list Delegate) (attributes : list Attribute)
  : DidDocument :=
  let did := "did:ethr:" ++ address in
  let now := (nowMs / 1000)%Z in
  let validDelegates := List.filter (fun d => (now <? d_validTo d)%Z) delegates in
  let validAttributes := List.filter (fun a => (now <? a_validTo a)%Z) attributes in
  let b0 :=
    mkBuilding
      [ {| vm_id := did ++ "#controller";
           vm_type := "EcdsaSecp256k1RecoveryMethod2020";
           vm_controller :=
             match controller with
             | Some c => if truthy c then "did:ethr:" ++ c else did
             | None => did
             end;
           vm_blockchainAccountId := Some ("eip155:1:" ++ address);
           vm_publicKeyBase64 := None;
           vm_publicKeyHex := None |} ]
      [did ++ "#controller"]
      [did ++ "#controller"] in
  let b1 := forEach (addDelegate did) validDelegates b0 in
  let service :=
    mapIndexed
      (fun attr index =>
         {| svc_id := did ++ "#service-" ++ numberToString index;
            svc_type := replace "did/svc/" EmptyString (a_name attr);
            svc_serviceEndpoint := a_value attr |})
      (List.filter (fun attr => startsWith (a_name attr) "did/svc/")
                   validAttributes) in
  let b2 :=
    forEach (addKey did)
            (List.filter (fun attr => startsWith (a_name attr) "did/pub/")
                         validAttributes)
            b1 in
  {| doc_context := DID_CONTEXTS;
     doc_id := did;
     doc_controller :=
       match controller with
       | Some c =>
           if truthy c && negb (toLowerCase c =? toLowerCase address)
           then Some ("did:ethr:" ++ c) else None
       | None => None
       end;
     doc_verificationMethod := verificationMethod b2;
     doc_authentication := authentication b2;
     doc_assertionMethod := assertionMethod b2;
     doc_service :=
       if (0 <? List.length service)%nat then Some service else None |}.

(** [resolve]: the current document. *)
Definition resolve (db : Db) (nowMs : Z) (did : string) : DidDocument :=
  let address := extractAddress did in
  match findIdentity db address with
  | None => buildDidDocument nowMs address None [] []
  | Some row =>
      buildDidDocument nowMs address (i_controller row)
                       (delegatesOf db address) (attributesOf db address)
  end.

Record OwnerInfo := mkOwnerInfo {
  oi_did : string;
  oi_owner : string;
  oi_isSelfOwned : bool
}.

(** [getOwner] *)
Definition getOwner (db : Db) (did : string) : OwnerInfo :=
  let address := extractAddress did in
  let controller :=
    match findIdentity db address with
    | Some row => i_controller row
    | None => None
    end in
  {| oi_did := "did:ethr:" ++ address;
     oi_owner := orElse controller address;
     oi_isSelfOwned :=
       match controller with
       | Some c => negb (truthy c) || (c =? address)
       | None => true
       end |}.

(** *** Queries on the event table *)

(** [order: { blockNumber: 'ASC', id: 'ASC' }] as a comparison. *)
Definition eventLeAsc (e1 e2 : Event) : bool :=
  ((e_blockNumber e1 <? e_blockNumber e2)
   || ((e_blockNumber e1 =? e_blockNumber e2) && (e_id e1 <=? e_id e2)))%Z.

(** [order: { blockNumber: 'DESC', id: 'DESC' }] *)
Definition eventLeDesc (e1 e2 : Event) : bool := eventLeAsc e2 e1.

Fixpoint insertBy {A : Type} (leb : A -> A -> bool) (x : A) (l : list A)
  : list A :=
  match l with
  | [] => [x]
  | y :: r => if leb x y then x :: y :: r else y :: insertBy leb x r
  end.

Definition sortBy {A : Type} (leb : A -> A -> bool) (l : list A) : list A :=
  List.fold_right (insertBy leb) [] l.

(** [eventRepository.find({ where, order })] *)
Definition findEvents (db : Db) (where_ : Event -> bool)
           (order : Event -> Event -> bool) : list Event :=
  sortBy order (List.filter where_ (events db)).

(** [LessThanOrEqual(blockNumber)] *)
Definition lessThanOrEqual (blockNumber : Z) (e : Event) : bool :=
  (e_blockNumber e <=? blockNumber)%Z.

(** [args.identity?.toLowerCase() === address.toLowerCase()] *)
Definition forIdentity (address : string) (e : Event) : bool :=
  toLowerCase (argsIdentity (e_args e)) =? toLowerCase address.

(** *** Time-based resolution *)

(** The [while (low < high)] loop of [getBlockByTimestamp].  The interval
    shrinks in every round, so [high - low] rounds are enough: with that
    many, the loop has ended when the counter runs out. *)
Fixpoint searchBlock (p : Provider) (targetTime : Z) (rounds : nat)
         (low high : Z) : Z :=
  match rounds with
  | O => low
  | S rounds' =>
      if (low <? high)%Z then
        let mid := ((low + high) / 2)%Z in
        match getBlock p mid with
        | None => searchBlock p targetTime rounds' low mid
        | Some block =>
            if (b_timestamp block <? targetTime)%Z
            then searchBlock p targetTime rounds' (mid + 1)%Z high
            else searchBlock p targetTime rounds' low mid
        end
      else low
  end.

(** [getBlockByTimestamp] *)
Definition getBlockByTimestamp (p : Provider) (timestampMs : Z) : result Z :=
  let targetTime := (timestampMs / 1000)%Z in
  match getBlockLatest p with
  | None => Throw "Could not fetch latest block"
  | Some latestBlock =>
      let low := 0%Z in
      let high := b_number latestBlock in
      Ok (searchBlock p targetTime (Z.to_nat (high - low)) low high)
  end.

(** The state [reconstructStateFromEvents] accumulates. *)
Record DelegateEntry := mkDelegateEntry {
  de_delegateType : string;
  de_delegateAddress : string;
  de_validTo : Z
}.

Record AttributeEntry := mkAttributeEntry {
  ae_name : string;
  ae_value : string;
  ae_validTo : Z
}.

Record Replay := mkReplay {
  r_owner : option string;
  r_delegatesMap : list (string * DelegateEntry);
  r_attributesMap : list (string * AttributeEntry)
}.

(** The key of [delegatesMap] and of [delegateState]. *)
Definition delegateKey (delegateType delegate : string) : string :=
  delegateType ++ ":" ++ toLowerCase delegate.

(** The [switch (event.eventName)] of the replay loop. *)
Definition replayEvent (st : Replay) (event : Event) : Replay :=
  match e_args event with
  | OwnerChangedArgs _ owner _ =>
      mkReplay (Some (toLowerCase owner))
               (r_delegatesMap st) (r_attributesMap st)
  | DelegateChangedArgs _ delegateType delegate validTo _ =>
      let key := delegateKey delegateType delegate in
      mkReplay (r_owner st)
               (mapSet String.eqb key
                       (mkDelegateEntry delegateType (toLowerCase delegate)
                                        validTo)
                       (r_delegatesMap st))
               (r_attributesMap st)
  | AttributeChangedArgs _ name value validTo _ =>
      mkReplay (r_owner st) (r_delegatesMap st)
               (mapSet String.eqb name (mkAttributeEntry name value validTo)
                       (r_attributesMap st))
  end.

(** The [for (const event of events)] loop, with its [break]. *)
Fixpoint replayLoop (events : list Event) (maxBlock : Z) (st : Replay)
  : Replay :=
  match events with
  | [] => st
  | event :: rest =>
      if (maxBlock <? e_blockNumber event)%Z then st
      else replayLoop rest maxBlock (replayEvent st event)
  end.

Record HistoricalState := mkHistoricalState {
  hs_owner : option string;
  hs_delegates : list Delegate;
  hs_attributes : list Attribute
}.

(** [reconstructStateFromEvents]; its [address] argument is unused. *)
Definition reconstructStateFromEvents (address : string)
           (events : list Event) (maxBlock : Z) : HistoricalState :=
  let st := replayLoop events maxBlock (mkReplay None [] []) in
  let delegates :=
    List.map (fun d => mkDelegate None None (de_delegateType d)
                                  (de_delegateAddress d) (de_validTo d))
             (mapValues (r_delegatesMap st)) in
  let attributes :=
    List.map (fun a => mkAttribute None None (ae_name a) (ae_value a)
                                   (ae_validTo a))
             (mapValues (r_attributesMap st)) in
  mkHistoricalState (r_owner st) delegates attributes.

(** The events [resolveAtBlock] replays. *)
Definition identityEvents (db : Db) (address : string) (blockNumber : Z)
  : list Event :=
  List.filter (forIdentity address)
              (findEvents db (lessThanOrEqual blockNumber) eventLeAsc).

(** [resolveAtBlock] *)
Definition resolveAtBlock (db : Db) (nowMs : Z) (did : string)
           (blockNumber : Z) : DidDocument :=
  let address := extractAddress did in
  let historicalState :=
    reconstructStateFromEvents address
                               (identityEvents db address blockNumber)
                               blockNumber in
  buildDidDocument nowMs address (hs_owner historicalState)
                   (hs_delegates historicalState)
                   (hs_attributes historicalState).

(** [resolveAtTime] *)
Definition resolveAtTime (db : Db) (p : Provider) (nowMs : Z)
           (did : string) (timestampMs : Z) : result DidDocument :=
  blockNumber <- getBlockByTimestamp p timestampMs ;;
  Ok (resolveAtBlock db nowMs did blockNumber).

Definition isOwnerChanged (e : Event) : bool :=
  eventName e =? "DIDOwnerChanged".

Definition isDelegateChanged (e : Event) : bool :=
  eventName e =? "DIDDelegateChanged".

(** The [for (const event of ownerEvents)] loop of [getOwnerAtBlock]. *)
Fixpoint firstOwner (address : string) (ownerEvents : list Event)
  : option string :=
  match ownerEvents with
  | [] => None
  | event :: rest =>
      match e_args event with
      | OwnerChangedArgs ident owner _ =>
          if toLowerCase ident =? toLowerCase address
          then Some (toLowerCase owner)
          else firstOwner address rest
      | _ => firstOwner address rest
      end
  end.

(** [getOwnerAtBlock] *)
Definition getOwnerAtBlock (db : Db) (did : string) (blockNumber : Z)
  : string :=
  let address := extractAddress did in
  let ownerEvents :=
    findEvents db
               (fun e => isOwnerChanged e && lessThanOrEqual blockNumber e)
               eventLeDesc in
  match firstOwner address ownerEvents with
  | Some owner => owner
  | None => toLowerCase address
  end.

(** [getOwnerAtTime] *)
Definition getOwnerAtTime (db : Db) (p : Provider) (did : string)
           (timestampMs : Z) : result string :=
  blockNumber <- getBlockByTimestamp p timestampMs ;;
  Ok (getOwnerAtBlock db did blockNumber).

(** The loop that fills [delegateState] in [wasValidSignerAtBlock]. *)
Definition delegateStateStep (address : string)
           (delegateState : list (string * Z)) (event : Event)
  : list (string * Z) :=
  match e_args event with
  | DelegateChangedArgs ident delegateType delegate validTo _ =>
      if toLowerCase ident =? toLowerCase address
      then mapSet String.eqb (delegateKey delegateType delegate) validTo
                  delegateState
      else delegateState
  | _ => delegateState
  end.

(** The test of the final [for (const [key, validTo] of delegateState)]. *)
Definition validDelegateEntry (signer : string) (blockTimestamp : Z)
           (entry : string * Z) : bool :=
  let '(key, validTo) := entry in
  match nth_error (split ":" key) 1 with
  | Some delegateAddr =>
      (delegateAddr =? signer) && (blockTimestamp <? validTo)%Z
  | None => false
  end.

(** [wasValidSignerAtBlock] *)
Definition wasValidSignerAtBlock (db : Db) (p : Provider) (did : string)
           (signerAddress : string) (blockNumber : Z) : bool :=
  let address := extractAddress did in
  let signer := toLowerCase signerAddress in
  let ownerAtBlock := getOwnerAtBlock db did blockNumber in
  if ownerAtBlock =? signer then true
  else
    let events :=
      findEvents db
                 (fun e => isDelegateChanged e
                           && lessThanOrEqual blockNumber e)
                 eventLeAsc in
    let delegateState :=
      List.fold_left (delegateStateStep address) events [] in
    match getBlock p blockNumber with
    | None => false
    | Some block =>
        List.existsb (validDelegateEntry signer (b_timestamp block))
                     delegateState
    end.

(** [wasValidSignerAtTime] *)
Definition wasValidSignerAtTime (db : Db) (p : Provider) (did : string)
           (signerAddress : string) (timestampMs : Z) : result bool :=
  blockNumber <- getBlockByTimestamp p timestampMs ;;
  Ok (wasValidSignerAtBlock db p did signerAddress blockNumber).

End DidService.

(* ================================================================== *)
(** ** [CredentialService] (credential.service.ts) *)
(* ================================================================== *)

Module CredentialService.
Import Js.

Definition VC_CONTEXTS : list string :=
  [ "https://www.w3.org/2018/credentials/v1";
    "https://w3id.org/security/suites/secp256k1-2019/v1" ].

Inductive CredentialStatus := ACTIVE | REVOKED | EXPIRED.

Definition statusEq (a b : CredentialStatus) : bool :=
  match a, b with
  | ACTIVE, ACTIVE | REVOKED, REVOKED | EXPIRED, EXPIRED => true
  | _, _ => false
  end.

Record CredentialProof := mkCredentialProof {
  p_type : string;
  p_created : string;
  p_verificationMethod : string;
  p_proofPurpose : string;
  p_proofValue : string
}.

(** [entities/Credential.ts].  The [proof] column holds the JSON text
    [issue] wrote with [JSON.stringify]; the row keeps the record that
    [JSON.parse] gives back.  [claims] is the list of the object's own
    entries, in key order. *)
Record Credential := mkCredential {
  c_id : string;
  c_issuer : string;
  c_subject : string;
  c_type : list string;
  c_claims : list (string * string);
  c_issuanceDate : string;
  c_expirationDate : option string;
  c_status : CredentialStatus;
  c_proof : CredentialProof
}.

(** The object whose [JSON.stringify] is the signed message. *)
Record CredentialPayload := mkCredentialPayload {
  cp_context : list string;
  cp_type : list string;
  cp_issuer : string;
  cp_issuanceDate : string;
  cp_expirationDate : option string;
  cp_credentialSubject : list (string * string)
}.

Record VerifiableCredential := mkVerifiableCredential {
  vc_context : list string;
  vc_id : string;
  vc_type : list string;
  vc_issuer : string;
  vc_issuanceDate : string;
  vc_expirationDate : option string;
  vc_credentialSubject : list (string * string);
  vc_credentialStatus : string * string;
  vc_proof : CredentialProof
}.

Record Checks := mkChecks {
  signature : bool;
  signerValidAtIssuance : bool;
  notExpired : bool;
  notRevoked : bool
}.

Record Details := mkDetails {
  recoveredAddress : string;
  issuerDid : string;
  issuanceDate : string;
  ownerAtIssuance : string;
  wasValidSigner : bool
}.

(** What [verify] resolves to. *)
Record VerifyResult := mkVerifyResult {
  valid : bool;
  checks : Checks;
  credential : option VerifiableCredential;
  error : option string;
  details : option Details
}.

(** What [this.logger] receives. *)
Inductive LogEntry :=
| LogInfo (message : string)
| LogWarn (message : string).

(** The two methods of the injected [DidService] that [verify] awaits;
    either may reject. *)
Record DidServiceApi := mkDidServiceApi {
  api_getOwnerAtTime : string -> Z -> result string;
  api_wasValidSignerAtTime : string -> string -> Z -> result bool
}.

(** The service wired to the repositories and the provider. *)
Definition didServiceOf (db : Db) (p : Provider) : DidServiceApi :=
  {| api_getOwnerAtTime := DidService.getOwnerAtTime db p;
     api_wasValidSignerAtTime := DidService.wasValidSignerAtTime db p |}.

(** [{ id: subject, ...claims }] *)
Definition credentialSubject (subject : string)
           (claims : list (string * string)) : list (string * string) :=
  List.fold_left (fun o kv => mapSet String.eqb (fst kv) (snd kv) o)
                 claims [("id", subject)].

(** [x || undefined] for a nullable string column. *)
Definition orUndefined (x : option string) : option string :=
  match x with
  | Some s => if truthy s then Some s else None
  | None => None
  end.

Section Verify.
(** [JSON.stringify] on the payload, [ethers.verifyMessage],
    [new Date(s).getTime()] on the ISO dates the rows hold,
    [encodeURIComponent], and the configured [API_BASE_URL]. *)
Variable JSON_stringify : CredentialPayload -> string.
Variable verifyMessage : string -> string -> result string.
Variable dateOf : string -> Z.
Variable encodeURIComponent : string -> string.
Variable apiBaseUrl : string.

Definition toVerifiableCredential (credential : Credential)
  : VerifiableCredential :=
  let credentialId := "urn:uuid:" ++ c_id credential in
  {| vc_context := VC_CONTEXTS;
     vc_id := credentialId;
     vc_type := c_type credential;
     vc_issuer := c_issuer credential;
     vc_issuanceDate := c_issuanceDate credential;
     vc_expirationDate := orUndefined (c_expirationDate credential);
     vc_credentialSubject :=
       credentialSubject (c_subject credential) (c_claims credential);
     vc_credentialStatus :=
       (apiBaseUrl ++ "/api/credentials/"
                   ++ encodeURIComponent credentialId ++ "/status",
        "CredentialStatusList2021");
     vc_proof := c_proof credential |}.

(** [credentialRepository.findOne({ where: { id: uuid } })] *)
Definition findCredential (credentials : list Credential) (uuid : string)
  : option Credential :=
  List.find (fun c => c_id c =? uuid) credentials.

(** Check 3: the recovered address and whether it is the issuer's. *)
Definition checkSignature (credential : Credential) : bool * string :=
  let credentialPayload :=
    {| cp_context := VC_CONTEXTS;
       cp_type := c_type credential;
       cp_issuer := c_issuer credential;
       cp_issuanceDate := c_issuanceDate credential;
       cp_expirationDate := orUndefined (c_expirationDate credential);
       cp_credentialSubject :=
         credentialSubject (c_subject credential) (c_claims credential) |} in
  let message := JSON_stringify credentialPayload in
  match verifyMessage message (p_proofValue (c_proof credential)) with
  | Throw _ => (false, EmptyString)
  | Ok recovered =>
      let issuerAddress := lastOf (split ":" (c_issuer credential)) in
      (match issuerAddress with
       | Some a => toLowerCase recovered =? toLowerCase a
       | None => false
       end,
       recovered)
  end.

(** Check 4: the [try]/[catch] around the two historical lookups.
    Returns [signerValidAtIssuance], [ownerAtIssuance] and the log. *)
Definition checkSignerAtIssuance (api : DidServiceApi)
           (credential : Credential) (signatureValid : bool)
           (recovered : string) : bool * string * list LogEntry :=
  let issuanceDate := dateOf (c_issuanceDate credential) in
  if truthy recovered then
    match api_getOwnerAtTime api (c_issuer credential) issuanceDate with
    | Throw msg =>
        (signatureValid, EmptyString,
         [LogWarn ("Could not perform time-based verification: Error: "
                     ++ msg)])
    | Ok owner =>
        match api_wasValidSignerAtTime api (c_issuer credential)
                                       recovered issuanceDate with
        | Throw msg =>
            (signatureValid, owner,
             [LogWarn ("Could not perform time-based verification: Error: "
                         ++ msg)])
        | Ok wasValid =>
            (wasValid, owner,
             [LogInfo ("Time-based verification for "
                         ++ c_issuer credential ++ ":"
                         ++ " recovered=" ++ recovered
                         ++ ", ownerAtIssuance=" ++ owner ++ ","
                         ++ " wasValidSigner=" ++ boolToString wasValid)])
        end
    end
  else (false, EmptyString, []).

(** [verify]: the result and what was logged on the way. *)
Definition verify (api : DidServiceApi) (credentials : list Credential)
           (nowMs : Z) (credentialId : string)
  : VerifyResult * list LogEntry :=
  let uuid := replace "urn:uuid:" EmptyString credentialId in
  match findCredential credentials uuid with
  | None =>
      ({| valid := false;
          checks := mkChecks false false false false;
          credential := None;
          error := Some "Credential not found";
          details := None |}, [])
  | Some cred =>
      let notRevoked := statusEq (c_status cred) ACTIVE in
      let notExpired :=
        match orUndefined (c_expirationDate cred) with
        | Some expirationDate => (nowMs <? dateOf expirationDate)%Z
        | None => true
        end in
      let '(signatureValid, recovered) := checkSignature cred in
      let '(signerValid, owner, log) :=
        checkSignerAtIssuance api cred signatureValid recovered in
      let ok := signatureValid && signerValid && notExpired && notRevoked in
      ({| valid := ok;
          checks := mkChecks signatureValid signerValid notExpired notRevoked;
          credential :=
            if ok then Some (toVerifiableCredential cred) else None;
          error := None;
          details :=
            Some {| recoveredAddress := recovered;
                    issuerDid := c_issuer cred;
                    issuanceDate := c_issuanceDate cred;
                    ownerAtIssuance := owner;
                    wasValidSigner := signerValid |} |}, log)
  end.
End Verify.

End CredentialService.

(* ================================================================== *)
(** ** [BlockchainService] (blockchain.service.ts) *)
(* ================================================================== *)

Module BlockchainService.
Import Js.

(** The [Log] an event arrives with. *)
Record Log := mkLog {
  l_transactionHash : string;
  l_blockNumber : Z
}.

(** The value of a [PrimaryGeneratedColumn] for a new row: one more than
    the largest id in the table (rows are never deleted). *)
Definition nextId (ids : list Z) : Z :=
  (1 + List.fold_right Z.max 0 ids)%Z.

Definition someIds (ids : list (option Z)) : list Z :=
  List.flat_map (fun o => match o with Some i => [i] | None => [] end) ids.

(** [eventRepository.save({...})] on an object without an id: an insert. *)
Definition saveEvent (db : Db) (log : Log) (args : EventArgs) : Db :=
  let row :=
    mkEvent (nextId (List.map e_id (events db)))
            (l_transactionHash log) (l_blockNumber log) args in
  mkDb (identities db) (delegates db) (attributes db)
       (events db ++ [row])%list.

(** [identityRepository.save(entity)]: an upsert on the primary key. *)
Definition saveIdentity (db : Db) (row : Identity) : Db :=
  let present :=
    List.existsb (fun i => i_address i =? i_address row) (identities db) in
  let rows :=
    if present
    then List.map (fun i => if i_address i =? i_address row then row else i)
                  (identities db)
    else (identities db ++ [row])%list in
  mkDb rows (delegates db) (attributes db) (events db).

(** [delegateRepository.save(entity)]: an update when the entity has an
    id, otherwise an insert under a new id. *)
Definition idIs (id : Z) (o : option Z) : bool :=
  match o with Some i => (i =? id)%Z | None => false end.

Definition saveDelegate (db : Db) (row : Delegate) : Db :=
  let rows :=
    match d_id row with
    | Some id =>
        List.map (fun d => if idIs id (d_id d) then row else d) (delegates db)
    | None =>
        let id := nextId (someIds (List.map d_id (delegates db))) in
        (delegates db
         ++ [mkDelegate (Some id) (d_identity row) (d_delegateType row)
                        (d_delegateAddress row) (d_validTo row)])%list
    end in
  mkDb (identities db) rows (attributes db) (events db).

Definition saveAttribute (db : Db) (row : Attribute) : Db :=
  let rows :=
    match a_id row with
    | Some id =>
        List.map (fun a => if idIs id (a_id a) then row else a) (attributes db)
    | None =>
        let id := nextId (someIds (List.map a_id (attributes db))) in
        (attributes db
         ++ [mkAttribute (Some id) (a_identity row) (a_name row)
                         (a_value row) (a_validTo row)])%list
    end in
  mkDb (identities db) (delegates db) rows (events db).

(** "Update or create identity" in the delegate and attribute handlers:
    a row with a null controller is inserted when none is found. *)
Definition ensureIdentity (db : Db) (address : string) : Db :=
  match DidService.findIdentity db address with
  | Some _ => db
  | None => saveIdentity db (mkIdentity address None)
  end.

(** [delegateRepository.findOne({ where: { identity: { address },
    delegateType, delegateAddress } })] *)
Definition findDelegate (db : Db) (address delegateType delegateAddress : string)
  : option Delegate :=
  List.find
    (fun d => match d_identity d with
              | Some a => a =? address
              | None => false
              end
              && (d_delegateType d =? delegateType)
              && (d_delegateAddress d =? delegateAddress))
    (delegates db).

Definition findAttribute (db : Db) (address name : string)
  : option Attribute :=
  List.find
    (fun a => match a_identity a with
              | Some i => i =? address
              | None => false
              end
              && (a_name a =? name))
    (attributes db).

Section Handlers.
(** [ethers.decodeBytes32String], [ethers.toUtf8String] (both may
    throw) and [ethers.hexlify]. *)
Variable decodeBytes32String : string -> result string.
Variable toUtf8String : string -> result string.
Variable hexlify : string -> string.

(** [try { x = f(s) } catch { x = d }] *)
Definition orCatch (r : result string) (d : string) : string :=
  match r with Ok s => s | Throw _ => d end.

(** [handleOwnerChanged] *)
Definition handleOwnerChanged (db : Db) (identity owner : string)
           (previousChange : Z) (log : Log) : Db :=
  let db1 := saveEvent db log
                       (OwnerChangedArgs identity owner previousChange) in
  let identityEntity :=
    match DidService.findIdentity db1 (toLowerCase identity) with
    | Some row => row
    | None => mkIdentity (toLowerCase identity) None
    end in
  saveIdentity db1 (mkIdentity (i_address identityEntity)
                               (Some (toLowerCase owner))).

(** [handleDelegateChanged] *)
Definition handleDelegateChanged (db : Db)
           (identity delegateType delegate : string)
           (validTo previousChange : Z) (log : Log) : Db :=
  let delegateTypeStr :=
    orCatch (decodeBytes32String delegateType) delegateType in
  let db1 :=
    saveEvent db log
              (DelegateChangedArgs identity delegateTypeStr delegate
                                   validTo previousChange) in
  let db2 := ensureIdentity db1 (toLowerCase identity) in
  match findDelegate db2 (toLowerCase identity) delegateTypeStr
                     (toLowerCase delegate) with
  | Some delegateEntity =>
      saveDelegate db2
                   (mkDelegate (d_id delegateEntity)
                               (d_identity delegateEntity)
                               (d_delegateType delegateEntity)
                               (d_delegateAddress delegateEntity)
                               validTo)
  | None =>
      saveDelegate db2
                   (mkDelegate None (Some (toLowerCase identity))
                               delegateTypeStr (toLowerCase delegate)
                               validTo)
  end.

(** [handleAttributeChanged] *)
Definition handleAttributeChanged (db : Db) (identity name value : string)
           (validTo previousChange : Z) (log : Log) : Db :=
  let nameStr := orCatch (decodeBytes32String name) name in
  let db1 :=
    saveEvent db log
              (AttributeChangedArgs identity nameStr (hexlify value)
                                    validTo previousChange) in
  let db2 := ensureIdentity db1 (toLowerCase identity) in
  let valueStr := orCatch (toUtf8String value) (hexlify value) in
  match findAttribute db2 (toLowerCase identity) nameStr with
  | Some attributeEntity =>
      saveAttribute db2
                    (mkAttribute (a_id attributeEntity)
                                 (a_identity attributeEntity)
                                 (a_name attributeEntity)
                                 valueStr validTo)
  | None =>
      saveAttribute db2
                    (mkAttribute None (Some (toLowerCase identity))
                                 nameStr valueStr validTo)
  end.

(** An event of the contract with its log: the arguments of one call
    of a handler. *)
Inductive LedgerEvent :=
| DIDOwnerChanged (identity owner : string) (previousChange : Z) (log : Log)
| DIDDelegateChanged (identity delegateType delegate : string)
                     (validTo previousChange : Z) (log : Log)
| DIDAttributeChanged (identity name value : string)
                      (validTo previousChange : Z) (log : Log).

(** One call of the handler of an event, from its first statement to its
    last with no other handler at work on the tables in between.  This is
    how the loops of [syncFromBlock] run the handlers, which they [await]
    one by one.  The listeners registered in [startListening] start a
    handler with [void this.handle...(...)] and do not wait for it, so the
    handlers of two events that arrive close together interleave at their
    [await]s: such a run is not a sequence of [onEvent]s. *)
Definition onEvent (db : Db) (ev : LedgerEvent) : Db :=
  match ev with
  | DIDOwnerChanged i o pc log => handleOwnerChanged db i o pc log
  | DIDDelegateChanged i t d v pc log =>
      handleDelegateChanged db i t d v pc log
  | DIDAttributeChanged i n x v pc log =>
      handleAttributeChanged db i n x v pc log
  end.
End Handlers.

End BlockchainService.

(* ================================================================== *)
(** ** The temporal state of the specification *)
(* ================================================================== *)

(** [stateAt] as the specification words it: select the events of the
    identity up to the target position, in position order, and fold them
    left to right from the self-owned state with empty maps.  Delegates are
    keyed by delegate type and delegate address, attributes by name. *)
Module TemporalSpec.
Import Js.

Definition DelegateKey : Type := string * string.

Definition delegateKeyEq (k1 k2 : DelegateKey) : bool :=
  (fst k1 =? fst k2) && (snd k1 =? snd k2).

Record State := mkState {
  owner : string;
  delegates : list (DelegateKey * Z);
  attributes : list (string * (string * Z))
}.

Definition initial (identity : string) : State :=
  mkState identity [] [].

Definition applyEvent (s : State) (e : Event) : State :=
  match e_args e with
  | OwnerChangedArgs _ newOwner _ =>
      mkState (toLowerCase newOwner) (delegates s) (attributes s)
  | DelegateChangedArgs _ delegateType delegate validTo _ =>
      mkState (owner s)
              (mapSet delegateKeyEq (delegateType, toLowerCase delegate)
                      validTo (delegates s))
              (attributes s)
  | AttributeChangedArgs _ name value validTo _ =>
      mkState (owner s) (delegates s)
              (mapSet String.eqb name (value, validTo) (attributes s))
  end.

(** The identity an event is about. *)
Definition identityOf (e : Event) : string :=
  match e_args e with
  | OwnerChangedArgs identity _ _ => identity
  | DelegateChangedArgs identity _ _ _ _ => identity
  | AttributeChangedArgs identity _ _ _ _ => identity
  end.

(** Addresses name an identity whatever the case of their letters. *)
Definition sameAddress (a b : string) : bool :=
  toLowerCase a =? toLowerCase b.

(** The position of an event: its block number, then its sequence number
    in the log.  Positions are ordered block first. *)
Definition positionOf (e : Event) : Z * Z := (e_blockNumber e, e_id e).

Definition positionLeb (p q : Z * Z) : bool :=
  match (fst p ?= fst q)%Z with
  | Lt => true
  | Eq => (snd p <=? snd q)%Z
  | Gt => false
  end.

Definition positionLe (p q : Z * Z) : Prop :=
  (fst p < fst q \/ (fst p = fst q /\ snd p <= snd q))%Z.

(** The log in position order. *)
Fixpoint insertAtPosition (e : Event) (ordered : list Event) : list Event :=
  match ordered with
  | [] => [e]
  | x :: rest =>
      if positionLeb (positionOf e) (positionOf x) then e :: x :: rest
      else x :: insertAtPosition e rest
  end.

Definition inPositionOrder (log : list Event) : list Event :=
  List.fold_right insertAtPosition [] log.

(** An event is selected for [identity] at [position] when it is about
    that identity and its block is at most [position]. *)
Definition selected (identity : string) (position : Z) (e : Event) : bool :=
  sameAddress (identityOf e) identity && (e_blockNumber e <=? position)%Z.

(** The ordered subsequence of the events of [identity] with a position
    of at most [position]. *)
Definition selectEvents (log : list Event) (identity : string)
           (position : Z) : list Event :=
  List.filter (selected identity position) (inPositionOrder log).

Definition stateAt (log : list Event) (identity : string) (position : Z)
  : State :=
  List.fold_left applyEvent (selectEvents log identity position)
                 (initial identity).

(** The value the latest event for a key carries, if any event has it. *)
Definition latestDelegateChange (evs : list Event) (key : DelegateKey)
  : option Z :=
  List.fold_left
    (fun acc e =>
       match e_args e with
       | DelegateChangedArgs _ delegateType delegate validTo _ =>
           if delegateKeyEq (delegateType, toLowerCase delegate) key
           then Some validTo else acc
       | _ => acc
       end)
    evs None.

Definition latestAttributeChange (evs : list Event) (key : string)
  : option (string * Z) :=
  List.fold_left
    (fun acc e =>
       match e_args e with
       | AttributeChangedArgs _ name value validTo _ =>
           if name =? key then Some (value, validTo) else acc
       | _ => acc
       end)
    evs None.

Definition latestOwnerChange (evs : list Event) (identity : string) : string :=
  List.fold_left
    (fun acc e =>
       match e_args e with
       | OwnerChangedArgs _ newOwner _ => toLowerCase newOwner
       | _ => acc
       end)
    evs identity.

(** The entries of the specification's maps in the shape of the rows the
    document builder takes. *)
Definition delegateRows (s : State) : list Delegate :=
  List.map (fun kv => mkDelegate None None (fst (fst kv)) (snd (fst kv))
                                 (snd kv))
           (delegates s).

Definition attributeRows (s : State) : list Attribute :=
  List.map (fun kv => mkAttribute None None (fst kv) (fst (snd kv))
                                  (snd (snd kv)))
           (attributes s).

(** An entry is valid at reference time [T] iff [validTo > T]. *)
Definition validAt (T : Z) (validTo : Z) : bool := (T <? validTo)%Z.
End TemporalSpec.

(** Addresses are hexadecimal text and hold no [:]. *)
Fixpoint noColon (s : string) : bool :=
  match s with
  | EmptyString => true
  | String c r => negb (Ascii.eqb c ":") && noColon r
  end.

(** The delegate addresses of the rows hold no [:]. *)
Definition delegateAddressOk (e : Event) : bool :=
  match e_args e with
  | DelegateChangedArgs _ _ delegate _ _ => noColon delegate
  | _ => true
  end.


(** Two spellings of one identifier: the bare address or the DID with the
    [did:ethr:] prefix, each in any letter case. *)
Definition writesAddress (address did : string) : Prop :=
  Js.toLowerCase did = Js.toLowerCase address
  \/ Js.toLowerCase did = "did:ethr:" ++ Js.toLowerCase address.

(* ================================================================== *)
(** ** The verification methods of a document, entry by entry *)
(* ================================================================== *)

Module Methods.
Import Js DidService.

Definition controllerMethod (address : string) (controller : option string)
  : VerificationMethod :=
  let did := "did:ethr:" ++ address in
  {| vm_id := did ++ "#controller";
     vm_type := "EcdsaSecp256k1RecoveryMethod2020";
     vm_controller :=
       match controller with
       | Some c => if truthy c then "did:ethr:" ++ c else did
       | None => did
       end;
     vm_blockchainAccountId := Some ("eip155:1:" ++ address);
     vm_publicKeyBase64 := None;
     vm_publicKeyHex := None |}.

(** The method of the delegate at place [index] among the valid ones. *)
Definition delegateMethod (did : string) (delegate : Delegate) (index : nat)
  : VerificationMethod :=
  {| vm_id := did ++ "#delegate-" ++ numberToString index;
     vm_type := "EcdsaSecp256k1RecoveryMethod2020";
     vm_controller := did;
     vm_blockchainAccountId :=
       Some ("eip155:1:" ++ d_delegateAddress delegate);
     vm_publicKeyBase64 := None;
     vm_publicKeyHex := None |}.

(** The method of the [did/pub/] attribute at place [index] among the
    valid [did/pub/] attributes. *)
Definition keyMethod (did : string) (attr : Attribute) (index : nat)
  : VerificationMethod :=
  let parts := split "/" (a_name attr) in
  let encoding := orElse (nth_error parts 4) "base64" in
  {| vm_id := did ++ "#key-" ++ numberToString index;
     vm_type := orElse (nth_error parts 2) "Unknown" ++ "VerificationKey2020";
     vm_controller := did;
     vm_blockchainAccountId := None;
     vm_publicKeyBase64 :=
       if encoding =? "base64" then Some (a_value attr) else None;
     vm_publicKeyHex :=
       if encoding =? "base64" then None
       else if encoding =? "hex" then Some (a_value attr) else None |}.

(** The entries still valid when the clock reads [nowMs]. *)
Definition validDelegates (nowMs : Z) (delegates : list Delegate)
  : list Delegate :=
  List.filter (fun d => (nowMs / 1000 <? d_validTo d)%Z) delegates.

Definition validKeys (nowMs : Z) (attributes : list Attribute)
  : list Attribute :=
  List.filter (fun attr => startsWith (a_name attr) "did/pub/")
              (List.filter (fun a => (nowMs / 1000 <? a_validTo a)%Z)
                           attributes).

(** The document of an identity nothing is known about. *)
Definition minimalDocument (address : string) : DidDocument :=
  let did := "did:ethr:" ++ address in
  {| doc_context := DID_CONTEXTS;
     doc_id := did;
     doc_controller := None;
     doc_verificationMethod := [controllerMethod address None];
     doc_authentication := [did ++ "#controller"];
     doc_assertionMethod := [did ++ "#controller"];
     doc_service := None |}.
End Methods.

(* ================================================================== *)
(** ** Concrete ledgers, tables and credentials *)
(* ================================================================== *)

Module Scenario.
Import Js.

(** A provider over a chain given by the timestamps of its blocks
    [0, 1, ...]: the latest block is the last one. *)
Definition providerOfChain (timestamps : list Z) : Provider :=
  {| getBlockLatest :=
       match timestamps with
       | [] => None
       | _ => Some (mkBlock (Z.of_nat (List.length timestamps) - 1)
                            (List.last timestamps 0%Z))
       end;
     getBlock :=
       fun n =>
         if (n <? 0)%Z then None
         else option_map (mkBlock n) (nth_error timestamps (Z.to_nat n)) |}.

(** A provider whose node does not answer for the latest block. *)
Definition providerDown : Provider :=
  {| getBlockLatest := None; getBlock := fun _ => None |}.

(** Three blocks, a thousand seconds apart. *)
Definition sparseChain : list Z := [1000; 2000; 3000]%Z.

(** The identity changes hands in block 0 and again in block 1. *)
Definition twoOwnersDb : Db :=
  mkDb [] [] []
       [ mkEvent 1 "0xt1" 0 (OwnerChangedArgs "0xAA" "0xA1" 0);
         mkEvent 2 "0xt2" 1 (OwnerChangedArgs "0xAA" "0xB2" 0) ].

(** Blocks 0 to 5, two hundred seconds apart: block 5 is at 1000. *)
Definition denseChain : list Z := [0; 200; 400; 600; 800; 1000]%Z.

(** One delegate, granted in block 5 until time 2000. *)
Definition delegateDb : Db :=
  mkDb [] [] []
       [ mkEvent 1 "0xt1" 5
                 (DelegateChangedArgs "0xAA" "sigAuth" "0xDD" 2000 0) ].

Definition delegateRow : Delegate :=
  mkDelegate None None "sigAuth" "0xdd" 2000.
End Scenario.

(** Credentials for the scenarios.  Signature recovery is played by a toy
    scheme in which the proof value is the text of the signer's address;
    the dates are the two ISO texts the scenarios use. *)
Module CredentialScenario.
Import Js CredentialService Scenario.

Definition toyStringify (payload : CredentialPayload) : string :=
  cp_issuer payload ++ "|" ++ cp_issuanceDate payload.

Definition toyVerifyMessage (message proofValue : string) : result string :=
  if truthy proofValue then Ok proofValue
  else Throw "invalid signature".

Definition at1500 : string := "1970-01-01T00:25:00.000Z".
Definition at2500 : string := "1970-01-01T00:41:40.000Z".

Definition toyDateOf (iso : string) : Z :=
  if iso =? at1500 then 1500000%Z
  else if iso =? at2500 then 2500000%Z
  else 0%Z.

Definition toyEncode (s : string) : string := s.

Definition toyVerify :=
  verify toyStringify toyVerifyMessage toyDateOf toyEncode
         "http://localhost:3001".

(** A credential of issuer [0xaa], issued at [issued], whose proof
    recovers [signer]. *)
Definition credentialBy (signer issued : string) : Credential :=
  {| c_id := "c1";
     c_issuer := "did:ethr:0xaa";
     c_subject := "did:ethr:0xcc";
     c_type := ["VerifiableCredential"];
     c_claims := [("name", "Alice")];
     c_issuanceDate := issued;
     c_expirationDate := None;
     c_status := ACTIVE;
     c_proof :=
       {| p_type := "EcdsaSecp256k1Signature2019";
          p_created := issued;
          p_verificationMethod := "did:ethr:0xaa#controller";
          p_proofPurpose := "assertionMethod";
          p_proofValue := signer |} |}.

(** The identity [0xaa] handed its ownership to [0x0f] in block 0. *)
Definition handedOverDb : Db :=
  mkDb [mkIdentity "0xaa" (Some "0x0f")] [] []
       [ mkEvent 1 "0xt1" 0 (OwnerChangedArgs "0xAA" "0x0F" 0) ].

(** A service whose second lookup is rejected, as when the node stops
    answering between the two. *)
Definition interruptedService (db : Db) (p : Provider) : DidServiceApi :=
  {| api_getOwnerAtTime := DidService.getOwnerAtTime db p;
     api_wasValidSignerAtTime :=
       fun _ _ _ => Throw "connect ECONNREFUSED" |}.


End CredentialScenario.

(** Rows of the projection tables come from the database with their
    generated ids. *)
Definition rowsHaveIds (db : Db) : Prop :=
  List.Forall (fun d => d_id d <> None) (delegates db)
  /\ List.Forall (fun a => a_id a <> None) (attributes db).

(** Deliveries for the ingestion scenarios; the byte decoders are played
    by the identity. *)
Module IngestionScenario.
Import Js BlockchainService.

Definition toyDecode (s : string) : result string := Ok s.
Definition toyHexlify (s : string) : string := s.

Definition toyOnEvent := onEvent toyDecode toyDecode toyHexlify.

Definition emptyDb : Db := mkDb [] [] [] [].

Definition grant : LedgerEvent :=
  DIDDelegateChanged "0xAA" "sigAuth" "0xDD" 2000 0 (mkLog "0xt1" 5).
End IngestionScenario.

(** The effect of the delegate and attribute handlers on their tables,
    read off the rows alone. *)
Module Projection.
Import Js BlockchainService.

Definition delegateMatches (address delegateType delegateAddress : string)
           (d : Delegate) : bool :=
  match d_identity d with
  | Some a => a =? address
  | None => false
  end
  && (d_delegateType d =? delegateType)
  && (d_delegateAddress d =? delegateAddress).

Definition attributeMatches (address name : string) (a : Attribute) : bool :=
  match a_identity a with
  | Some i => i =? address
  | None => false
  end
  && (a_name a =? name).

Definition insertDelegate (rows : list Delegate) (row : Delegate)
  : list Delegate :=
  (rows ++ [mkDelegate (Some (nextId (someIds (List.map d_id rows))))
                       (d_identity row) (d_delegateType row)
                       (d_delegateAddress row) (d_validTo row)])%list.

Definition insertAttribute (rows : list Attribute) (row : Attribute)
  : list Attribute :=
  (rows ++ [mkAttribute (Some (nextId (someIds (List.map a_id rows))))
                        (a_identity row) (a_name row) (a_value row)
                        (a_validTo row)])%list.

Definition upsertDelegate (rows : list Delegate)
           (address delegateType delegateAddress : string) (validTo : Z)
  : list Delegate :=
  match List.find (delegateMatches address delegateType delegateAddress) rows with
  | Some e =>
      let e' := mkDelegate (d_id e) (d_identity e) (d_delegateType e)
                           (d_delegateAddress e) validTo in
      match d_id e with
      | Some id => List.map (fun d => if idIs id (d_id d) then e' else d) rows
      | None => insertDelegate rows e'
      end
  | None =>
      insertDelegate rows
                     (mkDelegate None (Some address) delegateType
                                 delegateAddress validTo)
  end.

Definition upsertAttribute (rows : list Attribute) (address name value : string)
           (validTo : Z) : list Attribute :=
  match List.find (attributeMatches address name) rows with
  | Some e =>
      let e' := mkAttribute (a_id e) (a_identity e) (a_name e) value validTo in
      match a_id e with
      | Some id => List.map (fun a => if idIs id (a_id a) then e' else a) rows
      | None => insertAttribute rows e'
      end
  | None =>
      insertAttribute rows (mkAttribute None (Some address) name value validTo)
  end.
(** The row a delivery adds to the event table. *)
Definition eventRow (decodeBytes32String : string -> result string)
           (hexlify : string -> string) (db : Db) (ev : LedgerEvent) : Event :=
  let id := nextId (List.map e_id (events db)) in
  match ev with
  | DIDOwnerChanged i o pc log =>
      mkEvent id (l_transactionHash log) (l_blockNumber log)
              (OwnerChangedArgs i o pc)
  | DIDDelegateChanged i t d v pc log =>
      mkEvent id (l_transactionHash log) (l_blockNumber log)
              (DelegateChangedArgs i (orCatch (decodeBytes32String t) t) d v pc)
  | DIDAttributeChanged i n x v pc log =>
      mkEvent id (l_transactionHash log) (l_blockNumber log)
              (AttributeChangedArgs i (orCatch (decodeBytes32String n) n)
                                    (hexlify x) v pc)
  end.
End Projection.

(** How the state of the replay loop represents the state of the
    specification: a null owner stands for the identity itself, and an
    entry keyed by delegate type and address sits under the text
    [type:address]. *)
Module Representation.
Import Js DidService.

Definition ownerOrSelf (identity : string) (owner : option string) : string :=
  match owner with
  | Some o => o
  | None => identity
  end.

Definition keyText (k : TemporalSpec.DelegateKey) : string :=
  fst k ++ ":" ++ snd k.

Definition delegateEntry (kv : TemporalSpec.DelegateKey * Z)
  : string * DelegateEntry :=
  (keyText (fst kv),
   mkDelegateEntry (fst (fst kv)) (snd (fst kv)) (snd kv)).


Definition attributeEntry (kv : string * (string * Z))
  : string * AttributeEntry :=
  (fst kv, mkAttributeEntry (fst kv) (fst (snd kv)) (snd (snd kv))).

Definition represents (identity : string) (st : Replay)
           (s : TemporalSpec.State) : Prop :=
  ownerOrSelf identity (r_owner st) = TemporalSpec.owner s
  /\ r_delegatesMap st = List.map delegateEntry (TemporalSpec.delegates s)
  /\ r_attributesMap st = List.map attributeEntry (TemporalSpec.attributes s).

(** The keys of a delegate map are free of [:] in the address, and in
    the type as well for [keysPlain]. *)
Definition addressPlain (k : TemporalSpec.DelegateKey) : Prop :=
  noColon (snd k) = true.


(** The new owner an event names, if it is an owner change. *)
Definition newOwner (e : Event) (otherwise : string) : string :=
  match e_args e with
  | OwnerChangedArgs _ o _ => toLowerCase o
  | _ => otherwise
  end.

End Representation.

(* ================================================================== *)
(** ** [CredentialService]: issuing, status, revocation and lookup *)
(* ================================================================== *)

(** The rest of credential.service.ts.  The uuid the database generates
    for a new row is an argument of [issue], like the clock; the
    [BadRequestException] and [NotFoundException] a method throws are the
    [Rejected] case of [outcome]. *)
Module CredentialLifecycle.
Import Js CredentialService.

Inductive HttpError :=
| BadRequest (message : string)
| NotFound (message : string).

Inductive outcome (A : Type) : Type :=
| Done (a : A)
| Rejected (e : HttpError).
Arguments Done {A} a.
Arguments Rejected {A} e.

Record IssueCredentialDto := mkIssueCredentialDto {
  dto_issuerAddress : string;
  dto_subjectDid : string;
  dto_type : list string;
  dto_claims : list (string * string);
  dto_issuanceDate : string;
  dto_expirationDate : option string;
  dto_signature : string
}.

Record StatusInfo := mkStatusInfo {
  si_id : string;
  si_type : string;
  si_status : string
}.

Record RevokeResult := mkRevokeResult {
  rr_success : bool;
  rr_message : string
}.

Section Lifecycle.
Variable JSON_stringify : CredentialPayload -> string.
Variable verifyMessage : string -> string -> result string.
Variable dateOf : string -> Z.
Variable encodeURIComponent : string -> string.
Variable apiBaseUrl : string.

(** The [try { recover; compare } catch { throw BadRequest('Invalid
    signature format') }] that [issue] and [revoke] share: the exception
    thrown inside the [try] on a mismatch is caught by the same [catch]. *)
Definition checkSigner (message signature expected : string)
  : outcome unit :=
  match verifyMessage message signature with
  | Ok recoveredAddress =>
      if toLowerCase recoveredAddress =? toLowerCase expected
      then Done tt
      else Rejected (BadRequest "Invalid signature format")
  | Throw _ => Rejected (BadRequest "Invalid signature format")
  end.

Definition statusUrl (credentialId : string) : string :=
  apiBaseUrl ++ "/api/credentials/" ++ encodeURIComponent credentialId
             ++ "/status".

(** [issue]; [id] is the uuid of the new row.  Returns the credential and
    the table after the insert. *)
Definition issue (credentials : list Credential) (id : string)
           (dto : IssueCredentialDto)
  : outcome (VerifiableCredential * list Credential) :=
  let issuerDid := "did:ethr:" ++ toLowerCase (dto_issuerAddress dto) in
  let credentialPayload :=
    {| cp_context := VC_CONTEXTS;
       cp_type := "VerifiableCredential" :: dto_type dto;
       cp_issuer := issuerDid;
       cp_issuanceDate := dto_issuanceDate dto;
       cp_expirationDate := dto_expirationDate dto;
       cp_credentialSubject :=
         credentialSubject (dto_subjectDid dto) (dto_claims dto) |} in
  let message := JSON_stringify credentialPayload in
  match checkSigner message (dto_signature dto) (dto_issuerAddress dto) with
  | Rejected e => Rejected e
  | Done _ =>
      let proof :=
        {| p_type := "EcdsaSecp256k1Signature2019";
           p_created := dto_issuanceDate dto;
           p_verificationMethod := issuerDid ++ "#controller";
           p_proofPurpose := "assertionMethod";
           p_proofValue := dto_signature dto |} in
      let credential :=
        {| c_id := id;
           c_issuer := issuerDid;
           c_subject := dto_subjectDid dto;
           c_type := "VerifiableCredential" :: dto_type dto;
           c_claims := dto_claims dto;
           c_issuanceDate := dto_issuanceDate dto;
           c_expirationDate := dto_expirationDate dto;
           c_status := ACTIVE;
           c_proof := proof |} in
      let credentialId := "urn:uuid:" ++ c_id credential in
      Done ({| vc_context := VC_CONTEXTS;
               vc_id := credentialId;
               vc_type := c_type credential;
               vc_issuer := issuerDid;
               vc_issuanceDate := dto_issuanceDate dto;
               vc_expirationDate := dto_expirationDate dto;
               vc_credentialSubject :=
                 credentialSubject (dto_subjectDid dto) (dto_claims dto);
               vc_credentialStatus :=
                 (statusUrl credentialId, "CredentialStatusList2021");
               vc_proof := proof |},
            push credentials credential)
  end.

(** [getStatus] *)
Definition getStatus (credentials : list Credential) (nowMs : Z)
           (credentialId : string) : outcome StatusInfo :=
  let uuid := replace "urn:uuid:" EmptyString credentialId in
  match findCredential credentials uuid with
  | None => Rejected (NotFound "Credential not found")
  | Some cred =>
      let status :=
        if statusEq (c_status cred) REVOKED then "revoked"
        else match orUndefined (c_expirationDate cred) with
             | Some expirationDate =>
                 if (dateOf expirationDate <? nowMs)%Z then "expired"
                 else "active"
             | None => "active"
             end in
      Done {| si_id := statusUrl credentialId;
              si_type := "CredentialStatusList2021";
              si_status := status |}
  end.

(** [credentialRepository.save(credential)] on a loaded row: an update of
    the row with its id. *)
Definition updateCredential (credentials : list Credential) (row : Credential)
  : list Credential :=
  List.map (fun c => if c_id c =? c_id row then row else c) credentials.

Definition withStatus (c : Credential) (status : CredentialStatus)
  : Credential :=
  mkCredential (c_id c) (c_issuer c) (c_subject c) (c_type c) (c_claims c)
               (c_issuanceDate c) (c_expirationDate c) status (c_proof c).

(** [revoke] *)
Definition revoke (credentials : list Credential)
           (credentialId issuerAddress signature : string)
  : outcome (RevokeResult * list Credential) :=
  let uuid := replace "urn:uuid:" EmptyString credentialId in
  let issuerDid := "did:ethr:" ++ toLowerCase issuerAddress in
  match findCredential credentials uuid with
  | None => Rejected (NotFound "Credential not found")
  | Some cred =>
      if negb (toLowerCase (c_issuer cred) =? toLowerCase issuerDid)
      then Rejected (BadRequest "Only the issuer can revoke this credential")
      else
        let revokeMessage := "Revoke credential: " ++ credentialId in
        match checkSigner revokeMessage signature issuerAddress with
        | Rejected e => Rejected e
        | Done _ =>
            Done ({| rr_success := true;
                     rr_message := "Credential revoked successfully" |},
                  updateCredential credentials (withStatus cred REVOKED))
        end
  end.

(** [findById] *)
Definition findById (credentials : list Credential) (credentialId : string)
  : outcome VerifiableCredential :=
  let uuid := replace "urn:uuid:" EmptyString credentialId in
  match findCredential credentials uuid with
  | None => Rejected (NotFound "Credential not found")
  | Some cred => Done (toVerifiableCredential encodeURIComponent apiBaseUrl cred)
  end.

(** [order: { createdAt: 'DESC' }]: the rows are kept in the order of
    their insertion, so the newest come first in the reversed table. *)
Definition newestFirst (rows : list Credential) : list Credential :=
  List.rev rows.

(** The comparison [where: { column: text }] makes is the database's, by
    the collation of the column: [collate stored queried].  The service
    lowercases the queried text and nothing else. *)
Variable collate : string -> string -> bool.

(** [findByIssuer] *)
Definition findByIssuer (credentials : list Credential) (issuerDid : string)
  : list VerifiableCredential :=
  List.map (toVerifiableCredential encodeURIComponent apiBaseUrl)
           (newestFirst
              (List.filter
                 (fun c => collate (c_issuer c) (toLowerCase issuerDid))
                 credentials)).

(** [findBySubject] *)
Definition findBySubject (credentials : list Credential) (subjectDid : string)
  : list VerifiableCredential :=
  List.map (toVerifiableCredential encodeURIComponent apiBaseUrl)
           (newestFirst
              (List.filter
                 (fun c => collate (c_subject c) (toLowerCase subjectDid))
                 credentials)).
End Lifecycle.

(** A collation that does not tell the case of letters apart, as the
    default collations of MySQL, the database of the application, do
    not. *)
Definition caseInsensitiveCollation (stored queried : string) : bool :=
  toLowerCase stored =? toLowerCase queried.

(** The message [issue] checks the signature of. *)
Definition issueMessage (JSON_stringify : CredentialPayload -> string)
           (dto : IssueCredentialDto) : string :=
  JSON_stringify
    {| cp_context := VC_CONTEXTS;
       cp_type := "VerifiableCredential" :: dto_type dto;
       cp_issuer := "did:ethr:" ++ toLowerCase (dto_issuerAddress dto);
       cp_issuanceDate := dto_issuanceDate dto;
       cp_expirationDate := dto_expirationDate dto;
       cp_credentialSubject :=
         credentialSubject (dto_subjectDid dto) (dto_claims dto) |}.

(** The row [issue] inserts. *)
Definition issuedRow (id : string) (dto : IssueCredentialDto) : Credential :=
  {| c_id := id;
     c_issuer := "did:ethr:" ++ toLowerCase (dto_issuerAddress dto);
     c_subject := dto_subjectDid dto;
     c_type := "VerifiableCredential" :: dto_type dto;
     c_claims := dto_claims dto;
     c_issuanceDate := dto_issuanceDate dto;
     c_expirationDate := dto_expirationDate dto;
     c_status := ACTIVE;
     c_proof :=
       {| p_type := "EcdsaSecp256k1Signature2019";
          p_created := dto_issuanceDate dto;
          p_verificationMethod :=
            ("did:ethr:" ++ toLowerCase (dto_issuerAddress dto))
              ++ "#controller";
          p_proofPurpose := "assertionMethod";
          p_proofValue := dto_signature dto |} |}.
End CredentialLifecycle.

(** A request to issue and a request to revoke, under the toy scheme of
    [CredentialScenario]. *)
Module LifecycleScenario.
Import Js CredentialService CredentialLifecycle CredentialScenario.

Definition degreeDto : IssueCredentialDto :=
  {| dto_issuerAddress := "0xAA";
     dto_subjectDid := "did:ethr:0xCC";
     dto_type := ["UniversityDegreeCredential"];
     dto_claims := [("degree", "BSc")];
     dto_issuanceDate := at1500;
     dto_expirationDate := Some at2500;
     dto_signature := "0xaa" |}.

Definition toyIssue :=
  issue toyStringify toyVerifyMessage toyEncode "http://localhost:3001".
Definition toyFindById := findById toyEncode "http://localhost:3001".
Definition toyFindByIssuer :=
  findByIssuer toyEncode "http://localhost:3001" caseInsensitiveCollation.
Definition toyFindBySubject :=
  findBySubject toyEncode "http://localhost:3001" caseInsensitiveCollation.
Definition toyGetStatus := getStatus toyDateOf toyEncode "http://localhost:3001".
Definition toyRevoke := revoke toyVerifyMessage.

(** The table after [degreeDto] was issued under the uuid [c7]. *)
Definition degreeTable : list Credential := [issuedRow "c7" degreeDto].

(** A DID service over empty tables. *)
Definition service : DidServiceApi :=
  didServiceOf (mkDb [] [] [] [])
               (Scenario.providerOfChain Scenario.sparseChain).
End LifecycleScenario.

(* ================================================================== *)
(** ** [DidService]: the delegate and attribute listings *)
(* ================================================================== *)

(** [getDelegates] and [getAttributes] of did.service.ts.  A listed entry
    hands through the [createdAt] of its row, a column no code reads and
    the rows of this embedding do not carry. *)
Module DidListings.
Import Js DidService.

Record DelegateView := mkDelegateView {
  dv_id : option Z;
  dv_type : string;
  dv_address : string;
  dv_validTo : Z;
  dv_isValid : bool
}.

Record AttributeView := mkAttributeView {
  av_id : option Z;
  av_name : string;
  av_value : string;
  av_validTo : Z;
  av_isValid : bool
}.

(** [identity?.delegates || []] after [findOne] with the relation. *)
Definition loadedDelegates (db : Db) (address : string) : list Delegate :=
  match findIdentity db address with
  | Some _ => delegatesOf db address
  | None => []
  end.

Definition loadedAttributes (db : Db) (address : string) : list Attribute :=
  match findIdentity db address with
  | Some _ => attributesOf db address
  | None => []
  end.

(** [getDelegates] *)
Definition getDelegates (db : Db) (nowMs : Z) (did : string)
  : string * list DelegateView :=
  let address := extractAddress did in
  let now := (nowMs / 1000)%Z in
  ("did:ethr:" ++ address,
   List.map (fun d => {| dv_id := d_id d;
                         dv_type := d_delegateType d;
                         dv_address := d_delegateAddress d;
                         dv_validTo := d_validTo d;
                         dv_isValid := (now <? d_validTo d)%Z |})
            (loadedDelegates db address)).

(** [getAttributes] *)
Definition getAttributes (db : Db) (nowMs : Z) (did : string)
  : string * list AttributeView :=
  let address := extractAddress did in
  let now := (nowMs / 1000)%Z in
  ("did:ethr:" ++ address,
   List.map (fun a => {| av_id := a_id a;
                         av_name := a_name a;
                         av_value := a_value a;
                         av_validTo := a_validTo a;
                         av_isValid := (now <? a_validTo a)%Z |})
            (loadedAttributes db address)).

Definition countTrue {A : Type} (f : A -> bool) (l : list A) : nat :=
  List.length (List.filter f l).

(** The references of a document under construction stay inside the
    verification methods listed so far. *)
Definition refersInside (b : Building) : Prop :=
  forall id, In id (authentication b) \/ In id (assertionMethod b) ->
             In id (List.map vm_id (verificationMethod b)).
End DidListings.

(* ================================================================== *)
(** ** [BlockchainService]: listening and catching up *)
(* ================================================================== *)

(** [startListening], [stopListening] and [syncFromBlock] of
    blockchain.service.ts.  The contract object is the list of the event
    names it has a listener for; what the node answers to
    [getBlockNumber] and to the three [queryFilter] calls is an argument. *)
Module Listening.
Import Js BlockchainService.

Record Listener := mkListener {
  isListening : bool;
  listeners : list string
}.

(** [startListening]; [blockNumber] is the answer of [getBlockNumber],
    which the [try] guards. *)
Definition startListening (s : Listener) (blockNumber : result Z) : Listener :=
  if isListening s then s
  else match blockNumber with
       | Throw _ => s
       | Ok _ =>
           mkListener true
                      (push (push (push (listeners s) "DIDOwnerChanged")
                                  "DIDDelegateChanged")
                            "DIDAttributeChanged")
       end.

(** [stopListening] *)
Definition stopListening (s : Listener) : Listener :=
  if negb (isListening s) then s
  else mkListener false [].

(** An entry of a [queryFilter] answer: an [EventLog] with its decoded
    arguments, or a bare [Log], which [isEventLog] turns away. *)
Inductive Queried (A : Type) : Type :=
| IsEventLog (args : A) (log : Log)
| BareLog (log : Log).
Arguments IsEventLog {A} args log.
Arguments BareLog {A} log.

(** [isEventLog]: ['args' in event]. *)
Definition isEventLog {A : Type} (q : Queried A) : bool :=
  match q with
  | IsEventLog _ _ => true
  | BareLog _ => false
  end.

Definition logOfQueried {A : Type} (q : Queried A) : Log :=
  match q with
  | IsEventLog _ log => log
  | BareLog log => log
  end.

(** What an event row keeps of the queried entry it was written for:
    the name of the query, the transaction hash and the block number. *)
Definition rowOfQueried {A : Type} (name : string) (q : Queried A)
  : string * string * Z :=
  (name, l_transactionHash (logOfQueried q), l_blockNumber (logOfQueried q)).

Definition rowKey (e : Event) : string * string * Z :=
  (eventName e, e_transactionHash e, e_blockNumber e).

Record QueryAnswer := mkQueryAnswer {
  ownerEvents : list (Queried (string * string * Z));
  delegateEvents : list (Queried (string * string * string * Z * Z));
  attributeEvents : list (Queried (string * string * string * Z * Z))
}.

Section Sync.
Variable decodeBytes32String : string -> result string.
Variable toUtf8String : string -> result string.
Variable hexlify : string -> string.

(** The deliveries the three loops of [syncFromBlock] make, in the order
    they make them: every owner change, then every delegate change, then
    every attribute change. *)
Definition ownerDelivery (q : Queried (string * string * Z))
  : list LedgerEvent :=
  match q with
  | IsEventLog (i, o, pc) log => [DIDOwnerChanged i o pc log]
  | BareLog _ => []
  end.

Definition delegateDelivery (q : Queried (string * string * string * Z * Z))
  : list LedgerEvent :=
  match q with
  | IsEventLog (i, t, d, v, pc) log => [DIDDelegateChanged i t d v pc log]
  | BareLog _ => []
  end.

Definition attributeDelivery (q : Queried (string * string * string * Z * Z))
  : list LedgerEvent :=
  match q with
  | IsEventLog (i, n, x, v, pc) log => [DIDAttributeChanged i n x v pc log]
  | BareLog _ => []
  end.

Definition deliveries (answer : QueryAnswer) : list LedgerEvent :=
  (List.flat_map ownerDelivery (ownerEvents answer)
   ++ List.flat_map delegateDelivery (delegateEvents answer)
   ++ List.flat_map attributeDelivery (attributeEvents answer))%list.

(** [syncFromBlock]; a rejected call to the node is caught and logged,
    and leaves the tables as they are. *)
Definition syncFromBlock (db : Db) (answer : result QueryAnswer) : Db :=
  match answer with
  | Throw _ => db
  | Ok a =>
      let db1 :=
        List.fold_left
          (fun db q =>
             match q with
             | IsEventLog (i, o, pc) log => handleOwnerChanged db i o pc log
             | BareLog _ => db
             end)
          (ownerEvents a) db in
      let db2 :=
        List.fold_left
          (fun db q =>
             match q with
             | IsEventLog (i, t, d, v, pc) log =>
                 handleDelegateChanged decodeBytes32String db i t d v pc log
             | BareLog _ => db
             end)
          (delegateEvents a) db1 in
      List.fold_left
        (fun db q =>
           match q with
           | IsEventLog (i, n, x, v, pc) log =>
               handleAttributeChanged decodeBytes32String toUtf8String hexlify
                                      db i n x v pc log
           | BareLog _ => db
           end)
        (attributeEvents a) db2
  end.
End Sync.
End Listening.

(* ================================================================== *)
(** ** Well-formed tables *)
(* ================================================================== *)

(** What the tables the handlers write always satisfy: generated ids are
    distinct and below the next id, addresses of identities are distinct
    and lowercase, and every delegate and attribute row belongs to an
    identity row. *)
Module Tables.
Import Js BlockchainService.

Definition ownedBy (db : Db) (o : option string) : Prop :=
  exists a, o = Some a /\ In a (List.map i_address (identities db)).

Record wellFormed (db : Db) : Prop := mkWellFormed {
  wf_event_ids : NoDup (List.map e_id (events db));
  wf_event_ids_grow :
    StronglySorted Z.lt (List.map e_id (events db));
  wf_delegate_ids : NoDup (List.map d_id (delegates db));
  wf_attribute_ids : NoDup (List.map a_id (attributes db));
  wf_rows_have_ids : rowsHaveIds db;
  wf_addresses : NoDup (List.map i_address (identities db));
  wf_lowercase :
    Forall (fun i => toLowerCase (i_address i) = i_address i) (identities db);
  wf_delegate_owner : Forall (fun d => ownedBy db (d_identity d)) (delegates db);
  wf_attribute_owner :
    Forall (fun a => ownedBy db (a_identity a)) (attributes db)
}.
End Tables.

(** The times of the blocks of [Scenario.sparseChain], block by block. *)
Module TimeScenario.
Definition sparseTimes (i : Z) : Z := (1000 * (i + 1))%Z.
End TimeScenario.

(** Calls to the listening service, one after the other. *)
Module ListeningRuns.
Import Js Listening.

Inductive Call :=
| Start (blockNumber : result Z)
| Stop.

Definition call (s : Listener) (c : Call) : Listener :=
  match c with
  | Start blockNumber => startListening s blockNumber
  | Stop => stopListening s
  end.

(** The service as constructed: not listening, no listener registered. *)
Definition initial : Listener := mkListener false [].

Definition allThree : list string :=
  ["DIDOwnerChanged"; "DIDDelegateChanged"; "DIDAttributeChanged"].
End ListeningRuns.

(* ================================================================== *)
(** ** The current tables against the replay of the log *)
(* ================================================================== *)

(** [resolve], [getOwner] and [getDelegates] read the identity, delegate
    and attribute tables the handlers keep up to date; [resolveAtBlock] and
    [getOwnerAtBlock] replay the event table.  The definitions below name
    what the two are compared by. *)
Module Agreement.
Import Js DidService BlockchainService.

Definition logOf (ev : LedgerEvent) : Log :=
  match ev with
  | DIDOwnerChanged _ _ _ log => log
  | DIDDelegateChanged _ _ _ _ _ log => log
  | DIDAttributeChanged _ _ _ _ _ log => log
  end.

Definition blockOf (ev : LedgerEvent) : Z := l_blockNumber (logOf ev).


(** The event name a delivery comes under. *)
Definition nameOf (ev : LedgerEvent) : string :=
  match ev with
  | DIDOwnerChanged _ _ _ _ => "DIDOwnerChanged"
  | DIDDelegateChanged _ _ _ _ _ _ => "DIDDelegateChanged"
  | DIDAttributeChanged _ _ _ _ _ _ => "DIDAttributeChanged"
  end.













End Agreement.


(** A catch-up for identity [0xAA], whose ownership went to [0xB1] in
    block 3 after a delegate was granted in block 2 until time 2000. *)
Module AgreementScenario.
Import Js BlockchainService.

(** What the three queries of a catch-up answer for the same chain, the
    owner change of block 3 coming before the delegate change of block 2,
    with a log that carries no decoded event. *)
Definition catchUp : Listening.QueryAnswer :=
  Listening.mkQueryAnswer
    [ Listening.IsEventLog ("0xAA", "0xB1", 1%Z) (mkLog "0xt2" 3) ]
    [ Listening.BareLog (mkLog "0xt0" 1);
      Listening.IsEventLog ("0xAA", "sigAuth", "0xDD", 2000%Z, 0%Z)
                           (mkLog "0xt1" 2) ]
    [].
End AgreementScenario.


(* ================================================================== *)
(** ** The clients of the backend *)
(* ================================================================== *)

(** [examples/common/config.ts]: the DID helpers of the example
    scripts. *)
Module ExamplesConfig.
Import Js.

(** [addressToDid] *)
Definition addressToDid (address : string) : string :=
  "did:ethr:" ++ toLowerCase address.

(** [didToAddress]: [parts[parts.length - 1].toLowerCase()], a
    [TypeError] were the element undefined. *)
Definition didToAddress (did : string) : result string :=
  let parts := split ":" did in
  match lastOf parts with
  | Some part => Ok (toLowerCase part)
  | None => Throw "TypeError: Cannot read properties of undefined"
  end.
End ExamplesConfig.

(** [frontend/lib/credential-api.ts] and the issuing and revoking
    handlers of [frontend/components/DelegateManager.tsx]: what the wallet is
    asked to sign and what is then sent to the backend. *)
Module Frontend.
Import Js CredentialService CredentialLifecycle.

Definition VC_CONTEXTS : list string :=
  [ "https://www.w3.org/2018/credentials/v1";
    "https://w3id.org/security/suites/secp256k1-2019/v1" ].

Record MessageParams := mkMessageParams {
  mp_issuerDid : string;
  mp_subjectDid : string;
  mp_type : list string;
  mp_claims : list (string * string);
  mp_issuanceDate : string;
  mp_expirationDate : option string
}.

(** [createCredentialMessage] *)
Definition createCredentialMessage
           (JSON_stringify : CredentialPayload -> string)
           (params : MessageParams) : string :=
  let credentialPayload :=
    {| cp_context := VC_CONTEXTS;
       cp_type := "VerifiableCredential" :: mp_type params;
       cp_issuer := mp_issuerDid params;
       cp_issuanceDate := mp_issuanceDate params;
       cp_expirationDate := mp_expirationDate params;
       cp_credentialSubject :=
         credentialSubject (mp_subjectDid params) (mp_claims params) |} in
  JSON_stringify credentialPayload.

(** [const myDid = address ? `did:ethr:${address.toLowerCase()}` : ""],
    for the account of the connected wallet, if any. *)
Definition myDid (address : option string) : string :=
  match address with
  | Some a => if truthy a then "did:ethr:" ++ toLowerCase a else EmptyString
  | None => EmptyString
  end.

(** The fields of the issuing form, with the two dates [handleIssue]
    takes from the clock. *)
Record IssueForm := mkIssueForm {
  f_subjectDid : string;
  f_credentialType : string;
  f_claims : list (string * string);
  f_issuanceDate : string;
  f_expirationDate : option string
}.

(** [handleIssue] up to the signing: nothing when there is no account, the
    subject is no address ([isAddress] of viem) or no claim was entered;
    otherwise the message to sign and, for the signature obtained, the
    request sent to [POST /api/credentials/issue]. *)
Definition handleIssue (JSON_stringify : CredentialPayload -> string)
           (isAddress : string -> bool)
           (address : option string) (form : IssueForm)
  : option (string * (string -> IssueCredentialDto)) :=
  match address with
  | None => None
  | Some a =>
      if negb (truthy a) then None
      else
        match lastOf (split ":" (f_subjectDid form)) with
        | None => None
        | Some subjectAddress =>
            if negb (truthy subjectAddress) || negb (isAddress subjectAddress)
            then None
            else if (List.length (f_claims form) =? 0)%nat then None
            else
              let message :=
                createCredentialMessage JSON_stringify
                  {| mp_issuerDid := myDid address;
                     mp_subjectDid := f_subjectDid form;
                     mp_type := [f_credentialType form];
                     mp_claims := f_claims form;
                     mp_issuanceDate := f_issuanceDate form;
                     mp_expirationDate := f_expirationDate form |} in
              Some (message,
                    fun signature =>
                      {| dto_issuerAddress := a;
                         dto_subjectDid := f_subjectDid form;
                         dto_type := [f_credentialType form];
                         dto_claims := f_claims form;
                         dto_issuanceDate := f_issuanceDate form;
                         dto_expirationDate := f_expirationDate form;
                         dto_signature := signature |})
        end
  end.

(** [handleRevoke] up to the signing: the message to sign and the
    arguments of [credentialApi.revoke] but the signature. *)
Definition handleRevoke (address : option string) (credentialId : string)
  : option (string * (string * string)) :=
  match address with
  | None => None
  | Some a =>
      if negb (truthy a) then None
      else Some ("Revoke credential: " ++ credentialId, (credentialId, a))
  end.
End Frontend.

(** A form filled in by the holder of [0xAA]. *)
Module FrontendScenario.
Import Js CredentialService CredentialLifecycle Frontend.

Definition degreeForm : IssueForm :=
  {| f_subjectDid := "did:ethr:0xcc";
     f_credentialType := "UniversityDegreeCredential";
     f_claims := [("degree", "BSc")];
     f_issuanceDate := CredentialScenario.at1500;
     f_expirationDate := Some CredentialScenario.at2500 |}.

Definition toyIsAddress (s : string) : bool := String.prefix "0x" s.
End FrontendScenario.


(* ================================================================== *)
(** * Properties of the JavaScript primitives *)
(* ================================================================== *)

Section JsFacts.
Import Js.

Lemma lowerChar_idem (c : ascii) : lowerChar (lowerChar c) = lowerChar c.
Proof.
  destruct c as [[] [] [] [] [] [] [] []]; reflexivity.
Qed.

Lemma lowerChar_colon (c : ascii) :
  Ascii.eqb (lowerChar c) ":" = Ascii.eqb c ":".
Proof.
  destruct c as [[] [] [] [] [] [] [] []]; reflexivity.
Qed.

Lemma toLowerCase_idem (s : string) :
  toLowerCase (toLowerCase s) = toLowerCase s.
Proof.
  induction s as [|c r IH]; simpl; [reflexivity|].
  now rewrite lowerChar_idem, IH.
Qed.

Lemma toLowerCase_app (s t : string) :
  toLowerCase (s ++ t) = toLowerCase s ++ toLowerCase t.
Proof.
  induction s as [|c r IH]; simpl; [reflexivity|now rewrite IH].
Qed.

Lemma split_not_nil (sep : ascii) (s : string) : split sep s <> [].
Proof.
  destruct s as [|c r]; simpl; [discriminate|].
  destruct (Ascii.eqb c sep); [discriminate|].
  destruct (split sep r); discriminate.
Qed.

Lemma split_single (sep : ascii) (s : string) :
  (List.length (split sep s) <= 1)%nat -> split sep s = [s].
Proof.
  induction s as [|c r IH]; simpl; [reflexivity|].
  destruct (Ascii.eqb c sep).
  - pose proof (split_not_nil sep r) as Hn.
    destruct (split sep r); [contradiction|simpl; lia].
  - destruct (split sep r) as [|p ps] eqn:E.
    + now destruct (split_not_nil sep r).
    + simpl. intros Hl. destruct ps; [|simpl in Hl; lia].
      specialize (IH (le_n 1)). now inversion IH.
Qed.

Lemma split_app_sep (sep : ascii) (s t : string) :
  split sep (s ++ String sep t) = (split sep s ++ split sep t)%list.
Proof.
  induction s as [|c r IH]; simpl.
  - now rewrite Ascii.eqb_refl.
  - destruct (Ascii.eqb c sep); [now rewrite IH|].
    rewrite IH.
    pose proof (split_not_nil sep r) as Hn.
    destruct (split sep r); [contradiction|reflexivity].
Qed.

Lemma split_toLowerCase (s : string) :
  split ":" (toLowerCase s) = List.map toLowerCase (split ":" s).
Proof.
  induction s as [|c r IH]; simpl; [reflexivity|].
  rewrite lowerChar_colon.
  destruct (Ascii.eqb c ":"); simpl; rewrite IH; [reflexivity|].
  destruct (split ":" r); reflexivity.
Qed.

Lemma lastOf_last (parts : list string) :
  parts <> [] -> lastOf parts = Some (List.last parts EmptyString).
Proof.
  unfold lastOf.
  induction parts as [|p ps IH]; [contradiction|intros _].
  destruct ps as [|q qs]; [reflexivity|].
  specialize (IH ltac:(discriminate)).
  simpl in *. rewrite Nat.sub_0_r in *. exact IH.
Qed.

Lemma last_map_lower (parts : list string) :
  List.last (List.map toLowerCase parts) EmptyString
  = toLowerCase (List.last parts EmptyString).
Proof.
  induction parts as [|p ps IH]; [reflexivity|].
  destruct ps; [reflexivity|exact IH].
Qed.

Lemma last_app_not_nil {A : Type} (l1 l2 : list A) (d : A) :
  l2 <> [] -> List.last (l1 ++ l2)%list d = List.last l2 d.
Proof.
  intros Hn. induction l1 as [|x l1 IH]; [reflexivity|].
  simpl. destruct (l1 ++ l2)%list eqn:E; [|exact IH].
  destruct l1; simpl in E; [contradiction|discriminate].
Qed.
End JsFacts.

(* ================================================================== *)
(** * Identifier normalisation *)
(* ================================================================== *)

Section Normalisation.
Import Js DidService.

(** [extractAddress] is the lowercased last segment, whether or not the
    identifier has a [:]. *)
Lemma extractAddress_last (did : string) :
  extractAddress did = toLowerCase (List.last (split ":" did) EmptyString).
Proof.
  unfold extractAddress.
  destruct (1 <? List.length (split ":" did))%nat eqn:E.
  - now rewrite (lastOf_last _ (split_not_nil _ _)).
  - apply Nat.ltb_ge in E. now rewrite (split_single _ _ E).
Qed.

(** It reads its argument only through its lowercase form. *)
Lemma extractAddress_lower (did : string) :
  extractAddress did
  = List.last (split ":" (toLowerCase did)) EmptyString.
Proof.
  now rewrite extractAddress_last, split_toLowerCase, last_map_lower.
Qed.

Lemma extractAddress_prefixed (address : string) :
  List.last (split ":" ("did:ethr:" ++ address)) EmptyString
  = List.last (split ":" address) EmptyString.
Proof.
  change ("did:ethr:" ++ address) with ("did:ethr" ++ String ":" address).
  rewrite split_app_sep.
  apply last_app_not_nil, split_not_nil.
Qed.

Lemma extractAddress_writes (address did : string) :
  writesAddress address did -> extractAddress did = extractAddress address.
Proof.
  intros [H|H]; rewrite (extractAddress_lower did), H.
  - now rewrite <- extractAddress_lower.
  - now rewrite extractAddress_prefixed, <- extractAddress_lower.
Qed.

Lemma extractAddress_idem (did : string) :
  toLowerCase (extractAddress did) = extractAddress did.
Proof.
  rewrite extractAddress_last. apply toLowerCase_idem.
Qed.
End Normalisation.

(* ================================================================== *)
(** * Resolution of identifiers *)
(* ================================================================== *)

Section Resolution.
Import Js DidService Methods.

(** C10.  The resolution and verification operations read the identifier
    only through [extractAddress], the lowercased last [:]-separated
    segment: [resolve], [getOwner], [getOwnerAtBlock] and
    [wasValidSignerAtBlock] answer the same for the DID with the
    [did:ethr:] prefix and for the bare address, in any letter case. *)
Theorem normalised_identifier (address d1 d2 : string) :
  writesAddress address d1 ->
  writesAddress address d2 ->
  extractAddress d1
  = toLowerCase (List.last (split ":" address) EmptyString)
  /\ forall (db : Db) (p : Provider) (nowMs : Z) (signer : string)
            (blockNumber : Z),
      resolve db nowMs d1 = resolve db nowMs d2
      /\ getOwner db d1 = getOwner db d2
      /\ getOwnerAtBlock db d1 blockNumber = getOwnerAtBlock db d2 blockNumber
      /\ wasValidSignerAtBlock db p d1 signer blockNumber
         = wasValidSignerAtBlock db p d2 signer blockNumber.
Proof.
  intros H1 H2.
  apply extractAddress_writes in H1, H2.
  split; [rewrite H1; apply extractAddress_last|].
  intros db p nowMs signer blockNumber.
  unfold wasValidSignerAtBlock, getOwnerAtBlock, getOwner, resolve.
  rewrite H1, H2. repeat split; reflexivity.
Qed.

Lemma normalised_identifier_witness :
  writesAddress "0xAbCdEf01" "DID:ethr:0xABCDEF01"
  /\ writesAddress "0xAbCdEf01" "0xabcdef01"
  /\ extractAddress "DID:ethr:0xABCDEF01" = "0xabcdef01".
Proof.
  assert (Ha : writesAddress "0xAbCdEf01" "DID:ethr:0xABCDEF01")
    by (right; reflexivity).
  assert (Hb : writesAddress "0xAbCdEf01" "0xabcdef01")
    by (left; reflexivity).
  split; [exact Ha|split; [exact Hb|]].
  exact (proj1 (normalised_identifier _ _ _ Ha Hb)).
Defined.

(** C8.  For an identifier with no stored identity row, [resolve] returns
    (it has no failing path) the minimal self-owned document: one
    verification method, the controller method, whose controller is the
    DID of the identity itself. *)
Theorem resolve_unknown_identity (db : Db) (nowMs : Z) (did : string) :
  findIdentity db (extractAddress did) = None ->
  resolve db nowMs did = minimalDocument (extractAddress did)
  /\ List.length (doc_verificationMethod (resolve db nowMs did)) = 1%nat
  /\ List.map vm_controller (doc_verificationMethod (resolve db nowMs did))
     = [doc_id (resolve db nowMs did)].
Proof.
  intros H. unfold resolve. rewrite H. repeat split.
Qed.

Lemma resolve_unknown_identity_witness :
  findIdentity (mkDb [] [] [] []) (extractAddress "did:ethr:0xAB12") = None
  /\ resolve (mkDb [] [] [] []) 1700000000000 "did:ethr:0xAB12"
     = minimalDocument "0xab12".
Proof.
  split; [reflexivity|].
  exact (proj1 (resolve_unknown_identity (mkDb [] [] [] []) 1700000000000
                                         "did:ethr:0xAB12" eq_refl)).
Defined.
End Resolution.

(* ================================================================== *)
(** * The result of [verify] *)
(* ================================================================== *)

Section VerifyShape.
Import Js CredentialService.

Variable JSON_stringify : CredentialPayload -> string.
Variable verifyMessage : string -> string -> result string.
Variable dateOf : string -> Z.
Variable encodeURIComponent : string -> string.
Variable apiBaseUrl : string.

Let verify' := verify JSON_stringify verifyMessage dateOf encodeURIComponent
                      apiBaseUrl.

(** C7.  [verify] always answers with a result that carries the four
    checks, and its [valid] flag is their conjunction; for an unknown
    credential the result is the all-false breakdown with the error
    text. *)
Theorem verify_valid_is_conjunction (api : DidServiceApi)
        (credentials : list Credential) (nowMs : Z) (credentialId : string) :
  let r := fst (verify' api credentials nowMs credentialId) in
  valid r = signature (checks r) && signerValidAtIssuance (checks r)
            && notExpired (checks r) && notRevoked (checks r)
  /\ match findCredential credentials (replace "urn:uuid:" EmptyString credentialId) with
     | None =>
         r = {| valid := false;
                checks := mkChecks false false false false;
                credential := None;
                error := Some "Credential not found";
                details := None |}
     | Some cred =>
         error r = None
         /\ notRevoked (checks r) = statusEq (c_status cred) ACTIVE
     end.
Proof.
  unfold verify', verify.
  destruct (findCredential credentials _) as [cred|]; [|split; reflexivity].
  destruct (checkSignature _ _ cred) as [sigOk recovered].
  destruct (checkSignerAtIssuance _ _ _ _ _) as [[signerOk ownerAt] log].
  repeat split.
Qed.
End VerifyShape.

(* ================================================================== *)
(** * The Block-Time Index *)
(* ================================================================== *)

Section SearchRounds.
Import Js DidService.

(** The loop has ended when the rounds run out: one more round changes
    nothing, so [getBlockByTimestamp] returns what the [while] loop
    leaves in [low]. *)
Lemma searchBlock_more_rounds (p : Provider) (targetTime : Z) (rounds : nat) :
  forall low high,
    (Z.to_nat (high - low) <= rounds)%nat ->
    searchBlock p targetTime (S rounds) low high
    = searchBlock p targetTime rounds low high.
Proof.
  induction rounds as [|n IH]; intros low high Hfuel.
  - simpl. replace (low <? high)%Z with false; [reflexivity|].
    symmetry. apply Z.ltb_ge. lia.
  - change (searchBlock p targetTime (S (S n)) low high)
      with (if (low <? high)%Z then
              match getBlock p ((low + high) / 2) with
              | None => searchBlock p targetTime (S n) low ((low + high) / 2)
              | Some block =>
                  if (b_timestamp block <? targetTime)%Z
                  then searchBlock p targetTime (S n) ((low + high) / 2 + 1) high
                  else searchBlock p targetTime (S n) low ((low + high) / 2)
              end
            else low).
    change (searchBlock p targetTime (S n) low high)
      with (if (low <? high)%Z then
              match getBlock p ((low + high) / 2) with
              | None => searchBlock p targetTime n low ((low + high) / 2)
              | Some block =>
                  if (b_timestamp block <? targetTime)%Z
                  then searchBlock p targetTime n ((low + high) / 2 + 1) high
                  else searchBlock p targetTime n low ((low + high) / 2)
              end
            else low).
    destruct (low <? high)%Z eqn:Hlt; [|reflexivity].
    apply Z.ltb_lt in Hlt.
    assert (Hmid : (low <= (low + high) / 2 < high)%Z).
    { split; [apply Z.div_le_lower_bound|apply Z.div_lt_upper_bound]; lia. }
    destruct (getBlock p ((low + high) / 2)) as [block|].
    + destruct (b_timestamp block <? targetTime)%Z; apply IH; lia.
    + apply IH; lia.
Qed.

Lemma searchBlock_rounds_enough (p : Provider) (targetTime : Z) (low high : Z)
      (extra : nat) :
  searchBlock p targetTime (Z.to_nat (high - low) + extra) low high
  = searchBlock p targetTime (Z.to_nat (high - low)) low high.
Proof.
  induction extra as [|k IH]; [now rewrite Nat.add_0_r|].
  rewrite Nat.add_succ_r, searchBlock_more_rounds by lia. exact IH.
Qed.
End SearchRounds.

Section BlockTimeIndex.
Import Js DidService.

Variable p : Provider.
Variable head : Z.
Variable ts : Z -> Z.
Variable targetTime : Z.

(** Every block up to the head is served, and block times do not
    decrease. *)
Hypothesis served :
  forall i, (0 <= i <= head)%Z -> getBlock p i = Some (mkBlock i (ts i)).
Hypothesis monotone :
  forall i j, (0 <= i <= j)%Z -> (j <= head)%Z -> (ts i <= ts j)%Z.

Lemma searchBlock_invariant (rounds : nat) :
  forall low high,
    (0 <= low)%Z -> (high <= head)%Z ->
    (Z.to_nat (high - low) <= rounds)%nat ->
    (forall j, (0 <= j < low)%Z -> (ts j < targetTime)%Z) ->
    (forall j, (high <= j < head)%Z -> (targetTime <= ts j)%Z) ->
    let r := searchBlock p targetTime rounds low high in
    (low <= r <= Z.max low high)%Z
    /\ (forall j, (0 <= j < r)%Z -> (ts j < targetTime)%Z)
    /\ ((r < head)%Z -> (targetTime <= ts r)%Z).
Proof.
  induction rounds as [|n IH]; intros low high Hlow Hhigh Hfuel Hbelow Habove.
  - simpl. repeat split; try lia; auto; intros; apply Habove; lia.
  - simpl. destruct (low <? high)%Z eqn:Hlt.
    + apply Z.ltb_lt in Hlt.
      assert (Hmid : (low <= (low + high) / 2 < high)%Z).
      { split; [apply Z.div_le_lower_bound|apply Z.div_lt_upper_bound]; lia. }
      rewrite served by lia. cbn [b_timestamp].
      destruct (ts ((low + high) / 2) <? targetTime)%Z eqn:Hcmp.
      * apply Z.ltb_lt in Hcmp.
        destruct (IH ((low + high) / 2 + 1)%Z high) as (Hr & Hb & Ha);
          try lia; auto.
        { intros j Hj.
          assert (ts j <= ts ((low + high) / 2))%Z by (apply monotone; lia).
          lia. }
        repeat split; try lia; auto.
      * apply Z.ltb_ge in Hcmp.
        destruct (IH low ((low + high) / 2)%Z) as (Hr & Hb & Ha);
          try lia; auto.
        { intros j Hj.
          assert (ts ((low + high) / 2) <= ts j)%Z by (apply monotone; lia).
          lia. }
        repeat split; try lia; auto.
    + apply Z.ltb_ge in Hlt.
      repeat split; try lia; auto; intros; apply Habove; lia.
Qed.

(** What the search computes on such a chain: the first block whose time
    is at or after the target, and the head when there is none. *)
Lemma searchBlock_first_at_or_after :
  (0 <= head)%Z ->
  let r := searchBlock p targetTime (Z.to_nat (head - 0)) 0 head in
  (0 <= r <= head)%Z
  /\ (forall j, (0 <= j < r)%Z -> (ts j < targetTime)%Z)
  /\ ((r < head)%Z -> (targetTime <= ts r)%Z).
Proof.
  intros Hhead.
  destruct (searchBlock_invariant (Z.to_nat (head - 0)) 0 head)
    as (Hr & Hb & Ha); try lia.
  repeat split; try lia; auto.
Qed.

(** A target at or before the time of block 0 resolves to block 0, and
    one after the time of the head resolves to the head. *)
Lemma searchBlock_ends :
  (0 <= head)%Z ->
  let r := searchBlock p targetTime (Z.to_nat (head - 0)) 0 head in
  ((targetTime <= ts 0)%Z -> r = 0%Z)
  /\ ((ts head < targetTime)%Z -> r = head).
Proof.
  intros Hhead r.
  destruct (searchBlock_first_at_or_after Hhead) as (Hr & Hb & Ha).
  fold r in Hr, Hb, Ha. split; intros H.
  - destruct (Z.eq_dec r 0) as [|Hn]; [assumption|].
    specialize (Hb 0%Z ltac:(lia)). lia.
  - destruct (Z.eq_dec r head) as [|Hn]; [assumption|].
    specialize (Ha ltac:(lia)).
    assert (ts r <= ts head)%Z by (apply monotone; lia). lia.
Qed.
End BlockTimeIndex.

Section BlockTimeIndexAtInput.
Import Js DidService Methods Scenario.

(** C4, evaluated.  On blocks at times 1000, 2000 and 3000 the index
    resolves time 1100 (and time 1500 alike) to block 1, whose time is
    2000, and not to block 0, which is both the position at or before that
    time and the block closest to it; resolved at time 1100, the owner is
    then the one set in block 1, at time 2000, not the owner block 0
    set. *)
Theorem getBlockByTimestamp_after_target :
  getBlockByTimestamp (providerOfChain sparseChain) 1100000 = Ok 1%Z
  /\ getBlockByTimestamp (providerOfChain sparseChain) 1500000 = Ok 1%Z
  /\ getBlock (providerOfChain sparseChain) 1 = Some (mkBlock 1 2000)
  /\ getBlock (providerOfChain sparseChain) 0 = Some (mkBlock 0 1000)
  /\ getOwnerAtTime twoOwnersDb (providerOfChain sparseChain) "did:ethr:0xAA"
                    1100000 = Ok "0xb2"
  /\ getOwnerAtBlock twoOwnersDb "did:ethr:0xAA" 0 = "0xa1".
Proof.
  repeat split; vm_compute; reflexivity.
Qed.

(** C3, evaluated.  The delegate granted in block 5 (time 1000) until time
    2000 is in the reconstructed state at block 5 and is valid at that
    block's time, yet the document resolved at block 5 lists only the
    controller method once the wall clock has passed 2000; with the wall
    clock at 1500 the same call lists the delegate. *)
Theorem resolveAtBlock_filters_by_wall_clock :
  hs_delegates (reconstructStateFromEvents
                  "0xaa" (identityEvents delegateDb "0xaa" 5) 5)
  = [delegateRow]
  /\ getBlock (providerOfChain denseChain) 5 = Some (mkBlock 5 1000)
  /\ TemporalSpec.validAt 1000 (d_validTo delegateRow) = true
  /\ doc_verificationMethod (resolveAtBlock delegateDb 3000000 "did:ethr:0xAA" 5)
     = doc_verificationMethod (minimalDocument "0xaa")
  /\ List.length (doc_verificationMethod
                    (resolveAtBlock delegateDb 1500000 "did:ethr:0xAA" 5))
     = 2%nat.
Proof.
  repeat split; vm_compute; reflexivity.
Qed.
End BlockTimeIndexAtInput.

(* ================================================================== *)
(** * The DID Document builder *)
(* ================================================================== *)

Section Builder.
Import Js DidService Methods Scenario.

Lemma mapFrom_app {A B : Type} (f : A -> nat -> B) (l1 l2 : list A) (i : nat) :
  mapFrom f i (l1 ++ l2)%list
  = (mapFrom f i l1 ++ mapFrom f (i + List.length l1) l2)%list.
Proof.
  revert i. induction l1 as [|x l1 IH]; intros i; simpl.
  - now rewrite Nat.add_0_r.
  - rewrite IH. do 3 f_equal. lia.
Qed.

Lemma map_mapFrom {A B C : Type} (g : B -> C) (f : A -> nat -> B)
      (l : list A) (i : nat) :
  List.map g (mapFrom f i l) = mapFrom (fun x n => g (f x n)) i l.
Proof.
  revert i. induction l as [|x l IH]; intros i; simpl; [reflexivity|].
  now rewrite IH.
Qed.

(** The loop over the delegates appends their methods in order. *)
Lemma forEach_addDelegate (did : string) (l : list Delegate) :
  forall (i : nat) (b : Building),
    verificationMethod (forEachFrom (addDelegate did) i l b)
    = (verificationMethod b ++ mapFrom (delegateMethod did) i l)%list.
Proof.
  induction l as [|d l IH]; intros i b; simpl.
  - now rewrite app_nil_r.
  - rewrite IH. unfold addDelegate, push. cbn [verificationMethod].
    now rewrite <- app_assoc.
Qed.

(** So does the loop over the public-key attributes. *)
Lemma forEach_addKey (did : string) (l : list Attribute) :
  forall (i : nat) (b : Building),
    verificationMethod (forEachFrom (addKey did) i l b)
    = (verificationMethod b ++ mapFrom (keyMethod did) i l)%list.
Proof.
  induction l as [|a l IH]; intros i b; simpl.
  - now rewrite app_nil_r.
  - rewrite IH. unfold addKey, push. cbn [verificationMethod].
    now rewrite <- app_assoc.
Qed.

(** The methods of a document: the controller, the valid delegates in
    the order given, the valid public keys in the order given. *)
Lemma buildDidDocument_methods (nowMs : Z) (address : string)
      (controller : option string) (delegates : list Delegate)
      (attributes : list Attribute) :
  doc_verificationMethod
    (buildDidDocument nowMs address controller delegates attributes)
  = (controllerMethod address controller
       :: mapIndexed (delegateMethod ("did:ethr:" ++ address))
                     (validDelegates nowMs delegates)
       ++ mapIndexed (keyMethod ("did:ethr:" ++ address))
                     (validKeys nowMs attributes))%list.
Proof.
  unfold buildDidDocument. cbn [doc_verificationMethod].
  unfold forEach. rewrite forEach_addKey, forEach_addDelegate.
  reflexivity.
Qed.

(** The clock is read in whole seconds. *)
Lemma buildDidDocument_clock (nowMs1 nowMs2 : Z) (address : string)
      (controller : option string) (delegates : list Delegate)
      (attributes : list Attribute) :
  (nowMs1 / 1000 = nowMs2 / 1000)%Z ->
  buildDidDocument nowMs1 address controller delegates attributes
  = buildDidDocument nowMs2 address controller delegates attributes.
Proof.
  intros H. unfold buildDidDocument. now rewrite H.
Qed.

(** C9, as the code has it.  The builder is a function of its arguments
    and of the second at which it reads the clock: for one reading it
    yields one document, whose verification methods are the controller
    method, then the methods of the delegates valid at that reading in
    projection order, then those of the valid [did/pub/] attributes, the
    identifier suffixes [#delegate-N] and [#key-N] being the places in
    these two lists. *)
Theorem buildDidDocument_deterministic_order (nowMs1 nowMs2 : Z)
        (address : string) (controller : option string)
        (delegates : list Delegate) (attributes : list Attribute) :
  (nowMs1 / 1000 = nowMs2 / 1000)%Z ->
  let did := "did:ethr:" ++ address in
  let doc := buildDidDocument nowMs1 address controller delegates attributes in
  buildDidDocument nowMs2 address controller delegates attributes = doc
  /\ doc_verificationMethod doc
     = (controllerMethod address controller
          :: mapIndexed (delegateMethod did) (validDelegates nowMs1 delegates)
          ++ mapIndexed (keyMethod did) (validKeys nowMs1 attributes))%list
  /\ List.map vm_id (doc_verificationMethod doc)
     = (did ++ "#controller")
         :: List.app
              (mapIndexed (fun _ n => did ++ "#delegate-" ++ numberToString n)
                          (validDelegates nowMs1 delegates))
              (mapIndexed (fun _ n => did ++ "#key-" ++ numberToString n)
                          (validKeys nowMs1 attributes)).
Proof.
  intros H did doc. split; [symmetry; now apply buildDidDocument_clock|].
  unfold doc. rewrite buildDidDocument_methods. split; [reflexivity|].
  cbn [List.map]. rewrite map_app. unfold mapIndexed.
  now rewrite !map_mapFrom.
Qed.

Lemma buildDidDocument_deterministic_order_witness :
  (1500200 / 1000 = 1500900 / 1000)%Z
  /\ buildDidDocument 1500900 "0xaa" None [delegateRow] []
     = buildDidDocument 1500200 "0xaa" None [delegateRow] [].
Proof.
  split; [reflexivity|].
  exact (proj1 (buildDidDocument_deterministic_order
                  1500200 1500900 "0xaa" None [delegateRow] [] eq_refl)).
Defined.

(** C9, as stated, fails: the same address, controller, delegates and
    attributes give two different documents at two readings of the
    clock. *)
Lemma buildDidDocument_reads_clock :
  buildDidDocument 1500000 "0xaa" None [delegateRow] []
  <> buildDidDocument 3000000 "0xaa" None [delegateRow] [].
Proof.
  intros H.
  apply (f_equal (fun d => List.length (doc_verificationMethod d))) in H.
  vm_compute in H. discriminate.
Qed.
End Builder.

(* ================================================================== *)
(** * The fallback of the authority check *)
(* ================================================================== *)

Section Fallback.
Import Js CredentialService Scenario CredentialScenario.

Variable JSON_stringify : CredentialPayload -> string.
Variable verifyMessage : string -> string -> result string.
Variable dateOf : string -> Z.
Variable encodeURIComponent : string -> string.
Variable apiBaseUrl : string.

(** The [catch] of the historical lookups in [verify], on every
    credential: when one of the two lookups is rejected, the authority
    check takes the value of the signature check (the recovered signer
    against the address in the issuer DID), one warning is logged, and the
    result has the shape of any other result. *)
Theorem verify_fallback (api : DidServiceApi) (credentials : list Credential)
        (nowMs : Z) (credentialId : string) (cred : Credential)
        (recovered msg : string) :
  findCredential credentials (replace "urn:uuid:" EmptyString credentialId) = Some cred ->
  verifyMessage
    (JSON_stringify
       (mkCredentialPayload VC_CONTEXTS (c_type cred) (c_issuer cred)
          (c_issuanceDate cred) (orUndefined (c_expirationDate cred))
          (credentialSubject (c_subject cred) (c_claims cred))))
    (p_proofValue (c_proof cred)) = Ok recovered ->
  truthy recovered = true ->
  api_getOwnerAtTime api (c_issuer cred) (dateOf (c_issuanceDate cred))
  = Throw msg
  \/ (exists owner,
         api_getOwnerAtTime api (c_issuer cred) (dateOf (c_issuanceDate cred))
         = Ok owner)
     /\ api_wasValidSignerAtTime api (c_issuer cred) recovered
                                 (dateOf (c_issuanceDate cred))
        = Throw msg ->
  let out := verify JSON_stringify verifyMessage dateOf encodeURIComponent
                    apiBaseUrl api credentials nowMs credentialId in
  let r := fst out in
  signerValidAtIssuance (checks r) = signature (checks r)
  /\ signature (checks r)
     = match lastOf (split ":" (c_issuer cred)) with
       | Some a => toLowerCase recovered =? toLowerCase a
       | None => false
       end
  /\ snd out
     = [LogWarn ("Could not perform time-based verification: Error: " ++ msg)]
  /\ option_map wasValidSigner (details r) = Some (signature (checks r))
  /\ error r = None.
Proof.
  intros Hfind Hrec Htruthy Hfail. unfold verify. rewrite Hfind.
  unfold checkSignature. rewrite Hrec.
  unfold checkSignerAtIssuance. rewrite Htruthy.
  destruct Hfail as [Hthrow|[[owner Hown] Hthrow]].
  - rewrite Hthrow. repeat split.
  - rewrite Hown, Hthrow. repeat split.
Qed.
End Fallback.

Section FallbackAtInput.
Import Js CredentialService Scenario CredentialScenario.

Lemma verify_fallback_witness :
  let out :=
    toyVerify (didServiceOf handedOverDb providerDown)
              [credentialBy "0xAA" at1500] 1600000 "urn:uuid:c1" in
  signerValidAtIssuance (checks (fst out)) = signature (checks (fst out))
  /\ snd out
     = [LogWarn "Could not perform time-based verification: Error: Could not fetch latest block"].
Proof.
  destruct (verify_fallback
              toyStringify toyVerifyMessage toyDateOf toyEncode
              "http://localhost:3001"
              (didServiceOf handedOverDb providerDown)
              [credentialBy "0xAA" at1500] 1600000 "urn:uuid:c1"
              (credentialBy "0xAA" at1500) "0xAA"
              "Could not fetch latest block"
              eq_refl eq_refl eq_refl (or_introl eq_refl))
    as (H1 & _ & H3 & _).
  split; [exact H1|exact H3].
Defined.

(** C5, evaluated.  The identity [0xaa] handed its ownership to [0x0f]
    and has no delegate.  With the node down, [verify] logs its warning and
    lets the credential signed by the key of [0xaa] pass the authority
    check, and with it the whole verification, although the issuer's
    current authority, to which the specification and the comment on the
    [catch] ("Fallback to current state verification") say the check falls
    back, is [0x0f] alone, and although the full check, with the node up,
    rejects the signer: the [catch] copies the signature check, which
    compares the signer with the address in the issuer DID.  And when the
    node fails only at the second lookup, the result is, field for field,
    the result of a full check that succeeded: nothing in it tells the two
    apart, only the log does. *)
Lemma verify_fallback_not_current_authority_nor_flagged :
  (let out := toyVerify (didServiceOf handedOverDb providerDown)
                        [credentialBy "0xAA" at1500] 1600000 "urn:uuid:c1" in
   signerValidAtIssuance (checks (fst out)) = true
   /\ valid (fst out) = true
   /\ snd out
      = [LogWarn "Could not perform time-based verification: Error: Could not fetch latest block"]
   /\ DidService.oi_owner (DidService.getOwner handedOverDb "did:ethr:0xaa")
      = "0x0f"
   /\ DidService.oi_isSelfOwned
        (DidService.getOwner handedOverDb "did:ethr:0xaa") = false
   /\ DidService.delegatesOf handedOverDb "0xaa" = []
   /\ signerValidAtIssuance
        (checks (fst (toyVerify
                        (didServiceOf handedOverDb (providerOfChain sparseChain))
                        [credentialBy "0xAA" at1500] 1600000 "urn:uuid:c1")))
      = false)
  /\ (let degraded :=
        toyVerify (interruptedService (mkDb [] [] [] [])
                                      (providerOfChain sparseChain))
                  [credentialBy "0xAA" at1500] 1600000 "urn:uuid:c1" in
      let full :=
        toyVerify (didServiceOf (mkDb [] [] [] [])
                                (providerOfChain sparseChain))
                  [credentialBy "0xAA" at1500] 1600000 "urn:uuid:c1" in
      fst degraded = fst full
      /\ snd degraded
         = [LogWarn "Could not perform time-based verification: Error: connect ECONNREFUSED"]
      /\ snd full
         = [LogInfo "Time-based verification for did:ethr:0xaa: recovered=0xAA, ownerAtIssuance=0xaa, wasValidSigner=true"]).
Proof.
  repeat split; vm_compute; reflexivity.
Qed.
End FallbackAtInput.

(* ================================================================== *)
(** * Re-delivery of an event *)
(* ================================================================== *)

Section Redelivery.
Import Js DidService BlockchainService IngestionScenario.

Lemma fold_max_ge (ids : list Z) (i : Z) :
  In i ids -> (i <= List.fold_right Z.max 0 ids)%Z.
Proof.
  induction ids as [|j ids IH]; simpl; [contradiction|].
  intros [->|H]; [lia|]. specialize (IH H). lia.
Qed.

(** A generated id is new. *)
Lemma nextId_fresh (ids : list Z) (i : Z) : In i ids -> (i < nextId ids)%Z.
Proof.
  intros H. apply fold_max_ge in H. unfold nextId. lia.
Qed.

Lemma someIds_In (os : list (option Z)) (i : Z) :
  In (Some i) os -> In i (someIds os).
Proof.
  unfold someIds. intros H. apply in_flat_map.
  exists (Some i). split; [assumption|now left].
Qed.

Lemma find_app_none {A : Type} (f : A -> bool) (l : list A) (x : A) :
  List.find f l = None -> f x = true -> List.find f (l ++ [x])%list = Some x.
Proof.
  induction l as [|y l IH]; simpl; intros Hn Hx; [now rewrite Hx|].
  destruct (f y); [discriminate|auto].
Qed.

(** After an update by id with a row that still matches, the search
    finds the updated row. *)
Lemma find_after_update {A : Type} (f g : A -> bool) (l : list A) (e e' : A) :
  List.find f l = Some e -> g e = true -> f e' = true ->
  List.find f (List.map (fun d => if g d then e' else d) l) = Some e'.
Proof.
  intros Hfind Hge Hfe'.
  induction l as [|d l IH]; simpl in *; [discriminate|].
  destruct (g d) eqn:Hgd.
  - now rewrite Hfe'.
  - destruct (f d) eqn:Hfd.
    + inversion Hfind; subst. congruence.
    + auto.
Qed.

Lemma update_twice {A : Type} (g : A -> bool) (l : list A) (e' : A) :
  g e' = true ->
  List.map (fun d => if g d then e' else d)
           (List.map (fun d => if g d then e' else d) l)
  = List.map (fun d => if g d then e' else d) l.
Proof.
  intros H. rewrite map_map. apply map_ext. intros d.
  destruct (g d) eqn:E; [now rewrite H|now rewrite E].
Qed.

Lemma update_absent {A : Type} (g : A -> bool) (l : list A) (e' : A) :
  (forall d, In d l -> g d = false) ->
  List.map (fun d => if g d then e' else d) l = l.
Proof.
  intros H. induction l as [|d l IH]; simpl; [reflexivity|].
  rewrite (H d (or_introl eq_refl)). f_equal. apply IH.
  intros x Hx. apply H. now right.
Qed.

(** *** The identity table *)

Lemma existsb_find_identity (rows : list Identity) (address : string) :
  List.existsb (fun i => i_address i =? address) rows
  = match List.find (fun i => i_address i =? address) rows with
    | Some _ => true
    | None => false
    end.
Proof.
  induction rows as [|r rows IH]; simpl; [reflexivity|].
  destruct (i_address r =? address); [reflexivity|exact IH].
Qed.

Lemma findIdentity_saveIdentity (db : Db) (row : Identity) :
  findIdentity (saveIdentity db row) (i_address row) = Some row.
Proof.
  unfold findIdentity, saveIdentity. cbn [identities].
  rewrite existsb_find_identity.
  destruct (List.find _ (identities db)) as [e|] eqn:E.
  - apply (find_after_update _ _ _ e row); auto.
    + now apply find_some in E.
    + apply String.eqb_refl.
  - apply find_app_none; [assumption|apply String.eqb_refl].
Qed.

Lemma saveIdentity_twice (db : Db) (row : Identity) :
  saveIdentity (saveIdentity db row) row = saveIdentity db row.
Proof.
  unfold saveIdentity at 1.
  assert (Hp : List.existsb (fun i => i_address i =? i_address row)
                            (identities (saveIdentity db row)) = true).
  { rewrite existsb_find_identity.
    pose proof (findIdentity_saveIdentity db row) as H.
    unfold findIdentity in H. now rewrite H. }
  rewrite Hp.
  unfold saveIdentity. cbn [identities delegates attributes events].
  f_equal.
  destruct (List.existsb _ (identities db)) eqn:E.
  - apply update_twice, String.eqb_refl.
  - rewrite map_app. cbn [List.map]. rewrite String.eqb_refl.
    f_equal. apply update_absent. intros d Hd.
    destruct (i_address d =? i_address row) eqn:Ed; [|reflexivity].
    assert (List.existsb (fun i => i_address i =? i_address row)
                         (identities db) = true)
      by (apply existsb_exists; eauto).
    congruence.
Qed.

Lemma ensureIdentity_found (db : Db) (address : string) :
  exists row, findIdentity (ensureIdentity db address) address = Some row.
Proof.
  unfold ensureIdentity.
  destruct (findIdentity db address) as [r|] eqn:E; [eauto|].
  exists (mkIdentity address None).
  exact (findIdentity_saveIdentity db (mkIdentity address None)).
Qed.

Lemma ensureIdentity_tables (db : Db) (address : string) :
  delegates (ensureIdentity db address) = delegates db
  /\ attributes (ensureIdentity db address) = attributes db
  /\ events (ensureIdentity db address) = events db.
Proof.
  unfold ensureIdentity. destruct (findIdentity db address); repeat split.
Qed.

(** [ensureIdentity] reads the identity table alone, and a second call
    finds the row of the first. *)
Lemma ensureIdentity_twice (db db' : Db) (address : string) :
  identities db' = identities (ensureIdentity db address) ->
  identities (ensureIdentity db' address)
  = identities (ensureIdentity db address).
Proof.
  intros H. destruct (ensureIdentity_found db address) as [row Hrow].
  unfold ensureIdentity at 1. unfold findIdentity in *.
  rewrite H, Hrow. exact H.
Qed.

(** *** The delegate table *)

Section Delegates.
Variables address delegateType delegateAddress : string.
Variable validTo : Z.

Let matches := Projection.delegateMatches address delegateType delegateAddress.

Lemma insertDelegate_fresh (rows : list Delegate) (row : Delegate) (d : Delegate) :
  In d rows ->
  idIs (nextId (someIds (List.map d_id rows))) (d_id d) = false.
Proof.
  intros Hd. destruct (d_id d) as [i|] eqn:E; [|reflexivity].
  simpl. apply Z.eqb_neq.
  assert (In i (someIds (List.map d_id rows))).
  { apply someIds_In. rewrite <- E. now apply in_map. }
  apply nextId_fresh in H. lia.
Qed.

Lemma upsertDelegate_twice (rows : list Delegate) :
  List.Forall (fun d => d_id d <> None) rows ->
  Projection.upsertDelegate
    (Projection.upsertDelegate rows address delegateType delegateAddress validTo)
    address delegateType delegateAddress validTo
  = Projection.upsertDelegate rows address delegateType delegateAddress validTo.
Proof.
  intros Hids.
  destruct (List.find matches rows) as [e|] eqn:Hfind.
  - destruct (find_some _ _ Hfind) as [Hin Hm].
    rewrite Forall_forall in Hids. specialize (Hids e Hin).
    destruct (d_id e) as [id|] eqn:Hid; [clear Hids|contradiction].
    set (e' := mkDelegate (Some id) (d_identity e) (d_delegateType e)
                          (d_delegateAddress e) validTo).
    assert (Hup : Projection.upsertDelegate rows address delegateType
                                            delegateAddress validTo
                  = List.map (fun d => if idIs id (d_id d) then e' else d) rows).
    { unfold Projection.upsertDelegate. fold matches.
      rewrite Hfind. cbv zeta. now rewrite Hid. }
    rewrite Hup. unfold Projection.upsertDelegate. fold matches.
    rewrite (find_after_update matches _ rows e e' Hfind).
    + cbn [d_id d_identity d_delegateType d_delegateAddress e'].
      fold e'. apply update_twice. simpl. apply Z.eqb_refl.
    + rewrite Hid. simpl. apply Z.eqb_refl.
    + exact Hm.
  - set (n := mkDelegate (Some (nextId (someIds (List.map d_id rows))))
                         (Some address) delegateType delegateAddress validTo).
    assert (Hup : Projection.upsertDelegate rows address delegateType
                                            delegateAddress validTo
                  = (rows ++ [n])%list).
    { unfold Projection.upsertDelegate. fold matches.
      now rewrite Hfind. }
    rewrite Hup. unfold Projection.upsertDelegate. fold matches.
    assert (Hn : matches n = true).
    { unfold matches, Projection.delegateMatches, n. simpl.
      now rewrite !String.eqb_refl. }
    rewrite (find_app_none matches rows n Hfind Hn).
    cbn [d_id d_identity d_delegateType d_delegateAddress n]. fold n.
    rewrite map_app. cbn [List.map d_id n]. simpl idIs at 2.
    rewrite Z.eqb_refl. f_equal.
    apply update_absent. intros d Hd.
    now apply (insertDelegate_fresh rows n).
Qed.
End Delegates.

(** *** The attribute table *)

Section Attributes.
Variables address name value : string.
Variable validTo : Z.

Let matches := Projection.attributeMatches address name.

Lemma insertAttribute_fresh (rows : list Attribute) (a : Attribute) :
  In a rows ->
  idIs (nextId (someIds (List.map a_id rows))) (a_id a) = false.
Proof.
  intros Ha. destruct (a_id a) as [i|] eqn:E; [|reflexivity].
  simpl. apply Z.eqb_neq.
  assert (In i (someIds (List.map a_id rows))).
  { apply someIds_In. rewrite <- E. now apply in_map. }
  apply nextId_fresh in H. lia.
Qed.

Lemma upsertAttribute_twice (rows : list Attribute) :
  List.Forall (fun a => a_id a <> None) rows ->
  Projection.upsertAttribute
    (Projection.upsertAttribute rows address name value validTo)
    address name value validTo
  = Projection.upsertAttribute rows address name value validTo.
Proof.
  intros Hids.
  destruct (List.find matches rows) as [e|] eqn:Hfind.
  - destruct (find_some _ _ Hfind) as [Hin Hm].
    rewrite Forall_forall in Hids. specialize (Hids e Hin).
    destruct (a_id e) as [id|] eqn:Hid; [clear Hids|contradiction].
    set (e' := mkAttribute (Some id) (a_identity e) (a_name e) value validTo).
    assert (Hup : Projection.upsertAttribute rows address name value validTo
                  = List.map (fun a => if idIs id (a_id a) then e' else a) rows).
    { unfold Projection.upsertAttribute. fold matches.
      rewrite Hfind. cbv zeta. now rewrite Hid. }
    rewrite Hup. unfold Projection.upsertAttribute. fold matches.
    rewrite (find_after_update matches _ rows e e' Hfind).
    + cbn [a_id a_identity a_name e'].
      fold e'. apply update_twice. simpl. apply Z.eqb_refl.
    + rewrite Hid. simpl. apply Z.eqb_refl.
    + exact Hm.
  - set (n := mkAttribute (Some (nextId (someIds (List.map a_id rows))))
                          (Some address) name value validTo).
    assert (Hup : Projection.upsertAttribute rows address name value validTo
                  = (rows ++ [n])%list).
    { unfold Projection.upsertAttribute. fold matches.
      now rewrite Hfind. }
    rewrite Hup. unfold Projection.upsertAttribute. fold matches.
    assert (Hn : matches n = true).
    { unfold matches, Projection.attributeMatches, n. simpl.
      now rewrite !String.eqb_refl. }
    rewrite (find_app_none matches rows n Hfind Hn).
    cbn [a_id a_identity a_name n]. fold n.
    rewrite map_app. cbn [List.map a_id n]. simpl idIs at 2.
    rewrite Z.eqb_refl. f_equal.
    apply update_absent. intros a Ha.
    now apply insertAttribute_fresh.
Qed.
End Attributes.
End Redelivery.

Section RedeliveryOfEvents.
Import Js DidService BlockchainService IngestionScenario.

Variable decodeBytes32String : string -> result string.
Variable toUtf8String : string -> result string.
Variable hexlify : string -> string.

Let onEvent' := onEvent decodeBytes32String toUtf8String hexlify.
Let eventRow := Projection.eventRow decodeBytes32String hexlify.

Lemma ensureIdentity_saveEvent (db : Db) (log : Log) (args : EventArgs)
      (address : string) :
  identities (ensureIdentity (saveEvent db log args) address)
  = identities (ensureIdentity db address).
Proof.
  unfold ensureIdentity.
  change (findIdentity (saveEvent db log args) address)
    with (findIdentity db address).
  destruct (findIdentity db address); reflexivity.
Qed.

Lemma handleOwnerChanged_tables (db : Db) (i o : string) (pc : Z) (log : Log) :
  let once := handleOwnerChanged db i o pc log in
  identities once
  = identities (saveIdentity db (mkIdentity (toLowerCase i)
                                            (Some (toLowerCase o))))
  /\ delegates once = delegates db
  /\ attributes once = attributes db
  /\ events once = (events db ++ [eventRow db (DIDOwnerChanged i o pc log)])%list.
Proof.
  unfold handleOwnerChanged.
  change (findIdentity (saveEvent db log (OwnerChangedArgs i o pc))
                       (toLowerCase i))
    with (findIdentity db (toLowerCase i)).
  assert (Haddr : i_address
                    match findIdentity db (toLowerCase i) with
                    | Some row => row
                    | None => mkIdentity (toLowerCase i) None
                    end = toLowerCase i).
  { destruct (findIdentity db (toLowerCase i)) as [row|] eqn:E; [|reflexivity].
    apply find_some in E. now apply String.eqb_eq. }
  rewrite Haddr. repeat split.
Qed.

Lemma handleDelegateChanged_tables (db : Db) (i t d : string) (v pc : Z)
      (log : Log) :
  let once := handleDelegateChanged decodeBytes32String db i t d v pc log in
  identities once = identities (ensureIdentity db (toLowerCase i))
  /\ delegates once
     = Projection.upsertDelegate (delegates db) (toLowerCase i)
                                 (orCatch (decodeBytes32String t) t)
                                 (toLowerCase d) v
  /\ attributes once = attributes db
  /\ events once
     = (events db ++ [eventRow db (DIDDelegateChanged i t d v pc log)])%list.
Proof.
  unfold handleDelegateChanged, findDelegate, Projection.upsertDelegate.
  set (args := DelegateChangedArgs i _ d v pc).
  set (db2 := ensureIdentity (saveEvent db log args) (toLowerCase i)).
  destruct (ensureIdentity_tables (saveEvent db log args) (toLowerCase i))
    as (Hd & Ha & He).
  fold db2 in Hd, Ha, He. cbn [saveEvent delegates attributes events] in Hd, Ha, He.
  rewrite Hd.
  change (fun d0 : Delegate =>
            match d_identity d0 with
            | Some a => a =? toLowerCase i
            | None => false
            end && (d_delegateType d0 =? orCatch (decodeBytes32String t) t)
            && (d_delegateAddress d0 =? toLowerCase d))
    with (Projection.delegateMatches (toLowerCase i)
                                     (orCatch (decodeBytes32String t) t)
                                     (toLowerCase d)).
  assert (Hi : identities db2 = identities (ensureIdentity db (toLowerCase i)))
    by apply ensureIdentity_saveEvent.
  destruct (List.find _ (delegates db)) as [e|].
  - unfold saveDelegate. cbn [d_id identities delegates attributes events].
    rewrite Hd, Ha, He, Hi.
    destruct (d_id e); repeat split.
  - unfold saveDelegate. cbn [d_id identities delegates attributes events].
    rewrite Hd, Ha, He, Hi. repeat split.
Qed.

Lemma handleAttributeChanged_tables (db : Db) (i n x : string) (v pc : Z)
      (log : Log) :
  let once := handleAttributeChanged decodeBytes32String toUtf8String hexlify
                                     db i n x v pc log in
  identities once = identities (ensureIdentity db (toLowerCase i))
  /\ delegates once = delegates db
  /\ attributes once
     = Projection.upsertAttribute (attributes db) (toLowerCase i)
                                  (orCatch (decodeBytes32String n) n)
                                  (orCatch (toUtf8String x) (hexlify x)) v
  /\ events once
     = (events db ++ [eventRow db (DIDAttributeChanged i n x v pc log)])%list.
Proof.
  unfold handleAttributeChanged, findAttribute, Projection.upsertAttribute.
  set (args := AttributeChangedArgs i _ _ v pc).
  set (db2 := ensureIdentity (saveEvent db log args) (toLowerCase i)).
  destruct (ensureIdentity_tables (saveEvent db log args) (toLowerCase i))
    as (Hd & Ha & He).
  fold db2 in Hd, Ha, He. cbn [saveEvent delegates attributes events] in Hd, Ha, He.
  rewrite Ha.
  change (fun a : Attribute =>
            match a_identity a with
            | Some i0 => i0 =? toLowerCase i
            | None => false
            end && (a_name a =? orCatch (decodeBytes32String n) n))
    with (Projection.attributeMatches (toLowerCase i)
                                      (orCatch (decodeBytes32String n) n)).
  assert (Hi : identities db2 = identities (ensureIdentity db (toLowerCase i)))
    by apply ensureIdentity_saveEvent.
  destruct (List.find _ (attributes db)) as [e|].
  - unfold saveAttribute. cbn [a_id identities delegates attributes events].
    rewrite Hd, Ha, He, Hi.
    destruct (a_id e); repeat split.
  - unfold saveAttribute. cbn [a_id identities delegates attributes events].
    rewrite Hd, Ha, He, Hi. repeat split.
Qed.

Lemma saveIdentity_ext (db db' : Db) (row : Identity) :
  identities db' = identities db ->
  identities (saveIdentity db' row) = identities (saveIdentity db row).
Proof.
  intros H. unfold saveIdentity. cbn [identities]. now rewrite H.
Qed.

(** C6, as the code has it.  Delivering an event a second time leaves
    the identity, delegate and attribute tables as the first delivery left
    them (the rows of the projection tables having their ids), and adds a
    second row for the event to the event table: same transaction, block
    and arguments, under a new id. *)
Theorem redelivery_keeps_projections (db : Db) (ev : LedgerEvent) :
  rowsHaveIds db ->
  let once := onEvent' db ev in
  let twice := onEvent' once ev in
  identities twice = identities once
  /\ delegates twice = delegates once
  /\ attributes twice = attributes once
  /\ events once = (events db ++ [eventRow db ev])%list
  /\ events twice = (events db ++ [eventRow db ev; eventRow once ev])%list
  /\ e_transactionHash (eventRow once ev) = e_transactionHash (eventRow db ev)
  /\ e_blockNumber (eventRow once ev) = e_blockNumber (eventRow db ev)
  /\ e_args (eventRow once ev) = e_args (eventRow db ev)
  /\ (e_id (eventRow db ev) < e_id (eventRow once ev))%Z.
Proof.
  intros [Hdel Hattr] once twice.
  assert (Hev : events once = (events db ++ [eventRow db ev])%list
                /\ events twice = (events once ++ [eventRow once ev])%list).
  { unfold twice, once, onEvent', onEvent. destruct ev.
    - split; apply handleOwnerChanged_tables.
    - split; apply handleDelegateChanged_tables.
    - split; apply handleAttributeChanged_tables. }
  destruct Hev as [He1 He2].
  assert (Hid : (e_id (eventRow db ev) < e_id (eventRow once ev))%Z).
  { assert (Hin : In (e_id (eventRow db ev)) (List.map e_id (events once))).
    { rewrite He1, map_app. apply in_or_app. right. now left. }
    apply nextId_fresh in Hin. destruct ev; exact Hin. }
  assert (Hproj : identities twice = identities once
                  /\ delegates twice = delegates once
                  /\ attributes twice = attributes once).
  { unfold twice, once, onEvent', onEvent. destruct ev.
    - destruct (handleOwnerChanged_tables db identity owner previousChange log)
        as (Hi & Hd & Ha & _).
      destruct (handleOwnerChanged_tables
                  (handleOwnerChanged db identity owner previousChange log)
                  identity owner previousChange log)
        as (Hi' & Hd' & Ha' & _).
      cbv zeta in *. rewrite Hd', Ha'. repeat split.
      rewrite Hi'.
      rewrite (saveIdentity_ext _ _ _ Hi), saveIdentity_twice. now rewrite Hi.
    - destruct (handleDelegateChanged_tables db identity delegateType delegate
                                             validTo previousChange log)
        as (Hi & Hd & Ha & _).
      destruct (handleDelegateChanged_tables
                  (handleDelegateChanged decodeBytes32String db identity
                     delegateType delegate validTo previousChange log)
                  identity delegateType delegate validTo previousChange log)
        as (Hi' & Hd' & Ha' & _).
      cbv zeta in *. rewrite Hi', Hd', Ha'. repeat split.
      + now rewrite (ensureIdentity_twice db _ _ Hi).
      + rewrite Hd. now apply upsertDelegate_twice.
    - destruct (handleAttributeChanged_tables db identity name value
                                              validTo previousChange log)
        as (Hi & Hd & Ha & _).
      destruct (handleAttributeChanged_tables
                  (handleAttributeChanged decodeBytes32String toUtf8String
                     hexlify db identity name value validTo previousChange log)
                  identity name value validTo previousChange log)
        as (Hi' & Hd' & Ha' & _).
      cbv zeta in *. rewrite Hi', Hd', Ha'. repeat split.
      + now rewrite (ensureIdentity_twice db _ _ Hi).
      + rewrite Ha. now apply upsertAttribute_twice. }
  destruct Hproj as (Hi & Hd & Ha).
  repeat split; try assumption.
  - rewrite He2, He1, <- app_assoc. reflexivity.
  - destruct ev; reflexivity.
  - destruct ev; reflexivity.
  - destruct ev; reflexivity.
Qed.
End RedeliveryOfEvents.

Section RedeliveryAtInput.
Import Js DidService BlockchainService IngestionScenario.

Lemma redelivery_keeps_projections_witness :
  rowsHaveIds emptyDb
  /\ delegates (toyOnEvent (toyOnEvent emptyDb grant) grant)
     = delegates (toyOnEvent emptyDb grant).
Proof.
  assert (H : rowsHaveIds emptyDb) by (split; constructor).
  split; [exact H|].
  exact (proj1 (proj2 (redelivery_keeps_projections
                         toyDecode toyDecode toyHexlify emptyDb grant H))).
Defined.

(** C6, as stated, fails for the event log: after the second delivery
    the table holds the event twice. *)
Lemma redelivery_duplicates_event_row :
  events (toyOnEvent (toyOnEvent emptyDb grant) grant)
  <> events (toyOnEvent emptyDb grant)
  /\ events (toyOnEvent emptyDb grant)
     = [ mkEvent 1 "0xt1" 5
                 (DelegateChangedArgs "0xAA" "sigAuth" "0xDD" 2000 0) ]
  /\ events (toyOnEvent (toyOnEvent emptyDb grant) grant)
     = [ mkEvent 1 "0xt1" 5
                 (DelegateChangedArgs "0xAA" "sigAuth" "0xDD" 2000 0);
         mkEvent 2 "0xt1" 5
                 (DelegateChangedArgs "0xAA" "sigAuth" "0xDD" 2000 0) ].
Proof.
  split; [|split; vm_compute; reflexivity].
  intros H. apply (f_equal (@List.length Event)) in H.
  vm_compute in H. discriminate.
Qed.
End RedeliveryAtInput.

(* ================================================================== *)
(** * Ordered queries on the event table *)
(* ================================================================== *)

Section Sorting.
Import DidService.

Context {A : Type} (leb : A -> A -> bool).
Hypothesis leb_total : forall x y, leb x y = false -> leb y x = true.
Hypothesis leb_trans :
  forall x y z, leb x y = true -> leb y z = true -> leb x z = true.

Let le (x y : A) : Prop := leb x y = true.

Lemma insertBy_perm (x : A) (l : list A) :
  Permutation (insertBy leb x l) (x :: l).
Proof.
  induction l as [|y l IH]; simpl; [reflexivity|].
  destruct (leb x y); [reflexivity|].
  rewrite IH. apply perm_swap.
Qed.

Lemma sortBy_perm (l : list A) : Permutation (sortBy leb l) l.
Proof.
  induction l as [|x l IH]; simpl; [reflexivity|].
  rewrite insertBy_perm. now constructor.
Qed.

Lemma sortBy_In (l : list A) (x : A) : In x (sortBy leb l) <-> In x l.
Proof.
  split; apply Permutation_in; [|symmetry]; apply sortBy_perm.
Qed.

Lemma insertBy_sorted (x : A) (l : list A) :
  StronglySorted le l -> StronglySorted le (insertBy leb x l).
Proof.
  induction 1 as [|y l Hs IH Hall]; simpl.
  - constructor; constructor.
  - destruct (leb x y) eqn:E.
    + constructor; [now constructor|].
      constructor; [exact E|].
      eapply Forall_impl; [|exact Hall].
      intros z Hz. exact (leb_trans _ _ _ E Hz).
    + constructor; [exact IH|].
      apply Forall_forall. intros z Hz.
      apply (Permutation_in _ (insertBy_perm x l)) in Hz.
      destruct Hz as [<-|Hz]; [now apply leb_total|].
      rewrite Forall_forall in Hall. now apply Hall.
Qed.

Lemma sortBy_sorted (l : list A) : StronglySorted le (sortBy leb l).
Proof.
  induction l as [|x l IH]; simpl; [constructor|].
  now apply insertBy_sorted.
Qed.

Lemma insertBy_least (x : A) (l : list A) :
  Forall (le x) l -> insertBy leb x l = x :: l.
Proof.
  destruct l as [|y l]; [reflexivity|].
  intros H. inversion H; subst. simpl.
  now replace (leb x y) with true.
Qed.

(** Selecting rows commutes with ordering them. *)
Lemma filter_insertBy (keep : A -> bool) (x : A) (l : list A) :
  StronglySorted le l ->
  filter keep (insertBy leb x l)
  = if keep x then insertBy leb x (filter keep l) else filter keep l.
Proof.
  induction 1 as [|y l Hs IH Hall]; simpl.
  - destruct (keep x); reflexivity.
  - destruct (leb x y) eqn:E; simpl.
    + destruct (keep x) eqn:Kx; [|reflexivity].
      destruct (keep y) eqn:Ky; simpl; [now rewrite E|].
      symmetry. apply insertBy_least.
      apply Forall_forall. intros z Hz.
      apply filter_In in Hz. destruct Hz as [Hz _].
      rewrite Forall_forall in Hall.
      exact (leb_trans _ _ _ E (Hall z Hz)).
    + rewrite IH.
      destruct (keep x), (keep y); simpl; try rewrite E; reflexivity.
Qed.

Lemma filter_sortBy (keep : A -> bool) (l : list A) :
  filter keep (sortBy leb l) = sortBy leb (filter keep l).
Proof.
  induction l as [|x l IH]; simpl; [reflexivity|].
  rewrite filter_insertBy by apply sortBy_sorted.
  rewrite IH. destruct (keep x); reflexivity.
Qed.


End Sorting.

Section EventOrder.
Import DidService.

Lemma eventLeAsc_total (x y : Event) :
  eventLeAsc x y = false -> eventLeAsc y x = true.
Proof.
  unfold eventLeAsc. intros H.
  apply orb_false_iff in H. destruct H as [H1 H2].
  apply Z.ltb_ge in H1.
  destruct (e_blockNumber y <? e_blockNumber x)%Z eqn:E; [reflexivity|].
  apply Z.ltb_ge in E.
  assert (Heq : (e_blockNumber x =? e_blockNumber y)%Z = true)
    by (apply Z.eqb_eq; lia).
  rewrite Heq in H2. simpl in H2. apply Z.leb_gt in H2.
  rewrite Z.eqb_sym, Heq. simpl. apply Z.leb_le. lia.
Qed.

Lemma eventLeAsc_spec (x y : Event) :
  eventLeAsc x y = true
  <-> (e_blockNumber x < e_blockNumber y
       \/ (e_blockNumber x = e_blockNumber y /\ e_id x <= e_id y))%Z.
Proof.
  unfold eventLeAsc.
  rewrite orb_true_iff, andb_true_iff, Z.ltb_lt, Z.eqb_eq, Z.leb_le.
  reflexivity.
Qed.

Lemma eventLeAsc_trans (x y z : Event) :
  eventLeAsc x y = true -> eventLeAsc y z = true -> eventLeAsc x z = true.
Proof.
  rewrite !eventLeAsc_spec. lia.
Qed.



Lemma filter_and {A : Type} (f g : A -> bool) (l : list A) :
  filter f (filter g l) = filter (fun x => f x && g x) l.
Proof.
  induction l as [|x l IH]; simpl; [reflexivity|].
  destruct (g x); simpl; rewrite ?andb_true_r, ?andb_false_r;
    [destruct (f x)|]; now rewrite IH.
Qed.

(** The order of the queries, [blockNumber] then [id], is the order of
    positions. *)
Lemma eventLeAsc_position (x y : Event) :
  eventLeAsc x y
  = TemporalSpec.positionLeb (TemporalSpec.positionOf x)
                             (TemporalSpec.positionOf y).
Proof.
  unfold eventLeAsc, TemporalSpec.positionLeb, TemporalSpec.positionOf.
  cbn [fst snd].
  destruct (Z.compare_spec (e_blockNumber x) (e_blockNumber y)) as [H|H|H].
  - rewrite H, Z.ltb_irrefl, Z.eqb_refl. reflexivity.
  - apply Z.ltb_lt in H. now rewrite H.
  - assert (H1 : (e_blockNumber x <? e_blockNumber y)%Z = false)
      by (apply Z.ltb_ge; lia).
    assert (H2 : (e_blockNumber x =? e_blockNumber y)%Z = false)
      by (apply Z.eqb_neq; lia).
    now rewrite H1, H2.
Qed.

Lemma positionLeb_spec (p q : Z * Z) :
  TemporalSpec.positionLeb p q = true <-> TemporalSpec.positionLe p q.
Proof.
  unfold TemporalSpec.positionLeb, TemporalSpec.positionLe.
  destruct (Z.compare_spec (fst p) (fst q)) as [H|H|H].
  - rewrite Z.leb_le. lia.
  - split; [lia|reflexivity].
  - split; [discriminate|lia].
Qed.

Lemma sortBy_inPositionOrder (l : list Event) :
  sortBy eventLeAsc l = TemporalSpec.inPositionOrder l.
Proof.
  unfold sortBy, TemporalSpec.inPositionOrder.
  induction l as [|e l IH]; simpl; [reflexivity|].
  rewrite IH. generalize (fold_right TemporalSpec.insertAtPosition [] l).
  intros o. induction o as [|x o IHo]; simpl; [reflexivity|].
  rewrite eventLeAsc_position.
  destruct (TemporalSpec.positionLeb _ _); [reflexivity|]. now rewrite IHo.
Qed.

(** The two tests of the queries, on the identity and on the block, are
    the selection. *)
Lemma selected_where (address : string) (P : Z) (e : Event) :
  forIdentity address e && lessThanOrEqual P e
  = TemporalSpec.selected address P e.
Proof.
  unfold forIdentity, lessThanOrEqual, TemporalSpec.selected,
    TemporalSpec.sameAddress, TemporalSpec.identityOf, argsIdentity.
  now destruct (e_args e).
Qed.

(** The selection of the specification, as the queries compute it. *)
Lemma selectEvents_code (log : list Event) (address : string) (P : Z) :
  TemporalSpec.selectEvents log address P
  = sortBy eventLeAsc
           (filter (fun e => forIdentity address e && lessThanOrEqual P e)
                   log).
Proof.
  unfold TemporalSpec.selectEvents.
  rewrite <- sortBy_inPositionOrder.
  rewrite (filter_sortBy _ eventLeAsc_total eventLeAsc_trans).
  apply f_equal, filter_ext. intros e. symmetry. apply selected_where.
Qed.

(** The events [resolveAtBlock] replays are the selection the
    specification describes. *)
Lemma identityEvents_select (db : Db) (address : string) (blockNumber : Z) :
  identityEvents db address blockNumber
  = TemporalSpec.selectEvents (events db) address blockNumber.
Proof.
  rewrite selectEvents_code. unfold identityEvents, findEvents.
  rewrite (filter_sortBy _ eventLeAsc_total eventLeAsc_trans).
  now rewrite filter_and.
Qed.

Lemma selectEvents_perm (log : list Event) (address : string) (P : Z) :
  Permutation (TemporalSpec.selectEvents log address P)
              (filter (TemporalSpec.selected address P) log).
Proof.
  rewrite selectEvents_code.
  rewrite (filter_ext _ _ (selected_where address P)).
  apply sortBy_perm.
Qed.

Lemma selectEvents_In (log : list Event) (address : string) (P : Z) (e : Event) :
  In e (TemporalSpec.selectEvents log address P)
  <-> In e log /\ forIdentity address e = true /\ (e_blockNumber e <= P)%Z.
Proof.
  rewrite selectEvents_code.
  rewrite sortBy_In, filter_In, andb_true_iff.
  unfold lessThanOrEqual. now rewrite Z.leb_le.
Qed.

Lemma selectEvents_sorted (log : list Event) (address : string) (P : Z) :
  StronglySorted (fun a b => eventLeAsc a b = true)
                 (TemporalSpec.selectEvents log address P).
Proof.
  rewrite selectEvents_code.
  apply (sortBy_sorted _ eventLeAsc_total eventLeAsc_trans).
Qed.

Lemma selectEvents_in_position_order (log : list Event) (address : string)
      (P : Z) :
  StronglySorted (fun a b => TemporalSpec.positionLe (TemporalSpec.positionOf a)
                                                     (TemporalSpec.positionOf b))
                 (TemporalSpec.selectEvents log address P).
Proof.
  pose proof (selectEvents_sorted log address P) as H.
  induction H as [|x l Hs IH Hx]; constructor; [exact IH|].
  eapply Forall_impl; [|exact Hx]. intros y Hy. cbv beta in Hy.
  rewrite eventLeAsc_position in Hy. now apply positionLeb_spec.
Qed.
End EventOrder.

(* ================================================================== *)
(** * Replay of the event log *)
(* ================================================================== *)

Section MapFacts.
Import Js.

Context {K V : Type} (keq : K -> K -> bool).
Hypothesis keq_eq : forall a b, keq a b = true <-> a = b.

Lemma keq_refl (a : K) : keq a a = true.
Proof. now apply keq_eq. Qed.

(** Reading a map after a write: the written key answers the written
    value, every other key is untouched. *)
Lemma mapGet_mapSet (k k' : K) (v : V) (m : list (K * V)) :
  mapGet keq k (mapSet keq k' v m)
  = if keq k' k then Some v else mapGet keq k m.
Proof.
  induction m as [|[k1 v1] m IH]; simpl; [reflexivity|].
  destruct (keq k1 k') eqn:E1; simpl.
  - apply keq_eq in E1. subst k1.
    destruct (keq k' k); reflexivity.
  - rewrite IH. destruct (keq k1 k) eqn:E2; [|reflexivity].
    apply keq_eq in E2. subst k1.
    destruct (keq k' k) eqn:E3; [|reflexivity].
    apply keq_eq in E3. subst k'. rewrite keq_refl in E1. discriminate.
Qed.

Lemma mapSet_keys (k : K) (v : V) (m : list (K * V)) (x : K) :
  In x (mapKeys (mapSet keq k v m)) <-> x = k \/ In x (mapKeys m).
Proof.
  unfold mapKeys.
  induction m as [|[k1 v1] m IH]; simpl; [intuition|].
  destruct (keq k1 k) eqn:E; simpl.
  - apply keq_eq in E. subst. intuition.
  - rewrite IH. intuition.
Qed.



End MapFacts.

Section MapEncoding.
Import Js.

Context {K V K' V' : Type} (keq : K -> K -> bool) (keq' : K' -> K' -> bool).
Variable fk : K -> K'.
Variable fv : K -> V -> V'.

Let enc (kv : K * V) : K' * V' := (fk (fst kv), fv (fst kv) (snd kv)).

(** Writing under the encoded key is writing under the key, as long as
    the encoding tells the key from those present. *)
Lemma mapSet_encoded (k : K) (v : V) (m : list (K * V)) :
  (forall k1, In k1 (mapKeys m) -> keq' (fk k1) (fk k) = keq k1 k) ->
  mapSet keq' (fk k) (fv k v) (List.map enc m)
  = List.map enc (mapSet keq k v m).
Proof.
  unfold mapKeys.
  induction m as [|[k1 v1] m IH]; simpl; intros H; [reflexivity|].
  rewrite (H k1 (or_introl eq_refl)).
  destruct (keq k1 k); [reflexivity|].
  simpl. f_equal. apply IH. intros k2 Hk2. apply H. now right.
Qed.
End MapEncoding.

Section KeyText.
Import Js DidService Representation.

Lemma noColon_toLowerCase (s : string) :
  noColon (toLowerCase s) = noColon s.
Proof.
  induction s as [|c r IH]; simpl; [reflexivity|].
  now rewrite lowerChar_colon, IH.
Qed.

Lemma split_plain (s : string) : noColon s = true -> split ":" s = [s].
Proof.
  induction s as [|c r IH]; simpl; [reflexivity|].
  intros H. apply andb_true_iff in H. destruct H as [Hc Hr].
  apply negb_true_iff in Hc. rewrite Hc, (IH Hr). reflexivity.
Qed.

(** A [:]-free address is read back from the key text, whatever the
    type in front of it. *)
Lemma keyText_inj (t t' a a' : string) :
  noColon a = true -> noColon a' = true ->
  t ++ ":" ++ a = t' ++ ":" ++ a' -> t = t' /\ a = a'.
Proof.
  intros Ha Ha'. revert t'.
  induction t as [|c t IH]; intros [|c' t'] H; simpl in H.
  - inversion H. now split.
  - inversion H as [[Hc Hr]]. subst a.
    exfalso. clear - Ha. induction t' as [|x t' IH]; simpl in Ha.
    + discriminate.
    + apply andb_true_iff in Ha. destruct Ha. auto.
  - inversion H as [[Hc Hr]]. subst a'.
    exfalso. clear - Ha'. induction t as [|x t IH]; simpl in Ha'.
    + discriminate.
    + apply andb_true_iff in Ha'. destruct Ha'. auto.
  - inversion H as [[Hc Hr]]. destruct (IH _ Hr) as [-> ->]. now split.
Qed.

Lemma delegateKeyEq_eq (k1 k2 : TemporalSpec.DelegateKey) :
  TemporalSpec.delegateKeyEq k1 k2 = true <-> k1 = k2.
Proof.
  destruct k1 as [t1 a1], k2 as [t2 a2]. unfold TemporalSpec.delegateKeyEq.
  simpl. rewrite andb_true_iff, !String.eqb_eq.
  split; [intros [-> ->]; reflexivity|intros H; inversion H; now split].
Qed.

Lemma keyText_eqb (k1 k2 : TemporalSpec.DelegateKey) :
  addressPlain k1 -> addressPlain k2 ->
  (keyText k1 =? keyText k2) = TemporalSpec.delegateKeyEq k1 k2.
Proof.
  intros H1 H2.
  destruct (TemporalSpec.delegateKeyEq k1 k2) eqn:E.
  - apply delegateKeyEq_eq in E. subst. apply String.eqb_refl.
  - apply String.eqb_neq. intros Heq.
    destruct k1 as [t1 a1], k2 as [t2 a2]. unfold keyText in Heq.
    simpl in Heq. apply keyText_inj in Heq; auto.
    destruct Heq as [-> ->].
    assert (TemporalSpec.delegateKeyEq (t2, a2) (t2, a2) = true)
      by now apply delegateKeyEq_eq.
    congruence.
Qed.

End KeyText.

Section Replay.
Import Js DidService Representation.

Lemma replayLoop_fold (evs : list Event) (maxBlock : Z) (st : Replay) :
  Forall (fun e => (e_blockNumber e <= maxBlock)%Z) evs ->
  replayLoop evs maxBlock st = fold_left replayEvent evs st.
Proof.
  intros H. revert st.
  induction H as [|e evs He _ IH]; intros st; simpl; [reflexivity|].
  replace (maxBlock <? e_blockNumber e)%Z with false
    by (symmetry; apply Z.ltb_ge; exact He).
  apply IH.
Qed.

(** One round of the loop keeps the representation. *)
Lemma replayEvent_represents (identity : string) (st : Replay)
      (s : TemporalSpec.State) (e : Event) :
  represents identity st s ->
  Forall addressPlain (mapKeys (TemporalSpec.delegates s)) ->
  delegateAddressOk e = true ->
  represents identity (replayEvent st e) (TemporalSpec.applyEvent s e)
  /\ Forall addressPlain
            (mapKeys (TemporalSpec.delegates (TemporalSpec.applyEvent s e))).
Proof.
  intros (Ho & Hd & Ha) Hplain Hok.
  unfold replayEvent, TemporalSpec.applyEvent, delegateAddressOk in *.
  destruct (e_args e) as [i o pc|i t d v pc|i n x v pc].
  - split; [|exact Hplain]. repeat split; assumption.
  - assert (Hk : addressPlain (t, toLowerCase d))
      by (unfold addressPlain; simpl; now rewrite noColon_toLowerCase).
    split.
    + repeat split; cbn [r_owner r_delegatesMap r_attributesMap
                         TemporalSpec.owner TemporalSpec.delegates
                         TemporalSpec.attributes]; try assumption.
      rewrite Hd.
      apply (mapSet_encoded TemporalSpec.delegateKeyEq String.eqb keyText
               (fun k w => mkDelegateEntry (fst k) (snd k) w)
               (t, toLowerCase d) v).
      intros k1 Hk1. rewrite Forall_forall in Hplain.
      apply keyText_eqb; auto.
    + cbn [TemporalSpec.delegates]. apply Forall_forall. intros k1 Hk1.
      apply (mapSet_keys _ delegateKeyEq_eq) in Hk1.
      destruct Hk1 as [->|Hk1]; [exact Hk|].
      rewrite Forall_forall in Hplain. auto.
  - split; [|exact Hplain].
    repeat split; cbn [r_owner r_delegatesMap r_attributesMap
                       TemporalSpec.owner TemporalSpec.delegates
                       TemporalSpec.attributes]; try assumption.
    rewrite Ha.
    apply (mapSet_encoded String.eqb String.eqb (fun k => k)
             (fun k w => mkAttributeEntry k (fst w) (snd w)) n (x, v)).
    reflexivity.
Qed.

Lemma replay_represents (identity : string) (evs : list Event) :
  forall (st : Replay) (s : TemporalSpec.State),
    represents identity st s ->
    Forall addressPlain (mapKeys (TemporalSpec.delegates s)) ->
    Forall (fun e => delegateAddressOk e = true) evs ->
    represents identity (fold_left replayEvent evs st)
               (fold_left TemporalSpec.applyEvent evs s).
Proof.
  induction evs as [|e evs IH]; intros st s Hr Hp Hok; simpl; [exact Hr|].
  inversion Hok as [|? ? He Hrest]; subst.
  destruct (replayEvent_represents identity st s e Hr Hp He) as [Hr' Hp'].
  now apply IH.
Qed.

(** *** Latest event per key *)

Lemma stateAt_owner (evs : list Event) :
  forall s : TemporalSpec.State,
    TemporalSpec.owner (fold_left TemporalSpec.applyEvent evs s)
    = TemporalSpec.latestOwnerChange evs (TemporalSpec.owner s).
Proof.
  unfold TemporalSpec.latestOwnerChange.
  induction evs as [|e evs IH]; intros s; simpl; [reflexivity|].
  rewrite IH. f_equal.
  unfold TemporalSpec.applyEvent. destruct (e_args e); reflexivity.
Qed.

Lemma stateAt_delegate (k : TemporalSpec.DelegateKey) (evs : list Event) :
  forall (s : TemporalSpec.State) (acc : option Z),
    mapGet TemporalSpec.delegateKeyEq k (TemporalSpec.delegates s) = acc ->
    mapGet TemporalSpec.delegateKeyEq k
           (TemporalSpec.delegates (fold_left TemporalSpec.applyEvent evs s))
    = fold_left
        (fun acc e =>
           match e_args e with
           | DelegateChangedArgs _ delegateType delegate validTo _ =>
               if TemporalSpec.delegateKeyEq
                    (delegateType, toLowerCase delegate) k
               then Some validTo else acc
           | _ => acc
           end)
        evs acc.
Proof.
  induction evs as [|e evs IH]; intros s acc H; simpl; [exact H|].
  apply IH. unfold TemporalSpec.applyEvent.
  destruct (e_args e); cbn [TemporalSpec.delegates]; try exact H.
  rewrite (mapGet_mapSet _ delegateKeyEq_eq). now rewrite H.
Qed.

Lemma stateAt_attribute (k : string) (evs : list Event) :
  forall (s : TemporalSpec.State) (acc : option (string * Z)),
    mapGet String.eqb k (TemporalSpec.attributes s) = acc ->
    mapGet String.eqb k
           (TemporalSpec.attributes (fold_left TemporalSpec.applyEvent evs s))
    = fold_left
        (fun acc e =>
           match e_args e with
           | AttributeChangedArgs _ name value validTo _ =>
               if name =? k then Some (value, validTo) else acc
           | _ => acc
           end)
        evs acc.
Proof.
  induction evs as [|e evs IH]; intros s acc H; simpl; [exact H|].
  apply IH. unfold TemporalSpec.applyEvent.
  destruct (e_args e); cbn [TemporalSpec.attributes]; try exact H.
  rewrite (mapGet_mapSet _ String.eqb_eq). now rewrite H.
Qed.

(** The document of a null owner is the document of the identity as its
    own owner. *)
Lemma buildDidDocument_self (nowMs : Z) (address : string)
      (owner : option string) (ds : list Delegate) (ats : list Attribute) :
  buildDidDocument nowMs address owner ds ats
  = buildDidDocument nowMs address (Some (ownerOrSelf address owner)) ds ats.
Proof.
  destruct owner as [o|]; [reflexivity|].
  unfold buildDidDocument, ownerOrSelf.
  rewrite String.eqb_refl. simpl negb. rewrite andb_false_r.
  destruct (truthy address); reflexivity.
Qed.
End Replay.

Section StateAt.
Import Js DidService Representation Scenario.

Lemma reconstruct_represents (log : list Event) (identity : string) (P : Z) :
  Forall (fun e => delegateAddressOk e = true) log ->
  let evs := TemporalSpec.selectEvents log identity P in
  represents identity
             (replayLoop evs P (mkReplay None [] []))
             (TemporalSpec.stateAt log identity P).
Proof.
  intros Hok evs.
  rewrite replayLoop_fold.
  - apply replay_represents.
    + repeat split.
    + constructor.
    + apply Forall_forall. intros e He.
      apply selectEvents_In in He. destruct He as [He _].
      rewrite Forall_forall in Hok. now apply Hok.
  - apply Forall_forall. intros e He.
    apply selectEvents_In in He. tauto.
Qed.

(** C1.  The state [resolveAtBlock] reconstructs for an identity at a
    block is the left-to-right fold of exactly the events of that identity
    at positions up to the block, in position order: the events the code
    queries and replays are the selection of the specification, which holds
    each event about the identity with a block of at most [P] once, ordered
    by block and then by sequence number; the owner is the identity itself
    (held as null, which the builder reads as self) until an owner change
    overwrites it, delegates and attributes start empty and the latest event
    per key (delegate type and address, attribute name) wins; the document
    returned is built from that state. *)
Theorem resolveAtBlock_replays_prefix (db : Db) (nowMs : Z) (did : string)
        (P : Z) :
  Forall (fun e => delegateAddressOk e = true) (events db) ->
  let i := extractAddress did in
  let evs := identityEvents db i P in
  let hs := reconstructStateFromEvents i evs P in
  let s := TemporalSpec.stateAt (events db) i P in
  evs = TemporalSpec.selectEvents (events db) i P
  /\ Permutation evs (filter (TemporalSpec.selected i P) (events db))
  /\ (forall e, In e evs
                <-> In e (events db)
                    /\ toLowerCase (TemporalSpec.identityOf e) = i
                    /\ (e_blockNumber e <= P)%Z)
  /\ StronglySorted
       (fun a b => (e_blockNumber a < e_blockNumber b
                    \/ (e_blockNumber a = e_blockNumber b
                        /\ e_id a <= e_id b))%Z)
       evs
  /\ ownerOrSelf i (hs_owner hs) = TemporalSpec.owner s
  /\ hs_delegates hs = TemporalSpec.delegateRows s
  /\ hs_attributes hs = TemporalSpec.attributeRows s
  /\ TemporalSpec.owner s = TemporalSpec.latestOwnerChange evs i
  /\ (forall k, mapGet TemporalSpec.delegateKeyEq k (TemporalSpec.delegates s)
                = TemporalSpec.latestDelegateChange evs k)
  /\ (forall n, mapGet String.eqb n (TemporalSpec.attributes s)
                = TemporalSpec.latestAttributeChange evs n)
  /\ resolveAtBlock db nowMs did P
     = buildDidDocument nowMs i (Some (TemporalSpec.owner s))
                        (TemporalSpec.delegateRows s)
                        (TemporalSpec.attributeRows s).
Proof.
  intros Hok i evs hs s.
  assert (Hevs : evs = TemporalSpec.selectEvents (events db) i P)
    by apply identityEvents_select.
  destruct (reconstruct_represents (events db) i P Hok) as (Ho & Hd & Ha).
  fold s in Ho, Hd, Ha. rewrite <- Hevs in Ho, Hd, Ha.
  assert (Hdel : hs_delegates hs = TemporalSpec.delegateRows s).
  { unfold hs, reconstructStateFromEvents. cbn [hs_delegates].
    rewrite Hd. unfold mapValues, TemporalSpec.delegateRows.
    rewrite !map_map. reflexivity. }
  assert (Hatt : hs_attributes hs = TemporalSpec.attributeRows s).
  { unfold hs, reconstructStateFromEvents. cbn [hs_attributes].
    rewrite Ha. unfold mapValues, TemporalSpec.attributeRows.
    rewrite !map_map. reflexivity. }
  assert (Hi : toLowerCase i = i) by apply extractAddress_idem.
  split; [exact Hevs|]. split; [rewrite Hevs; apply selectEvents_perm|].
  split.
  { intros e. rewrite Hevs.
    pose proof (selectEvents_perm (events db) i P) as Hp.
    split; intros H.
    - apply (Permutation_in _ Hp), filter_In in H. destruct H as [Hin Hsel].
      unfold TemporalSpec.selected, TemporalSpec.sameAddress in Hsel.
      apply andb_true_iff in Hsel. destruct Hsel as [Hid Hblock].
      apply String.eqb_eq in Hid. apply Z.leb_le in Hblock.
      rewrite Hi in Hid. auto.
    - destruct H as (Hin & Hid & Hblock).
      apply (Permutation_in _ (Permutation_sym Hp)), filter_In.
      split; [exact Hin|].
      unfold TemporalSpec.selected, TemporalSpec.sameAddress.
      rewrite Hid, Hi, String.eqb_refl. now apply Z.leb_le. }
  split; [rewrite Hevs; apply selectEvents_in_position_order|].
  repeat split.
  - exact Ho.
  - exact Hdel.
  - exact Hatt.
  - unfold s, TemporalSpec.stateAt. rewrite <- Hevs. apply stateAt_owner.
  - intros k. unfold s, TemporalSpec.stateAt. rewrite <- Hevs.
    now apply stateAt_delegate.
  - intros n. unfold s, TemporalSpec.stateAt. rewrite <- Hevs.
    now apply stateAt_attribute.
  - unfold resolveAtBlock. fold i evs hs.
    rewrite buildDidDocument_self.
    change (ownerOrSelf i (hs_owner hs))
      with (ownerOrSelf i (r_owner (replayLoop evs P (mkReplay None [] [])))).
    now rewrite Ho, Hdel, Hatt.
Qed.

Lemma resolveAtBlock_replays_prefix_witness :
  Forall (fun e => delegateAddressOk e = true) (events delegateDb)
  /\ hs_delegates
       (reconstructStateFromEvents
          (extractAddress "did:ethr:0xAA")
          (identityEvents delegateDb (extractAddress "did:ethr:0xAA") 5) 5)
     = TemporalSpec.delegateRows
         (TemporalSpec.stateAt (events delegateDb)
                               (extractAddress "did:ethr:0xAA") 5).
Proof.
  assert (H : Forall (fun e => delegateAddressOk e = true) (events delegateDb))
    by (repeat constructor).
  split; [exact H|].
  destruct (resolveAtBlock_replays_prefix delegateDb 1500000
                                          "did:ethr:0xAA" 5 H)
    as (_ & _ & _ & _ & _ & Hd & _).
  exact Hd.
Defined.
End StateAt.

(* ================================================================== *)
(** * Authority at a block *)
(* ================================================================== *)

Section OwnerAtBlock.
Import Js DidService Representation.







End OwnerAtBlock.

Section DelegateAtBlock.
Import Js DidService Representation.








End DelegateAtBlock.

(* ================================================================== *)
(** * Authority at issuance *)
(* ================================================================== *)

Section AuthorityAtIssuance.
Import Js DidService CredentialService Representation.

Variable JSON_stringify : CredentialPayload -> string.
Variable verifyMessage : string -> string -> result string.
Variable dateOf : string -> Z.
Variable encodeURIComponent : string -> string.
Variable apiBaseUrl : string.

End AuthorityAtIssuance.

Section AuthorityAtInput.
Import Js DidService CredentialService Representation
       Scenario CredentialScenario.




End AuthorityAtInput.

(* ================================================================== *)
(** * The life of a credential *)
(* ================================================================== *)

Section ReplaceFacts.
Import Js.

Lemma replace_unfold (pat rep s : string) :
  replace pat rep s
  = if String.prefix pat s then rep ++ dropChars (String.length pat) s
    else match s with
         | EmptyString => EmptyString
         | String c r => String c (replace pat rep r)
         end.
Proof. destruct s; reflexivity. Qed.

Lemma prefix_app (pat s : string) : String.prefix pat (pat ++ s) = true.
Proof.
  induction pat as [|c pat IH]; simpl.
  - now destruct s.
  - destruct (ascii_dec c c) as [_|Hn]; [exact IH|now destruct Hn].
Qed.

Lemma dropChars_app (pat s : string) :
  dropChars (String.length pat) (pat ++ s) = s.
Proof.
  induction pat as [|c pat IH]; simpl; [now destruct s|exact IH].
Qed.

(** Stripping the [urn:uuid:] prefix gives the uuid back. *)
Lemma replace_prefix (pat s : string) :
  replace pat EmptyString (pat ++ s) = s.
Proof.
  now rewrite replace_unfold, prefix_app, dropChars_app.
Qed.
End ReplaceFacts.

Section CredentialLife.
Import Js CredentialService CredentialLifecycle.

Variable JSON_stringify : CredentialPayload -> string.
Variable verifyMessage : string -> string -> result string.
Variable dateOf : string -> Z.
Variable encodeURIComponent : string -> string.
Variable apiBaseUrl : string.

Let issue' := issue JSON_stringify verifyMessage encodeURIComponent apiBaseUrl.
Let verify' := verify JSON_stringify verifyMessage dateOf encodeURIComponent
                      apiBaseUrl.
Let getStatus' := getStatus dateOf encodeURIComponent apiBaseUrl.
Let revoke' := revoke verifyMessage.
Let findById' := findById encodeURIComponent apiBaseUrl.
Let findByIssuer' := findByIssuer encodeURIComponent apiBaseUrl.
Let findBySubject' := findBySubject encodeURIComponent apiBaseUrl.
Let toVC := toVerifiableCredential encodeURIComponent apiBaseUrl.

Let issueMessage := CredentialLifecycle.issueMessage JSON_stringify.

Lemma checkSigner_done (message signature expected : string) :
  checkSigner verifyMessage message signature expected = Done tt
  <-> exists recovered,
      verifyMessage message signature = Ok recovered
      /\ toLowerCase recovered = toLowerCase expected.
Proof.
  unfold checkSigner.
  destruct (verifyMessage message signature) as [r|msg].
  - destruct (toLowerCase r =? toLowerCase expected) eqn:E.
    + apply String.eqb_eq in E. split; [eauto|reflexivity].
    + apply String.eqb_neq in E. split; [discriminate|].
      intros (r' & Hr & Heq). inversion Hr; subst. contradiction.
  - split; [discriminate|]. intros (r' & Hr & _). discriminate.
Qed.

Lemma checkSigner_rejected (message signature expected : string) (e : HttpError) :
  checkSigner verifyMessage message signature expected = Rejected e ->
  e = BadRequest "Invalid signature format".
Proof.
  unfold checkSigner.
  destruct (verifyMessage message signature) as [r|msg];
    [destruct (_ =? _)|]; intros H; inversion H; reflexivity.
Qed.

Lemma issue_done (credentials : list Credential) (id : string)
      (dto : IssueCredentialDto) (vc : VerifiableCredential)
      (credentials' : list Credential) :
  issue' credentials id dto = Done (vc, credentials') ->
  (exists recovered,
      verifyMessage (issueMessage dto) (dto_signature dto) = Ok recovered
      /\ toLowerCase recovered = toLowerCase (dto_issuerAddress dto))
  /\ credentials' = (credentials ++ [issuedRow id dto])%list
  /\ vc_id vc = "urn:uuid:" ++ id
  /\ (orUndefined (dto_expirationDate dto) = dto_expirationDate dto ->
      vc = toVC (issuedRow id dto)).
Proof.
  unfold issue', issue, issueMessage, CredentialLifecycle.issueMessage.
  destruct (checkSigner _ _ _ _) as [[]|e] eqn:E; [|discriminate].
  apply checkSigner_done in E. intros H. inversion H; subst.
  repeat split; try assumption.
  intros Hexp. unfold toVC, toVerifiableCredential, issuedRow.
  cbn [c_id c_type c_issuer c_issuanceDate c_expirationDate c_subject
            c_claims c_proof].
  now rewrite Hexp.
Qed.

(** [issue] accepts a request exactly when the signature recovers the
    issuer address (letter case apart); every rejection, the mismatch of
    signer and issuer included, is the one [BadRequest] with the text
    "Invalid signature format"; an accepted request adds one row and
    changes no other. *)
Theorem issue_accepts_or_rejects_uniformly (credentials : list Credential)
        (id : string) (dto : IssueCredentialDto) :
  match issue' credentials id dto with
  | Done (vc, credentials') =>
      (exists recovered,
          verifyMessage (issueMessage dto) (dto_signature dto) = Ok recovered
          /\ toLowerCase recovered = toLowerCase (dto_issuerAddress dto))
      /\ credentials' = (credentials ++ [issuedRow id dto])%list
      /\ vc_issuer vc = "did:ethr:" ++ toLowerCase (dto_issuerAddress dto)
  | Rejected e =>
      e = BadRequest "Invalid signature format"
      /\ (forall recovered,
             verifyMessage (issueMessage dto) (dto_signature dto) = Ok recovered ->
             toLowerCase recovered <> toLowerCase (dto_issuerAddress dto))
  end.
Proof.
  destruct (issue' credentials id dto) as [[vc credentials']|e] eqn:E.
  - destruct (issue_done _ _ _ _ _ E) as (Hrec & Hrows & _).
    repeat split; try assumption.
    unfold issue', issue in E.
    destruct (checkSigner _ _ _ _); inversion E; reflexivity.
  - unfold issue', issue in E.
    unfold issueMessage, CredentialLifecycle.issueMessage.
    destruct (checkSigner _ _ _ _) as [[]|e'] eqn:C; inversion E; subst.
    split; [exact (checkSigner_rejected _ _ _ _ C)|].
    intros recovered Hr Heq.
    assert (Hd : checkSigner verifyMessage _
                             (dto_signature dto) (dto_issuerAddress dto)
                 = Done tt) by (apply checkSigner_done; eauto).
    congruence.
Qed.

Lemma findCredential_fresh (credentials : list Credential) (row : Credential) :
  findCredential credentials (c_id row) = None ->
  findCredential (credentials ++ [row]) (c_id row) = Some row.
Proof.
  intros H. unfold findCredential in *.
  apply find_app_none; [exact H|apply String.eqb_refl].
Qed.

(** Round trip: the credential [issue] returns is the one [findById]
    returns for its id, when the uuid is new to the table and the
    expiration date is not the empty string. *)
Theorem issue_then_findById (credentials : list Credential) (id : string)
        (dto : IssueCredentialDto) (vc : VerifiableCredential)
        (credentials' : list Credential) :
  issue' credentials id dto = Done (vc, credentials') ->
  findCredential credentials id = None ->
  orUndefined (dto_expirationDate dto) = dto_expirationDate dto ->
  findById' credentials' (vc_id vc) = Done vc.
Proof.
  intros Hissue Hfresh Hexp.
  destruct (issue_done _ _ _ _ _ Hissue) as (_ & Hrows & Hid & Hvc).
  assert (Hfind : findCredential (credentials ++ [issuedRow id dto]) id
                  = Some (issuedRow id dto))
    by (apply (findCredential_fresh credentials (issuedRow id dto)); exact Hfresh).
  unfold findById', findById. rewrite Hid, replace_prefix, Hrows, Hfind.
  now rewrite (Hvc Hexp).
Qed.

(** A credential just issued passes the signature check and the
    revocation check of [verify], so that its validity is decided by the
    authority check and the expiry check alone.  The expiration date is
    absent or not the empty text ([verify] signs off an empty one as absent,
    [issue] does not); the issuer address is plain hexadecimal text; and the
    credential has at most one claim, which the JSON column of the table
    gives back as it was written, whereas it may give back several claims
    in another order than the one that was signed. *)
Theorem issue_then_verify (api : DidServiceApi) (credentials : list Credential)
        (id : string) (dto : IssueCredentialDto) (vc : VerifiableCredential)
        (credentials' : list Credential) (nowMs : Z) :
  issue' credentials id dto = Done (vc, credentials') ->
  findCredential credentials id = None ->
  orUndefined (dto_expirationDate dto) = dto_expirationDate dto ->
  noColon (dto_issuerAddress dto) = true ->
  (List.length (dto_claims dto) <= 1)%nat ->
  let r := fst (verify' api credentials' nowMs (vc_id vc)) in
  signature (checks r) = true
  /\ notRevoked (checks r) = true
  /\ error r = None
  /\ valid r = signerValidAtIssuance (checks r) && notExpired (checks r).
Proof.
  intros Hissue Hfresh Hexp Hplain _.
  destruct (issue_done _ _ _ _ _ Hissue) as ((rec & Hrec & Hlow) & Hrows & Hid & _).
  assert (Hfind : findCredential (credentials ++ [issuedRow id dto]) id
                  = Some (issuedRow id dto))
    by (apply (findCredential_fresh credentials (issuedRow id dto)); exact Hfresh).
  unfold verify', verify. rewrite Hid, replace_prefix, Hrows, Hfind.
  assert (Hsig : checkSignature JSON_stringify verifyMessage (issuedRow id dto)
                 = (true, rec)).
  { unfold checkSignature.
    cbn [issuedRow c_type c_issuer c_issuanceDate c_expirationDate c_subject
                   c_claims c_proof p_proofValue].
    rewrite Hexp.
    unfold issueMessage, CredentialLifecycle.issueMessage in Hrec.
    rewrite Hrec.
    rewrite (lastOf_last _ (split_not_nil _ _)), extractAddress_prefixed.
    rewrite split_plain by (now rewrite noColon_toLowerCase).
    cbn [List.last]. rewrite toLowerCase_idem, Hlow, String.eqb_refl.
    reflexivity. }
  rewrite Hsig.
  destruct (checkSignerAtIssuance _ _ _ _ _) as [[signerOk ownerAt] log].
  cbn [fst valid checks signature notRevoked error signerValidAtIssuance
           notExpired issuedRow c_status statusEq].
  repeat split. simpl. now rewrite andb_true_r.
Qed.

Lemma findCredential_updated (credentials : list Credential)
      (cred : Credential) (status : CredentialStatus) :
  findCredential credentials (c_id cred) = Some cred ->
  findCredential (updateCredential credentials (withStatus cred status))
                 (c_id cred)
  = Some (withStatus cred status).
Proof.
  intros H. unfold findCredential, updateCredential in *.
  cbn [withStatus c_id].
  apply (find_after_update _ (fun c => c_id c =? c_id cred) _ cred); auto;
    apply String.eqb_refl.
Qed.

Lemma findCredential_id (credentials : list Credential) (uuid : string)
      (cred : Credential) :
  findCredential credentials uuid = Some cred -> c_id cred = uuid.
Proof.
  intros H. apply find_some in H. now apply String.eqb_eq.
Qed.

Lemma revoke_done (credentials : list Credential)
      (credentialId issuerAddress sig : string) (res : RevokeResult)
      (credentials' : list Credential) :
  revoke' credentials credentialId issuerAddress sig = Done (res, credentials') ->
  exists cred,
    findCredential credentials (replace "urn:uuid:" EmptyString credentialId)
    = Some cred
    /\ toLowerCase (c_issuer cred)
       = toLowerCase ("did:ethr:" ++ toLowerCase issuerAddress)
    /\ checkSigner verifyMessage ("Revoke credential: " ++ credentialId) sig
                   issuerAddress = Done tt
    /\ credentials' = updateCredential credentials (withStatus cred REVOKED)
    /\ res = mkRevokeResult true "Credential revoked successfully".
Proof.
  unfold revoke', revoke.
  destruct (findCredential credentials _) as [cred|] eqn:F; [|discriminate].
  destruct (toLowerCase (c_issuer cred) =? _) eqn:E; [|discriminate].
  cbn [negb].
  destruct (checkSigner _ _ _ _) as [[]|e] eqn:C; [|discriminate].
  intros H. inversion H; subst. exists cred.
  apply String.eqb_eq in E. repeat split; assumption.
Qed.

(** After a successful [revoke], [getStatus] reports "revoked" and
    [verify] fails the revocation check and the credential as a whole,
    while its other three checks answer as before; the table keeps its rows,
    those under another id untouched; and a second [revoke] with the same
    arguments succeeds again and changes nothing. *)
Theorem revoke_then_verify (api : DidServiceApi) (credentials : list Credential)
        (credentialId issuerAddress sig : string) (res : RevokeResult)
        (credentials' : list Credential) (nowMs : Z) :
  revoke' credentials credentialId issuerAddress sig = Done (res, credentials') ->
  let before := fst (verify' api credentials nowMs credentialId) in
  let after := fst (verify' api credentials' nowMs credentialId) in
  option_map si_status
    (match getStatus' credentials' nowMs credentialId with
     | Done info => Some info
     | Rejected _ => None
     end) = Some "revoked"
  /\ notRevoked (checks after) = false
  /\ valid after = false
  /\ signature (checks after) = signature (checks before)
  /\ signerValidAtIssuance (checks after) = signerValidAtIssuance (checks before)
  /\ notExpired (checks after) = notExpired (checks before)
  /\ List.map c_id credentials' = List.map c_id credentials
  /\ (forall c, In c credentials ->
                c_id c <> replace "urn:uuid:" EmptyString credentialId ->
                In c credentials')
  /\ revoke' credentials' credentialId issuerAddress sig = Done (res, credentials').
Proof.
  intros Hrev before after.
  destruct (revoke_done _ _ _ _ _ _ Hrev) as (cred & Hfind & Hiss & Hsig & Hrows & Hres).
  pose proof (findCredential_id _ _ _ Hfind) as Hid.
  assert (Hfind' : findCredential credentials'
                     (replace "urn:uuid:" EmptyString credentialId)
                   = Some (withStatus cred REVOKED)).
  { rewrite Hrows, <- Hid. apply findCredential_updated. now rewrite Hid. }
  assert (Hmap : List.map c_id credentials' = List.map c_id credentials).
  { rewrite Hrows. unfold updateCredential. rewrite map_map.
    apply map_ext_in. intros c Hc. cbn [withStatus c_id].
    destruct (c_id c =? c_id cred) eqn:E; [|reflexivity].
    apply String.eqb_eq in E. now rewrite E. }
  split; [|split; [|split; [|split; [|split; [|split; [|split; [|split]]]]]]].
  - unfold getStatus', getStatus. now rewrite Hfind'.
  - unfold after, verify', verify. rewrite Hfind'.
    destruct (checkSignature _ _ _) as [s1 r1].
    destruct (checkSignerAtIssuance _ _ _ _ _) as [[s2 o2] l2]. reflexivity.
  - unfold after, verify', verify. rewrite Hfind'.
    destruct (checkSignature _ _ _) as [s1 r1].
    destruct (checkSignerAtIssuance _ _ _ _ _) as [[s2 o2] l2].
    cbn. now rewrite andb_false_r.
  - unfold after, before, verify', verify. rewrite Hfind, Hfind'.
    change (checkSignature JSON_stringify verifyMessage (withStatus cred REVOKED))
      with (checkSignature JSON_stringify verifyMessage cred).
    destruct (checkSignature _ _ cred) as [s1 r1].
    change (checkSignerAtIssuance dateOf api (withStatus cred REVOKED) s1 r1)
      with (checkSignerAtIssuance dateOf api cred s1 r1).
    destruct (checkSignerAtIssuance _ _ _ _ _) as [[s2 o2] l2]. reflexivity.
  - unfold after, before, verify', verify. rewrite Hfind, Hfind'.
    change (checkSignature JSON_stringify verifyMessage (withStatus cred REVOKED))
      with (checkSignature JSON_stringify verifyMessage cred).
    destruct (checkSignature _ _ cred) as [s1 r1].
    change (checkSignerAtIssuance dateOf api (withStatus cred REVOKED) s1 r1)
      with (checkSignerAtIssuance dateOf api cred s1 r1).
    destruct (checkSignerAtIssuance _ _ _ _ _) as [[s2 o2] l2]. reflexivity.
  - unfold after, before, verify', verify. rewrite Hfind, Hfind'.
    change (checkSignature JSON_stringify verifyMessage (withStatus cred REVOKED))
      with (checkSignature JSON_stringify verifyMessage cred).
    destruct (checkSignature _ _ cred) as [s1 r1].
    change (checkSignerAtIssuance dateOf api (withStatus cred REVOKED) s1 r1)
      with (checkSignerAtIssuance dateOf api cred s1 r1).
    destruct (checkSignerAtIssuance _ _ _ _ _) as [[s2 o2] l2]. reflexivity.
  - exact Hmap.
  - intros c Hc Hne. rewrite Hrows. unfold updateCredential.
    apply in_map_iff. exists c. split; [|exact Hc].
    cbn [withStatus c_id].
    destruct (c_id c =? c_id cred) eqn:E; [|reflexivity].
    apply String.eqb_eq in E. rewrite Hid in E. contradiction.
  - unfold revoke', revoke. rewrite Hfind'.
    cbn [withStatus c_issuer]. rewrite Hiss, String.eqb_refl. cbn [negb].
    rewrite Hsig. rewrite Hres. do 2 f_equal.
    rewrite Hrows. unfold updateCredential. cbn [withStatus c_id].
    rewrite map_map. apply map_ext. intros c.
    destruct (c_id c =? c_id cred) eqn:E; [|now rewrite E].
    now rewrite String.eqb_refl.
Qed.

(** [getStatus] agrees with [verify]: a credential that passes the
    expiry and revocation checks of [verify] has the status "active" at the
    same clock reading, and one [getStatus] reports as "revoked" fails the
    revocation check. *)
Theorem verify_checks_imply_active (api : DidServiceApi)
        (credentials : list Credential) (nowMs : Z) (credentialId : string) :
  let r := fst (verify' api credentials nowMs credentialId) in
  notExpired (checks r) = true ->
  notRevoked (checks r) = true ->
  getStatus' credentials nowMs credentialId
  = Done {| si_id := statusUrl encodeURIComponent apiBaseUrl credentialId;
            si_type := "CredentialStatusList2021";
            si_status := "active" |}.
Proof.
  unfold verify', verify, getStatus', getStatus.
  destruct (findCredential credentials _) as [cred|]; [|discriminate].
  destruct (checkSignature _ _ cred) as [s1 r1].
  destruct (checkSignerAtIssuance _ _ _ _ _) as [[s2 o2] l2].
  cbn [fst checks notExpired notRevoked]. intros Hexp Hrev.
  destruct (c_status cred); try discriminate. cbn [statusEq].
  destruct (orUndefined (c_expirationDate cred)) as [e|]; [|reflexivity].
  apply Z.ltb_lt in Hexp.
  replace (dateOf e <? nowMs)%Z with false; [reflexivity|].
  symmetry. apply Z.ltb_ge. lia.
Qed.

(** [findByIssuer] and [findBySubject] lowercase the DID they are asked
    for and leave the comparison with the stored text to the database.
    [issue] stores the issuer DID lowercased, so a credential is listed by
    issuer for any letter case of the query, whatever the collation.  It
    stores the subject DID as it was given: under a collation that holds
    texts equal when they differ in letter case only, the credential is
    listed by subject for any letter case of the query, while under one that
    holds only the same text equal every credential listed has an
    all-lowercase subject and a credential issued for a subject DID with an
    uppercase letter is never listed by subject. *)
Theorem issued_listed_by_issuer_and_subject
        (credentials : list Credential) (id : string)
        (dto : IssueCredentialDto) (vc : VerifiableCredential)
        (credentials' : list Credential) :
  issue' credentials id dto = Done (vc, credentials') ->
  findCredential credentials id = None ->
  (forall collate query,
      (forall text, collate text text = true) ->
      toLowerCase query = toLowerCase (vc_issuer vc) ->
      exists listed, In listed (findByIssuer' collate credentials' query)
                     /\ vc_id listed = vc_id vc)
  /\ (forall collate query,
         (forall stored queried,
             toLowerCase stored = toLowerCase queried ->
             collate stored queried = true) ->
         toLowerCase query = toLowerCase (dto_subjectDid dto) ->
         exists listed, In listed (findBySubject' collate credentials' query)
                        /\ vc_id listed = vc_id vc)
  /\ (forall collate,
         (forall stored queried,
             collate stored queried = true -> stored = queried) ->
         (forall query listed,
             In listed (findBySubject' collate credentials' query) ->
             exists row, In row credentials' /\ listed = toVC row
                         /\ toLowerCase (c_subject row) = c_subject row)
         /\ (toLowerCase (dto_subjectDid dto) <> dto_subjectDid dto ->
             forall query listed,
               In listed (findBySubject' collate credentials' query) ->
               vc_id listed <> vc_id vc)).
Proof.
  intros Hissue Hfresh.
  destruct (issue_done _ _ _ _ _ Hissue) as (_ & Hrows & Hid & _).
  assert (Hiss : vc_issuer vc = "did:ethr:" ++ toLowerCase (dto_issuerAddress dto)).
  { unfold issue', issue in Hissue.
    destruct (checkSigner _ _ _ _); inversion Hissue; reflexivity. }
  split; [|split].
  - intros collate query Hrefl Hq. exists (toVC (issuedRow id dto)). split.
    + unfold findByIssuer', findByIssuer. apply in_map.
      unfold newestFirst. apply -> in_rev. apply filter_In. split.
      * rewrite Hrows. apply in_or_app. right. now left.
      * rewrite Hq, Hiss. cbn [issuedRow c_issuer].
        rewrite toLowerCase_app, toLowerCase_idem. apply Hrefl.
    + now rewrite Hid.
  - intros collate query Hci Hq. exists (toVC (issuedRow id dto)). split.
    + unfold findBySubject', findBySubject. apply in_map.
      unfold newestFirst. apply -> in_rev. apply filter_In. split.
      * rewrite Hrows. apply in_or_app. right. now left.
      * apply Hci. cbn [issuedRow c_subject].
        now rewrite toLowerCase_idem, Hq.
    + now rewrite Hid.
  - intros collate Hbin.
    assert (Hsub : forall query listed,
               In listed (findBySubject' collate credentials' query) ->
               exists row, In row credentials' /\ listed = toVC row
                           /\ c_subject row = toLowerCase query).
    { intros query listed Hin. unfold findBySubject', findBySubject in Hin.
      apply in_map_iff in Hin. destruct Hin as (row & <- & Hin).
      unfold newestFirst in Hin. apply in_rev, filter_In in Hin.
      destruct Hin as [Hin Hq]. apply Hbin in Hq. eauto. }
    split.
    + intros query listed Hin.
      destruct (Hsub query listed Hin) as (row & Hrow & Hl & Hs).
      exists row. repeat split; auto. rewrite Hs. apply toLowerCase_idem.
    + intros Hmixed query listed Hin Heq.
      destruct (Hsub query listed Hin) as (row & Hrow & Hl & Hs).
      rewrite Hid, Hl in Heq. cbn in Heq. inversion Heq as [Hrowid].
      rewrite Hrows in Hrow. apply in_app_or in Hrow.
      destruct Hrow as [Hold|[<-|[]]].
      * unfold findCredential in Hfresh.
        apply (find_none _ _ Hfresh) in Hold.
        rewrite Hrowid, String.eqb_refl in Hold. discriminate.
      * cbn [issuedRow c_subject] in Hs. apply Hmixed.
        rewrite Hs. apply toLowerCase_idem.
Qed.
End CredentialLife.

Section CredentialLifeAtInput.
Import Js CredentialService CredentialLifecycle Scenario CredentialScenario
       LifecycleScenario.

Lemma issue_then_findById_witness :
  exists vc table,
    toyIssue [] "c7" degreeDto = Done (vc, table)
    /\ findCredential [] "c7" = None
    /\ orUndefined (dto_expirationDate degreeDto) = dto_expirationDate degreeDto
    /\ toyFindById table (vc_id vc) = Done vc.
Proof.
  eexists. eexists.
  assert (H : toyIssue [] "c7" degreeDto = Done (_, _)) by reflexivity.
  split; [exact H|]. split; [reflexivity|]. split; [reflexivity|].
  exact (issue_then_findById toyStringify toyVerifyMessage toyEncode "http://localhost:3001"
                             [] "c7" degreeDto _ _ H eq_refl eq_refl).
Defined.

Lemma issue_then_verify_witness :
  exists vc table,
    toyIssue [] "c7" degreeDto = Done (vc, table)
    /\ noColon (dto_issuerAddress degreeDto) = true
    /\ signature (checks (fst (toyVerify service table 1600000 (vc_id vc))))
       = true.
Proof.
  eexists. eexists.
  assert (H : toyIssue [] "c7" degreeDto = Done (_, _)) by reflexivity.
  split; [exact H|]. split; [reflexivity|].
  exact (proj1 (issue_then_verify toyStringify toyVerifyMessage toyDateOf
                                  toyEncode "http://localhost:3001" service [] "c7" degreeDto _ _
                                  1600000 H eq_refl eq_refl eq_refl (le_n 1))).
Defined.

Lemma revoke_then_verify_witness :
  exists res table,
    toyRevoke degreeTable "urn:uuid:c7" "0xAA" "0xaa" = Done (res, table)
    /\ notRevoked (checks (fst (toyVerify service table 1600000 "urn:uuid:c7")))
       = false.
Proof.
  eexists. eexists.
  assert (H : toyRevoke degreeTable "urn:uuid:c7" "0xAA" "0xaa" = Done (_, _))
    by reflexivity.
  split; [exact H|].
  exact (proj1 (proj2 (revoke_then_verify
                         toyStringify toyVerifyMessage toyDateOf toyEncode "http://localhost:3001"
                         service degreeTable "urn:uuid:c7" "0xAA" "0xaa" _ _
                         1600000 H))).
Defined.

Lemma verify_checks_imply_active_witness :
  notExpired (checks (fst (toyVerify service degreeTable 1600000 "urn:uuid:c7")))
  = true
  /\ notRevoked (checks (fst (toyVerify service degreeTable 1600000 "urn:uuid:c7")))
     = true
  /\ option_map si_status
       (match toyGetStatus degreeTable 1600000 "urn:uuid:c7" with
        | Done info => Some info
        | Rejected _ => None
        end) = Some "active".
Proof.
  split; [reflexivity|]. split; [reflexivity|].
  unfold toyGetStatus.
  rewrite (verify_checks_imply_active
             toyStringify toyVerifyMessage toyDateOf toyEncode "http://localhost:3001"
             service degreeTable 1600000 "urn:uuid:c7" eq_refl eq_refl).
  reflexivity.
Defined.

Lemma issued_listed_by_issuer_and_subject_witness :
  exists vc table,
    toyIssue [] "c7" degreeDto = Done (vc, table)
    /\ findCredential [] "c7" = None
    /\ (exists listed,
           In listed (toyFindBySubject table "DID:ETHR:0xcc")
           /\ vc_id listed = vc_id vc).
Proof.
  eexists. eexists.
  assert (H : toyIssue [] "c7" degreeDto = Done (_, _)) by reflexivity.
  split; [exact H|]. split; [reflexivity|].
  exact (proj1 (proj2 (issued_listed_by_issuer_and_subject
                         toyStringify toyVerifyMessage toyEncode
                         "http://localhost:3001"
                         [] "c7" degreeDto _ _ H eq_refl))
               caseInsensitiveCollation "DID:ETHR:0xcc"
               (fun stored queried Heq =>
                  proj2 (String.eqb_eq _ _) Heq)
               eq_refl).
Defined.
End CredentialLifeAtInput.

(* ================================================================== *)
(** * More on the Block-Time Index *)
(* ================================================================== *)

Section SearchBounds.
Import Js DidService.

(** Whatever the node answers, the search stays between its bounds. *)
Lemma searchBlock_bounds (p : Provider) (targetTime : Z) (rounds : nat) :
  forall low high,
    (low <= searchBlock p targetTime rounds low high <= Z.max low high)%Z.
Proof.
  induction rounds as [|n IH]; intros low high; simpl; [lia|].
  destruct (low <? high)%Z eqn:Hlt; [|lia].
  apply Z.ltb_lt in Hlt.
  assert (Hmid : (low <= (low + high) / 2 < high)%Z).
  { split; [apply Z.div_le_lower_bound|apply Z.div_lt_upper_bound]; lia. }
  destruct (getBlock p ((low + high) / 2)) as [block|].
  - destruct (b_timestamp block <? targetTime)%Z.
    + specialize (IH ((low + high) / 2 + 1)%Z high). lia.
    + specialize (IH low ((low + high) / 2)%Z). lia.
  - specialize (IH low ((low + high) / 2)%Z). lia.
Qed.

(** When the node has no block at all to show, the search ends on 0. *)
Lemma searchBlock_no_blocks (p : Provider) (targetTime : Z) (rounds : nat) :
  (forall n, getBlock p n = None) ->
  forall high,
    (Z.to_nat (high - 0) <= rounds)%nat ->
    searchBlock p targetTime rounds 0 high = 0%Z.
Proof.
  intros Hnone. induction rounds as [|n IH]; intros high Hfuel; simpl;
    [reflexivity|].
  destruct (0 <? high)%Z eqn:Hlt; [|reflexivity].
  apply Z.ltb_lt in Hlt. rewrite Hnone. apply IH.
  assert ((0 + high) / 2 < high)%Z by (apply Z.div_lt_upper_bound; lia).
  assert (high / 2 < high)%Z by (apply Z.div_lt_upper_bound; lia).
  lia.
Qed.

(** [getBlockByTimestamp] throws exactly when the node shows no latest
    block, with the text "Could not fetch latest block"; otherwise it
    answers a block number between 0 and the head, whatever blocks the node
    serves and whatever their times; and it answers 0 when the node serves
    no block by number. *)
Theorem getBlockByTimestamp_range (p : Provider) (timestampMs : Z) :
  match getBlockByTimestamp p timestampMs with
  | Throw msg =>
      getBlockLatest p = None /\ msg = "Could not fetch latest block"
  | Ok r =>
      exists latest,
        getBlockLatest p = Some latest
        /\ (0 <= r <= Z.max 0 (b_number latest))%Z
        /\ ((forall n, getBlock p n = None) -> r = 0%Z)
  end.
Proof.
  unfold getBlockByTimestamp.
  destruct (getBlockLatest p) as [latest|]; [|split; reflexivity].
  exists latest. split; [reflexivity|]. split.
  - apply searchBlock_bounds.
  - intros Hnone. now apply searchBlock_no_blocks.
Qed.
End SearchBounds.

Section TimeResolution.
Import Js DidService Scenario TimeScenario.

(** On a chain that serves every block up to its head, with block times
    that do not decrease, [getBlockByTimestamp] answers the first block whose
    time is at or after the target second, and the head when every block is
    earlier: all blocks before the answer are earlier than the target, the
    answer itself is not unless it is the head; a target at or before the
    time of block 0 gives 0 and one after the time of the head gives the
    head. *)
Theorem getBlockByTimestamp_first_at_or_after (p : Provider) (latest : Block)
        (ts : Z -> Z) (timestampMs : Z) :
  getBlockLatest p = Some latest ->
  (0 <= b_number latest)%Z ->
  (forall i, (0 <= i <= b_number latest)%Z ->
             getBlock p i = Some (mkBlock i (ts i))) ->
  (forall i j, (0 <= i <= j)%Z -> (j <= b_number latest)%Z ->
               (ts i <= ts j)%Z) ->
  exists r,
    getBlockByTimestamp p timestampMs = Ok r
    /\ (0 <= r <= b_number latest)%Z
    /\ (forall j, (0 <= j < r)%Z -> (ts j < timestampMs / 1000)%Z)
    /\ ((r < b_number latest)%Z -> (timestampMs / 1000 <= ts r)%Z)
    /\ ((timestampMs / 1000 <= ts 0)%Z -> r = 0%Z)
    /\ ((ts (b_number latest) < timestampMs / 1000)%Z -> r = b_number latest).
Proof.
  intros Hlatest Hhead Hserved Hmono.
  unfold getBlockByTimestamp. rewrite Hlatest.
  eexists. split; [reflexivity|].
  destruct (searchBlock_first_at_or_after p (b_number latest) ts
              (timestampMs / 1000) Hserved Hmono Hhead) as (H1 & H2 & H3).
  destruct (searchBlock_ends p (b_number latest) ts
              (timestampMs / 1000) Hserved Hmono Hhead) as (H4 & H5).
  repeat split; try assumption; lia.
Qed.

Lemma sparseChain_served (i : Z) :
  (0 <= i <= 2)%Z ->
  getBlock (providerOfChain sparseChain) i = Some (mkBlock i (sparseTimes i)).
Proof.
  intros H.
  assert (Hi : i = 0%Z \/ i = 1%Z \/ i = 2%Z) by lia.
  destruct Hi as [->|[->| ->]]; reflexivity.
Qed.

Lemma getBlockByTimestamp_first_at_or_after_witness :
  exists r,
    getBlockByTimestamp (providerOfChain sparseChain) 2500000 = Ok r
    /\ (0 <= r <= 2)%Z.
Proof.
  destruct (getBlockByTimestamp_first_at_or_after
              (providerOfChain sparseChain) (mkBlock 2 3000) sparseTimes 2500000
              eq_refl ltac:(cbn [b_number]; lia) sparseChain_served
              ltac:(unfold sparseTimes; intros; lia))
    as (r & Hr & Hb & _).
  exists r. split; [exact Hr|exact Hb].
Defined.

(** The three time-based operations go through the block the index
    answers: on such a chain, for a time after the head's they answer what
    their block-based forms answer at the head, and for a time at or before
    that of block 0 what those answer at block 0. *)
Theorem time_resolution_at_the_ends (db : Db) (p : Provider) (latest : Block)
        (ts : Z -> Z) (nowMs : Z) (did signer : string) (timestampMs : Z) :
  getBlockLatest p = Some latest ->
  (0 <= b_number latest)%Z ->
  (forall i, (0 <= i <= b_number latest)%Z ->
             getBlock p i = Some (mkBlock i (ts i))) ->
  (forall i j, (0 <= i <= j)%Z -> (j <= b_number latest)%Z ->
               (ts i <= ts j)%Z) ->
  ((ts (b_number latest) < timestampMs / 1000)%Z ->
   resolveAtTime db p nowMs did timestampMs
   = Ok (resolveAtBlock db nowMs did (b_number latest))
   /\ getOwnerAtTime db p did timestampMs
      = Ok (getOwnerAtBlock db did (b_number latest))
   /\ wasValidSignerAtTime db p did signer timestampMs
      = Ok (wasValidSignerAtBlock db p did signer (b_number latest)))
  /\ ((timestampMs / 1000 <= ts 0)%Z ->
      resolveAtTime db p nowMs did timestampMs
      = Ok (resolveAtBlock db nowMs did 0)
      /\ getOwnerAtTime db p did timestampMs = Ok (getOwnerAtBlock db did 0)
      /\ wasValidSignerAtTime db p did signer timestampMs
         = Ok (wasValidSignerAtBlock db p did signer 0)).
Proof.
  intros Hlatest Hhead Hserved Hmono.
  destruct (searchBlock_ends p (b_number latest) ts
              (timestampMs / 1000) Hserved Hmono Hhead) as (H0 & Hh).
  unfold resolveAtTime, getOwnerAtTime, wasValidSignerAtTime,
    getBlockByTimestamp.
  rewrite Hlatest. cbn [bind].
  split; intros H; [rewrite (Hh H)|rewrite (H0 H)]; repeat split.
Qed.

Lemma time_resolution_at_the_ends_witness :
  getOwnerAtTime twoOwnersDb (providerOfChain sparseChain) "did:ethr:0xAA"
                 9000000
  = Ok (getOwnerAtBlock twoOwnersDb "did:ethr:0xAA" 2).
Proof.
  destruct (time_resolution_at_the_ends
              twoOwnersDb (providerOfChain sparseChain) (mkBlock 2 3000)
              sparseTimes 0 "did:ethr:0xAA" "0xb2" 9000000
              eq_refl ltac:(cbn [b_number]; lia) sparseChain_served
              ltac:(unfold sparseTimes; intros; lia))
    as [Hhead _].
  exact (proj1 (proj2 (Hhead ltac:(reflexivity)))).
Defined.
End TimeResolution.

(* ================================================================== *)
(** * Replay up to a block of a longer history *)
(* ================================================================== *)

Section ReplayPrefix.
Import Js DidService Scenario.

Lemma eventLeAsc_block (x y : Event) :
  eventLeAsc x y = true -> (e_blockNumber x <= e_blockNumber y)%Z.
Proof. rewrite eventLeAsc_spec. lia. Qed.

Lemma filter_above (P : Z) (evs : list Event) :
  Forall (fun x => (P < e_blockNumber x)%Z) evs ->
  filter (lessThanOrEqual P) evs = [].
Proof.
  induction 1 as [|x evs Hx _ IH]; [reflexivity|].
  simpl. unfold lessThanOrEqual at 1.
  replace (e_blockNumber x <=? P)%Z with false
    by (symmetry; apply Z.leb_gt; lia).
  exact IH.
Qed.

Lemma sorted_tail_above (P : Z) (e : Event) (evs : list Event) :
  (P < e_blockNumber e)%Z ->
  Forall (fun x => eventLeAsc e x = true) evs ->
  Forall (fun x => (P < e_blockNumber x)%Z) evs.
Proof.
  intros He Hall. eapply Forall_impl; [|exact Hall].
  intros x Hx. apply eventLeAsc_block in Hx. lia.
Qed.

(** On events in position order the [break] of the loop cuts exactly the
    events above the block. *)
Lemma replayLoop_filter (evs : list Event) (maxBlock : Z) :
  StronglySorted (fun a b => eventLeAsc a b = true) evs ->
  forall st,
    replayLoop evs maxBlock st
    = replayLoop (filter (lessThanOrEqual maxBlock) evs) maxBlock st.
Proof.
  induction 1 as [|e evs Hs IH Hall]; intros st; simpl; [reflexivity|].
  destruct (maxBlock <? e_blockNumber e)%Z eqn:E.
  - apply Z.ltb_lt in E.
    assert (Hle : lessThanOrEqual maxBlock e = false)
      by (apply Z.leb_gt; lia).
    rewrite Hle, (filter_above _ _ (sorted_tail_above _ _ _ E Hall)).
    reflexivity.
  - assert (Hle : lessThanOrEqual maxBlock e = true)
      by (apply Z.leb_le; apply Z.ltb_ge in E; lia).
    rewrite Hle. simpl. rewrite E. apply IH.
Qed.

Lemma identityEvents_earlier (db : Db) (address : string) (P1 P2 : Z) :
  (P1 <= P2)%Z ->
  filter (lessThanOrEqual P1) (identityEvents db address P2)
  = identityEvents db address P1.
Proof.
  intros Hle. rewrite !identityEvents_select.
  rewrite !selectEvents_code.
  rewrite (filter_sortBy _ eventLeAsc_total eventLeAsc_trans), filter_and.
  f_equal. apply filter_ext. intros e. unfold lessThanOrEqual.
  destruct (forIdentity address e); simpl; [|now rewrite andb_false_r].
  destruct (e_blockNumber e <=? P1)%Z eqn:E1; simpl; [|reflexivity].
  apply Z.leb_le in E1. apply Z.leb_le. lia.
Qed.

(** Monotonic replay.  Handed the events of an identity up to a later
    block, [reconstructStateFromEvents] stops at [maxBlock] and rebuilds the
    state it rebuilds from the events up to [maxBlock] alone; and these are
    a leading part of the longer list. *)
Theorem reconstruct_stops_at_maxBlock (db : Db) (address : string) (P1 P2 : Z) :
  (P1 <= P2)%Z ->
  reconstructStateFromEvents address (identityEvents db address P2) P1
  = reconstructStateFromEvents address (identityEvents db address P1) P1
  /\ exists later,
      identityEvents db address P2
      = (identityEvents db address P1 ++ later)%list
      /\ Forall (fun e => (P1 < e_blockNumber e)%Z) later.
Proof.
  intros Hle.
  assert (Hsorted : StronglySorted (fun a b => eventLeAsc a b = true)
                                   (identityEvents db address P2)).
  { rewrite identityEvents_select. apply selectEvents_sorted. }
  split.
  - unfold reconstructStateFromEvents.
    rewrite (replayLoop_filter _ P1 Hsorted), identityEvents_earlier by exact Hle.
    reflexivity.
  - rewrite <- (identityEvents_earlier db address P1 P2 Hle).
    induction Hsorted as [|e evs Hs IH Hall]; [exists []; split; constructor|].
    simpl. destruct (lessThanOrEqual P1 e) eqn:E.
    + destruct IH as (later & Heq & Hlater).
      exists later. split; [simpl; now rewrite <- Heq|exact Hlater].
    + apply Z.leb_gt in E.
      pose proof (sorted_tail_above P1 e evs E Hall) as Hall'.
      rewrite (filter_above _ _ Hall'). exists (e :: evs).
      split; [reflexivity|]. constructor; assumption.
Qed.

Lemma reconstruct_stops_at_maxBlock_witness :
  (0 <= 1)%Z
  /\ reconstructStateFromEvents "0xaa" (identityEvents twoOwnersDb "0xaa" 1) 0
     = reconstructStateFromEvents "0xaa" (identityEvents twoOwnersDb "0xaa" 0) 0.
Proof.
  split; [lia|].
  exact (proj1 (reconstruct_stops_at_maxBlock twoOwnersDb "0xaa" 0 1
                                              ltac:(lia))).
Defined.
End ReplayPrefix.

(* ================================================================== *)
(** * Addresses, owners and documents *)
(* ================================================================== *)

Section AddressForm.
Import Js DidService Methods.

Lemma split_segments_plain (s : string) :
  Forall (fun part => noColon part = true) (split ":" s).
Proof.
  induction s as [|c r IH]; simpl; [repeat constructor|].
  destruct (Ascii.eqb c ":") eqn:E.
  - constructor; [reflexivity|exact IH].
  - destruct (split ":" r) as [|p ps]; [repeat constructor; simpl; now rewrite E|].
    inversion IH; subst. constructor; [|assumption].
    simpl. rewrite E. assumption.
Qed.

Lemma last_Forall {A : Type} (P : A -> Prop) (l : list A) (d : A) :
  Forall P l -> P d -> P (List.last l d).
Proof.
  induction 1 as [|x l Hx Hl IH]; intros Hd; [exact Hd|].
  destruct l; [exact Hx|]. now apply IH.
Qed.

Lemma extractAddress_plain (did : string) :
  noColon (extractAddress did) = true.
Proof.
  rewrite extractAddress_last, noColon_toLowerCase.
  apply (last_Forall (fun part => noColon part = true));
    [apply split_segments_plain|reflexivity].
Qed.

Lemma extractAddress_of_did (did : string) :
  extractAddress ("did:ethr:" ++ extractAddress did) = extractAddress did.
Proof.
  rewrite (extractAddress_last ("did:ethr:" ++ _)), extractAddress_prefixed.
  rewrite (split_plain _ (extractAddress_plain did)). cbn [List.last].
  apply extractAddress_idem.
Qed.

Lemma resolve_id (db : Db) (nowMs : Z) (did : string) :
  doc_id (resolve db nowMs did) = "did:ethr:" ++ extractAddress did.
Proof.
  unfold resolve. destruct (findIdentity db (extractAddress did)); reflexivity.
Qed.

(** The address the service works with is in normal form: lowercase,
    free of [:], and a fixed point of [extractAddress].  So the [id] of a
    resolved document and the [did] of [getOwner] are themselves identifiers
    of the same identity: resolving the [id] of a document gives the
    document back. *)
Theorem resolve_of_document_id (db : Db) (nowMs : Z) (did : string) :
  toLowerCase (extractAddress did) = extractAddress did
  /\ noColon (extractAddress did) = true
  /\ extractAddress (extractAddress did) = extractAddress did
  /\ resolve db nowMs (doc_id (resolve db nowMs did)) = resolve db nowMs did
  /\ getOwner db (oi_did (getOwner db did)) = getOwner db did.
Proof.
  split; [apply extractAddress_idem|].
  split; [apply extractAddress_plain|].
  split.
  - rewrite (extractAddress_last (extractAddress did)).
    rewrite (split_plain _ (extractAddress_plain did)). cbn [List.last].
    apply extractAddress_idem.
  - split.
    + rewrite resolve_id. unfold resolve. now rewrite extractAddress_of_did.
    + unfold getOwner at 2. cbn [oi_did]. unfold getOwner.
      now rewrite extractAddress_of_did.
Qed.

(** [getOwner] reports an identity as self-owned exactly when the owner
    it reports is the identity's own address, and then the resolved document
    names no separate controller. *)
Theorem getOwner_self_owned (db : Db) (nowMs : Z) (did : string) :
  oi_isSelfOwned (getOwner db did)
  = (oi_owner (getOwner db did) =? extractAddress did)
  /\ (oi_isSelfOwned (getOwner db did) = true ->
      doc_controller (resolve db nowMs did) = None).
Proof.
  unfold getOwner, resolve. cbn [oi_isSelfOwned oi_owner].
  destruct (findIdentity db (extractAddress did)) as [row|];
    [|split; [now rewrite String.eqb_refl|reflexivity]].
  destruct (i_controller row) as [c|];
    [|split; [cbn; now rewrite String.eqb_refl|reflexivity]].
  cbn [orElse]. unfold buildDidDocument. cbn [doc_controller].
  destruct (truthy c) eqn:T; cbn [negb orb].
  - split; [reflexivity|]. intros H. apply String.eqb_eq in H. subst c.
    now rewrite String.eqb_refl.
  - split; [now rewrite String.eqb_refl|reflexivity].
Qed.

Lemma getOwner_self_owned_witness :
  oi_isSelfOwned (getOwner (mkDb [] [] [] []) "did:ethr:0xAB") = true
  /\ doc_controller (resolve (mkDb [] [] [] []) 0 "did:ethr:0xAB") = None.
Proof.
  split; [reflexivity|].
  exact (proj2 (getOwner_self_owned (mkDb [] [] [] []) 0 "did:ethr:0xAB")
               eq_refl).
Defined.
End AddressForm.

Section OwnerSigns.
Import Js DidService Scenario.

Lemma firstOwner_lower (address : string) (l : list Event) (o : string) :
  firstOwner address l = Some o -> toLowerCase o = o.
Proof.
  induction l as [|e l IH]; simpl; [discriminate|].
  destruct (e_args e) as [i w pc|? ? ? ? ?|? ? ? ? ?]; auto.
  destruct (toLowerCase i =? toLowerCase address); auto.
  intros H. inversion H. apply toLowerCase_idem.
Qed.

Lemma getOwnerAtBlock_lower (db : Db) (did : string) (B : Z) :
  toLowerCase (getOwnerAtBlock db did B) = getOwnerAtBlock db did B.
Proof.
  unfold getOwnerAtBlock.
  destruct (firstOwner _ _) as [o|] eqn:E.
  - exact (firstOwner_lower _ _ _ E).
  - apply toLowerCase_idem.
Qed.

(** The owner [getOwnerAtBlock] answers for a block is a valid signer at
    that block for [wasValidSignerAtBlock], in any letter case and whether
    or not the node can show the block. *)
Theorem owner_at_block_is_valid_signer (db : Db) (p : Provider)
        (did signer : string) (B : Z) :
  wasValidSignerAtBlock db p did (getOwnerAtBlock db did B) B = true
  /\ (toLowerCase signer = getOwnerAtBlock db did B ->
      wasValidSignerAtBlock db p did signer B = true).
Proof.
  unfold wasValidSignerAtBlock. split.
  - now rewrite getOwnerAtBlock_lower, String.eqb_refl.
  - intros H. now rewrite H, String.eqb_refl.
Qed.

Lemma owner_at_block_is_valid_signer_witness :
  toLowerCase "0xB2" = getOwnerAtBlock twoOwnersDb "did:ethr:0xAA" 1
  /\ wasValidSignerAtBlock twoOwnersDb providerDown "did:ethr:0xAA" "0xB2" 1
     = true.
Proof.
  split; [reflexivity|].
  exact (proj2 (owner_at_block_is_valid_signer twoOwnersDb providerDown
                                               "did:ethr:0xAA" "0xB2" 1)
               eq_refl).
Defined.
End OwnerSigns.

Section DocumentIntegrity.
Import Js DidService Methods DidListings.

Lemma string_app_inv_head (s a b : string) : s ++ a = s ++ b -> a = b.
Proof.
  induction s as [|c s IH]; simpl; intros H; [exact H|].
  inversion H. auto.
Qed.

Lemma numberToString_inj (n m : nat) :
  numberToString n = numberToString m -> n = m.
Proof.
  unfold numberToString. intros H.
  apply (f_equal NilEmpty.uint_of_string) in H.
  rewrite !NilEmpty.usu in H. inversion H as [H'].
  now apply DecimalNat.Unsigned.to_uint_inj.
Qed.

Lemma mapFrom_In {A B : Type} (f : A -> nat -> B) (l : list A) :
  forall (i : nat) (y : B),
    In y (mapFrom f i l) ->
    exists x n, In x l /\ (i <= n < i + List.length l)%nat /\ y = f x n.
Proof.
  induction l as [|x l IH]; intros i y; simpl; [contradiction|].
  intros [<-|H].
  - exists x, i. repeat split; auto; lia.
  - destruct (IH _ _ H) as (x' & n & Hx & Hn & ->).
    exists x', n. repeat split; auto; lia.
Qed.

Lemma mapFrom_length {A B : Type} (f : A -> nat -> B) (l : list A) (i : nat) :
  List.length (mapFrom f i l) = List.length l.
Proof.
  revert i. induction l as [|x l IH]; intros i; simpl; [reflexivity|].
  now rewrite IH.
Qed.

(** Numbered identifiers with one prefix are pairwise distinct. *)
Lemma numbered_NoDup {A : Type} (did pre : string) (l : list A) (i : nat) :
  NoDup (mapFrom (fun (_ : A) n => did ++ pre ++ numberToString n) i l).
Proof.
  revert i. induction l as [|x l IH]; intros i; simpl; constructor; [|apply IH].
  intros Hin. apply mapFrom_In in Hin.
  destruct Hin as (x' & n & _ & Hn & Heq).
  apply string_app_inv_head, string_app_inv_head, numberToString_inj in Heq.
  lia.
Qed.

Lemma addDelegate_refersInside (did : string) (b : Building) (d : Delegate)
      (i : nat) :
  refersInside b -> refersInside (addDelegate did b d i).
Proof.
  intros H id Hid. unfold addDelegate, push in *.
  cbn [authentication assertionMethod verificationMethod] in *.
  rewrite map_app. cbn [List.map vm_id]. apply in_or_app.
  assert (Hcase : (In id (authentication b) \/ In id (assertionMethod b))
                  \/ id = did ++ "#delegate-" ++ numberToString i).
  { destruct Hid as [Hid|Hid].
    - destruct (d_delegateType d =? "sigAuth"); [|now left; left].
      apply in_app_or in Hid. destruct Hid as [?|[<-|[]]]; [left; now left|now right].
    - destruct (d_delegateType d =? "veriKey"); [|now left; right].
      apply in_app_or in Hid. destruct Hid as [?|[<-|[]]]; [left; now right|now right]. }
  destruct Hcase as [Hold| ->]; [left; now apply H|right; now left].
Qed.

Lemma addKey_refersInside (did : string) (b : Building) (a : Attribute)
      (i : nat) :
  refersInside b -> refersInside (addKey did b a i).
Proof.
  intros H id Hid. unfold addKey, push in *.
  cbn [authentication assertionMethod verificationMethod] in *.
  rewrite map_app. cbn [List.map vm_id]. apply in_or_app.
  assert (Hcase : (In id (authentication b) \/ In id (assertionMethod b))
                  \/ id = did ++ "#key-" ++ numberToString i).
  { destruct Hid as [Hid|Hid].
    - destruct (_ =? "sigAuth"); [|now left; left].
      apply in_app_or in Hid. destruct Hid as [?|[<-|[]]]; [left; now left|now right].
    - destruct (_ =? "veriKey"); [|now left; right].
      apply in_app_or in Hid. destruct Hid as [?|[<-|[]]]; [left; now right|now right]. }
  destruct Hcase as [Hold| ->]; [left; now apply H|right; now left].
Qed.

Lemma forEachFrom_refersInside {A : Type} (f : Building -> A -> nat -> Building)
      (l : list A) :
  (forall b x i, refersInside b -> refersInside (f b x i)) ->
  forall i b, refersInside b -> refersInside (forEachFrom f i l b).
Proof.
  intros Hf. induction l as [|x l IH]; intros i b Hb; simpl; [exact Hb|].
  apply IH, Hf, Hb.
Qed.

Lemma buildDidDocument_count (nowMs : Z) (address : string)
      (controller : option string) (delegates : list Delegate)
      (attributes : list Attribute) :
  List.length (doc_verificationMethod
                 (buildDidDocument nowMs address controller delegates attributes))
  = (1 + List.length (validDelegates nowMs delegates)
     + List.length (validKeys nowMs attributes))%nat.
Proof.
  rewrite buildDidDocument_methods.
  cbn [List.length]. rewrite length_app. unfold mapIndexed.
  rewrite !mapFrom_length. lia.
Qed.

(** In every document the builder makes, the entries of [authentication]
    and of [assertionMethod] are ids of verification methods of that
    document, the ids of its verification methods are pairwise distinct, and
    there is one method more than there are valid delegates and valid
    [did/pub/] attributes. *)
Theorem buildDidDocument_references (nowMs : Z) (address : string)
        (controller : option string) (delegates : list Delegate)
        (attributes : list Attribute) :
  let doc := buildDidDocument nowMs address controller delegates attributes in
  (forall id, In id (doc_authentication doc) \/ In id (doc_assertionMethod doc) ->
              In id (List.map vm_id (doc_verificationMethod doc)))
  /\ NoDup (List.map vm_id (doc_verificationMethod doc))
  /\ List.length (doc_verificationMethod doc)
     = (1 + List.length (validDelegates nowMs delegates)
        + List.length (validKeys nowMs attributes))%nat.
Proof.
  intros doc. split; [|split].
  - unfold doc, buildDidDocument.
    cbn [doc_authentication doc_assertionMethod doc_verificationMethod].
    unfold forEach.
    apply forEachFrom_refersInside; [apply addKey_refersInside|].
    apply forEachFrom_refersInside; [apply addDelegate_refersInside|].
    intros id [[<-|[]]|[<-|[]]]; now left.
  - unfold doc. rewrite buildDidDocument_methods.
    cbn [List.map]. rewrite map_app. unfold mapIndexed. rewrite !map_mapFrom.
    cbn [vm_id delegateMethod keyMethod controllerMethod].
    set (did := "did:ethr:" ++ address).
    constructor.
    + intros Hin. apply in_app_or in Hin.
      destruct Hin as [Hin|Hin]; apply mapFrom_In in Hin;
        destruct Hin as (x & n & _ & _ & Heq);
        apply string_app_inv_head in Heq; discriminate.
    + apply NoDup_app.
      * apply numbered_NoDup.
      * apply numbered_NoDup.
      * intros id H1 H2. apply mapFrom_In in H1, H2.
        destruct H1 as (x1 & n1 & _ & _ & ->).
        destruct H2 as (x2 & n2 & _ & _ & Heq).
        apply string_app_inv_head in Heq. discriminate.
  - apply buildDidDocument_count.
Qed.

Lemma countTrue_map {A B : Type} (g : A -> B) (f : B -> bool) (l : list A) :
  countTrue f (List.map g l) = List.length (filter (fun x => f (g x)) l).
Proof.
  unfold countTrue. induction l as [|x l IH]; simpl; [reflexivity|].
  destruct (f (g x)); simpl; now rewrite IH.
Qed.

(** The listings and the document agree.  [getDelegates] and
    [getAttributes] list every row of the identity with an [isValid] flag;
    the document [resolve] builds at the same clock reading has one
    verification method for the controller, one for each delegate flagged
    valid and one for each [did/pub/] attribute flagged valid, for a known
    identity and an unknown one alike; and all three carry the same DID. *)
Theorem listings_agree_with_document (db : Db) (nowMs : Z) (did : string) :
  List.length (doc_verificationMethod (resolve db nowMs did))
  = (1 + countTrue dv_isValid (snd (getDelegates db nowMs did))
     + countTrue (fun v => startsWith (av_name v) "did/pub/" && av_isValid v)
                 (snd (getAttributes db nowMs did)))%nat
  /\ fst (getDelegates db nowMs did) = doc_id (resolve db nowMs did)
  /\ fst (getAttributes db nowMs did) = doc_id (resolve db nowMs did).
Proof.
  rewrite resolve_id. split; [|split; reflexivity].
  unfold resolve, getDelegates, getAttributes, loadedDelegates, loadedAttributes.
  cbn [snd]. rewrite !countTrue_map. cbn [dv_isValid av_isValid av_name].
  destruct (findIdentity db (extractAddress did)) as [row|];
    rewrite buildDidDocument_count; [|reflexivity].
  unfold validDelegates, validKeys. now rewrite filter_and.
Qed.
End DocumentIntegrity.

(* ================================================================== *)
(** * What the handlers keep true of the tables *)
(* ================================================================== *)

Section TablesKept.
Import Js DidService BlockchainService Tables.

Lemma saveIdentity_addresses (db : Db) (row : Identity) :
  List.map i_address (identities (saveIdentity db row))
  = if List.existsb (fun i => i_address i =? i_address row) (identities db)
    then List.map i_address (identities db)
    else (List.map i_address (identities db) ++ [i_address row])%list.
Proof.
  unfold saveIdentity. cbn [identities].
  destruct (List.existsb _ (identities db)).
  - rewrite map_map. apply map_ext. intros i.
    destruct (i_address i =? i_address row) eqn:E; [|reflexivity].
    apply String.eqb_eq in E. now rewrite E.
  - now rewrite map_app.
Qed.

Lemma existsb_address (db : Db) (a : string) :
  List.existsb (fun i => i_address i =? a) (identities db) = true
  <-> In a (List.map i_address (identities db)).
Proof.
  rewrite existsb_exists, in_map_iff. split.
  - intros (i & Hi & E). apply String.eqb_eq in E. eauto.
  - intros (i & E & Hi). exists i. split; [exact Hi|now apply String.eqb_eq].
Qed.

(** Saving an identity keeps the addresses distinct and loses none. *)
Lemma saveIdentity_keeps (db : Db) (row : Identity) :
  NoDup (List.map i_address (identities db)) ->
  NoDup (List.map i_address (identities (saveIdentity db row)))
  /\ In (i_address row) (List.map i_address (identities (saveIdentity db row)))
  /\ (forall a, In a (List.map i_address (identities db)) ->
                In a (List.map i_address (identities (saveIdentity db row))))
  /\ (forall a, In a (List.map i_address (identities (saveIdentity db row))) ->
                a = i_address row \/ In a (List.map i_address (identities db))).
Proof.
  intros Hnd. rewrite saveIdentity_addresses.
  destruct (List.existsb _ (identities db)) eqn:E.
  - apply existsb_address in E. repeat split; auto.
  - repeat split.
    + apply NoDup_app; [exact Hnd|constructor; [intros []|constructor]|].
      intros a Ha [<-|[]]. apply existsb_address in Ha. congruence.
    + apply in_or_app. right. now left.
    + intros a Ha. apply in_or_app. now left.
    + intros a Ha. apply in_app_or in Ha. destruct Ha as [?|[<-|[]]]; auto.
Qed.

Lemma saveIdentity_lowercase (db : Db) (row : Identity) :
  toLowerCase (i_address row) = i_address row ->
  Forall (fun i => toLowerCase (i_address i) = i_address i) (identities db) ->
  Forall (fun i => toLowerCase (i_address i) = i_address i)
         (identities (saveIdentity db row)).
Proof.
  intros Hrow Hall. unfold saveIdentity. cbn [identities].
  destruct (List.existsb _ (identities db)).
  - apply Forall_forall. intros i Hi. apply in_map_iff in Hi.
    destruct Hi as (j & <- & Hj). rewrite Forall_forall in Hall.
    destruct (i_address j =? i_address row); auto.
  - apply Forall_app. split; [exact Hall|]. now constructor.
Qed.

Lemma ensureIdentity_keeps (db : Db) (a : string) :
  toLowerCase a = a ->
  NoDup (List.map i_address (identities db)) ->
  Forall (fun i => toLowerCase (i_address i) = i_address i) (identities db) ->
  NoDup (List.map i_address (identities (ensureIdentity db a)))
  /\ Forall (fun i => toLowerCase (i_address i) = i_address i)
            (identities (ensureIdentity db a))
  /\ In a (List.map i_address (identities (ensureIdentity db a)))
  /\ (forall b, In b (List.map i_address (identities db)) ->
                In b (List.map i_address (identities (ensureIdentity db a)))).
Proof.
  intros Ha Hnd Hlow. unfold ensureIdentity.
  destruct (findIdentity db a) as [row|] eqn:E.
  - repeat split; auto. apply find_some in E. destruct E as [Hin E].
    apply String.eqb_eq in E. rewrite <- E. now apply in_map.
  - destruct (saveIdentity_keeps db (mkIdentity a None) Hnd) as (H1 & H2 & H3 & _).
    repeat split; auto. now apply saveIdentity_lowercase.
Qed.

(** *** Generated ids *)

Lemma sorted_snoc (l : list Z) (x : Z) :
  StronglySorted Z.lt l -> (forall y, In y l -> (y < x)%Z) ->
  StronglySorted Z.lt (l ++ [x]).
Proof.
  induction 1 as [|y l Hs IH Hall]; intros Hx; simpl.
  - repeat constructor.
  - constructor.
    + apply IH. intros z Hz. apply Hx. now right.
    + apply Forall_app. split; [exact Hall|].
      constructor; [|constructor]. apply Hx. now left.
Qed.

Lemma NoDup_snoc {A : Type} (l : list A) (x : A) :
  NoDup l -> ~ In x l -> NoDup (l ++ [x]).
Proof.
  intros Hnd Hx. apply NoDup_app; [exact Hnd|constructor; [intros []|constructor]|].
  intros a Ha [<-|[]]. contradiction.
Qed.

Lemma nextId_not_in (os : list (option Z)) :
  ~ In (Some (nextId (someIds os))) os.
Proof.
  intros H. apply someIds_In, nextId_fresh in H. lia.
Qed.

Section DelegateRows.
Variables (a t d : string) (v : Z).
Variable P : option string -> Prop.

Lemma upsertDelegate_keeps (rows : list Delegate) :
  Forall (fun r => d_id r <> None) rows ->
  NoDup (List.map d_id rows) ->
  Forall (fun r => P (d_identity r)) rows ->
  P (Some a) ->
  let rows' := Projection.upsertDelegate rows a t d v in
  Forall (fun r => d_id r <> None) rows'
  /\ NoDup (List.map d_id rows')
  /\ Forall (fun r => P (d_identity r)) rows'.
Proof.
  intros Hids Hnd HP Ha. unfold Projection.upsertDelegate.
  destruct (List.find _ rows) as [e|] eqn:F.
  - destruct (find_some _ _ F) as [Hin _].
    rewrite Forall_forall in Hids, HP.
    pose proof (Hids e Hin) as He. pose proof (HP e Hin) as HPe.
    cbv zeta. destruct (d_id e) as [id|] eqn:Eid; [|contradiction].
    repeat split.
    + apply Forall_forall. intros r Hr. apply in_map_iff in Hr.
      destruct Hr as (r0 & <- & Hr0).
      destruct (idIs id (d_id r0)); [discriminate|auto].
    + rewrite map_map.
      replace (List.map _ rows) with (List.map d_id rows); [exact Hnd|].
      apply map_ext. intros r0.
      destruct (idIs id (d_id r0)) eqn:E; [|reflexivity].
      cbn [d_id]. unfold idIs in E. destruct (d_id r0) as [j|]; [|discriminate].
      apply Z.eqb_eq in E. now subst.
    + apply Forall_forall. intros r Hr. apply in_map_iff in Hr.
      destruct Hr as (r0 & <- & Hr0).
      destruct (idIs id (d_id r0)); [exact HPe|auto].
  - unfold Projection.insertDelegate. cbn [d_id d_identity].
    repeat split.
    + apply Forall_app. split; [exact Hids|]. constructor; [discriminate|constructor].
    + rewrite map_app. cbn [List.map d_id].
      apply NoDup_snoc; [exact Hnd|apply nextId_not_in].
    + apply Forall_app. split; [exact HP|]. constructor; [exact Ha|constructor].
Qed.
End DelegateRows.

Section AttributeRows.
Variables (a n x : string) (v : Z).
Variable P : option string -> Prop.

Lemma upsertAttribute_keeps (rows : list Attribute) :
  Forall (fun r => a_id r <> None) rows ->
  NoDup (List.map a_id rows) ->
  Forall (fun r => P (a_identity r)) rows ->
  P (Some a) ->
  let rows' := Projection.upsertAttribute rows a n x v in
  Forall (fun r => a_id r <> None) rows'
  /\ NoDup (List.map a_id rows')
  /\ Forall (fun r => P (a_identity r)) rows'.
Proof.
  intros Hids Hnd HP Ha. unfold Projection.upsertAttribute.
  destruct (List.find _ rows) as [e|] eqn:F.
  - destruct (find_some _ _ F) as [Hin _].
    rewrite Forall_forall in Hids, HP.
    pose proof (Hids e Hin) as He. pose proof (HP e Hin) as HPe.
    cbv zeta. destruct (a_id e) as [id|] eqn:Eid; [|contradiction].
    repeat split.
    + apply Forall_forall. intros r Hr. apply in_map_iff in Hr.
      destruct Hr as (r0 & <- & Hr0).
      destruct (idIs id (a_id r0)); [discriminate|auto].
    + rewrite map_map.
      replace (List.map _ rows) with (List.map a_id rows); [exact Hnd|].
      apply map_ext. intros r0.
      destruct (idIs id (a_id r0)) eqn:E; [|reflexivity].
      cbn [a_id]. unfold idIs in E. destruct (a_id r0) as [j|]; [|discriminate].
      apply Z.eqb_eq in E. now subst.
    + apply Forall_forall. intros r Hr. apply in_map_iff in Hr.
      destruct Hr as (r0 & <- & Hr0).
      destruct (idIs id (a_id r0)); [exact HPe|auto].
  - unfold Projection.insertAttribute. cbn [a_id a_identity].
    repeat split.
    + apply Forall_app. split; [exact Hids|]. constructor; [discriminate|constructor].
    + rewrite map_app. cbn [List.map a_id].
      apply NoDup_snoc; [exact Hnd|apply nextId_not_in].
    + apply Forall_app. split; [exact HP|]. constructor; [exact Ha|constructor].
Qed.
End AttributeRows.

Lemma events_snoc_keeps (evs : list Event) (row : Event) :
  e_id row = nextId (List.map e_id evs) ->
  NoDup (List.map e_id evs) -> StronglySorted Z.lt (List.map e_id evs) ->
  NoDup (List.map e_id (evs ++ [row]))
  /\ StronglySorted Z.lt (List.map e_id (evs ++ [row])).
Proof.
  intros Hid Hnd Hs. rewrite map_app. cbn [List.map]. split.
  - apply NoDup_snoc; [exact Hnd|]. intros Hin.
    rewrite Hid in Hin. apply nextId_fresh in Hin. lia.
  - apply sorted_snoc; [exact Hs|]. intros y Hy.
    rewrite Hid. now apply nextId_fresh.
Qed.
End TablesKept.

Section TablesWellFormed.
Import Js DidService BlockchainService Tables Listening.

Variable decodeBytes32String : string -> result string.
Variable toUtf8String : string -> result string.
Variable hexlify : string -> string.

Let onEvent' := onEvent decodeBytes32String toUtf8String hexlify.

Lemma ownedBy_mono (db db' : Db) (o : option string) :
  (forall a, In a (List.map i_address (identities db)) ->
             In a (List.map i_address (identities db'))) ->
  ownedBy db o -> ownedBy db' o.
Proof.
  intros Hsub (a & -> & Ha). exists a. split; [reflexivity|auto].
Qed.

(** Every handler keeps the tables well formed. *)
Lemma onEvent_keeps_wellFormed (db : Db) (ev : LedgerEvent) :
  wellFormed db -> wellFormed (onEvent' db ev).
Proof.
  intros [He Hes Hd Ha [Hdi Hai] Hadr Hlow Hdo Hao].
  unfold onEvent', onEvent. destruct ev as [i o pc log|i t d v pc log|i n x v pc log].
  - destruct (handleOwnerChanged_tables decodeBytes32String hexlify db i o pc log)
      as (Ti & Td & Ta & Te).
    set (once := handleOwnerChanged db i o pc log) in *.
    destruct (saveIdentity_keeps db (mkIdentity (toLowerCase i)
                                                (Some (toLowerCase o))) Hadr)
      as (K1 & K2 & K3 & _).
    rewrite <- Ti in K1, K2, K3.
    destruct (events_snoc_keeps
                (events db)
                (Projection.eventRow decodeBytes32String hexlify db
                                     (DIDOwnerChanged i o pc log))
                eq_refl He Hes) as [E1 E2].
    rewrite <- Te in E1, E2.
    assert (F1 : Forall (fun i => toLowerCase (i_address i) = i_address i)
                        (identities once)).
    { rewrite Ti. apply saveIdentity_lowercase; [apply toLowerCase_idem|exact Hlow]. }
    assert (F2 : Forall (fun r => ownedBy once (d_identity r)) (delegates once)).
    { rewrite Td. eapply Forall_impl; [|exact Hdo].
      intros r Hr. exact (ownedBy_mono db once _ K3 Hr). }
    assert (F3 : Forall (fun r => ownedBy once (a_identity r)) (attributes once)).
    { rewrite Ta. eapply Forall_impl; [|exact Hao].
      intros r Hr. exact (ownedBy_mono db once _ K3 Hr). }
    rewrite <- Td in Hd, Hdi. rewrite <- Ta in Ha, Hai.
    constructor; try assumption. split; assumption.
  - destruct (handleDelegateChanged_tables decodeBytes32String hexlify db i t d v pc log)
      as (Ti & Td & Ta & Te).
    set (once := handleDelegateChanged decodeBytes32String db i t d v pc log) in *.
    destruct (ensureIdentity_keeps db (toLowerCase i) (toLowerCase_idem i) Hadr Hlow)
      as (K1 & K2 & K3 & K4).
    rewrite <- Ti in K1, K2, K3, K4.
    destruct (events_snoc_keeps
                (events db)
                (Projection.eventRow decodeBytes32String hexlify db
                                     (DIDDelegateChanged i t d v pc log))
                eq_refl He Hes) as [E1 E2].
    rewrite <- Te in E1, E2.
    destruct (upsertDelegate_keeps (toLowerCase i)
                (orCatch (decodeBytes32String t) t) (toLowerCase d) v
                (ownedBy once) (delegates db) Hdi Hd)
      as (U1 & U2 & U3).
    { eapply Forall_impl; [|exact Hdo].
      intros r Hr. exact (ownedBy_mono db once _ K4 Hr). }
    { exists (toLowerCase i). split; [reflexivity|exact K3]. }
    rewrite <- Td in U1, U2, U3.
    assert (F3 : Forall (fun r => ownedBy once (a_identity r)) (attributes once)).
    { rewrite Ta. eapply Forall_impl; [|exact Hao].
      intros r Hr. exact (ownedBy_mono db once _ K4 Hr). }
    rewrite <- Ta in Ha, Hai.
    constructor; try assumption. split; assumption.
  - destruct (handleAttributeChanged_tables decodeBytes32String toUtf8String
                                            hexlify db i n x v pc log)
      as (Ti & Td & Ta & Te).
    set (once := handleAttributeChanged decodeBytes32String toUtf8String hexlify
                                        db i n x v pc log) in *.
    destruct (ensureIdentity_keeps db (toLowerCase i) (toLowerCase_idem i) Hadr Hlow)
      as (K1 & K2 & K3 & K4).
    rewrite <- Ti in K1, K2, K3, K4.
    destruct (events_snoc_keeps
                (events db)
                (Projection.eventRow decodeBytes32String hexlify db
                                     (DIDAttributeChanged i n x v pc log))
                eq_refl He Hes) as [E1 E2].
    rewrite <- Te in E1, E2.
    destruct (upsertAttribute_keeps (toLowerCase i)
                (orCatch (decodeBytes32String n) n)
                (orCatch (toUtf8String x) (hexlify x)) v
                (ownedBy once) (attributes db) Hai Ha)
      as (U1 & U2 & U3).
    { eapply Forall_impl; [|exact Hao].
      intros r Hr. exact (ownedBy_mono db once _ K4 Hr). }
    { exists (toLowerCase i). split; [reflexivity|exact K3]. }
    rewrite <- Ta in U1, U2, U3.
    assert (F2 : Forall (fun r => ownedBy once (d_identity r)) (delegates once)).
    { rewrite Td. eapply Forall_impl; [|exact Hdo].
      intros r Hr. exact (ownedBy_mono db once _ K4 Hr). }
    rewrite <- Td in Hd, Hdi.
    constructor; try assumption. split; assumption.
Qed.

Lemma wellFormed_empty : wellFormed (mkDb [] [] [] []).
Proof.
  constructor; try constructor; constructor.
Qed.

Lemma deliveries_keep_wellFormed (evs : list LedgerEvent) :
  forall db, wellFormed db -> wellFormed (fold_left onEvent' evs db).
Proof.
  induction evs as [|ev evs IH]; intros db H; simpl; [exact H|].
  apply IH, onEvent_keeps_wellFormed, H.
Qed.

(** A handler that runs from its first statement to its last on
    well-formed tables, as each one does in [syncFromBlock], leaves them well
    formed: distinct ids in every table, growing in the event table,
    distinct lowercase identity addresses, and every delegate and attribute
    row attached to an identity row.  It appends one row to the event table,
    under an id above every id that was there, rewrites none, and keeps
    every identity row's address. *)
Theorem handler_keeps_tables_wellFormed (db : Db) (ev : LedgerEvent) :
  wellFormed db ->
  let db' := onEvent' db ev in
  let row := Projection.eventRow decodeBytes32String hexlify db ev in
  wellFormed db'
  /\ events db' = (events db ++ [row])%list
  /\ Forall (fun e => (e_id e < e_id row)%Z) (events db)
  /\ (forall a, In a (List.map i_address (identities db)) ->
                In a (List.map i_address (identities db'))).
Proof.
  intros Hwf db' row.
  split; [now apply onEvent_keeps_wellFormed|].
  assert (Hrow : e_id row = nextId (List.map e_id (events db)))
    by (unfold row; now destruct ev).
  split; [|split].
  - unfold db', onEvent', onEvent, row. destruct ev.
    + apply handleOwnerChanged_tables.
    + apply handleDelegateChanged_tables.
    + apply handleAttributeChanged_tables.
  - apply Forall_forall. intros e He. rewrite Hrow.
    apply nextId_fresh. now apply in_map.
  - unfold db', onEvent', onEvent.
    destruct ev as [i o pc log|i t d v pc log|i n x v pc log].
    + destruct (handleOwnerChanged_tables decodeBytes32String hexlify
                                          db i o pc log) as (Ti & _).
      rewrite Ti. apply saveIdentity_keeps, Hwf.
    + destruct (handleDelegateChanged_tables decodeBytes32String hexlify
                                             db i t d v pc log) as (Ti & _).
      rewrite Ti.
      apply (ensureIdentity_keeps db (toLowerCase i) (toLowerCase_idem i));
        apply Hwf.
    + destruct (handleAttributeChanged_tables decodeBytes32String toUtf8String
                                              hexlify db i n x v pc log)
        as (Ti & _).
      rewrite Ti.
      apply (ensureIdentity_keeps db (toLowerCase i) (toLowerCase_idem i));
        apply Hwf.
Qed.

(** [syncFromBlock] is the delivery, one by one, of the queried events
    that are event logs: first the owner changes, then the delegate changes,
    then the attribute changes. *)
Lemma syncFromBlock_deliveries (db : Db) (answer : QueryAnswer) :
  syncFromBlock decodeBytes32String toUtf8String hexlify db (Ok answer)
  = fold_left onEvent' (deliveries answer) db.
Proof.
  unfold syncFromBlock, deliveries. rewrite !fold_left_app.
  assert (Ho : forall l d,
             fold_left
               (fun db q =>
                  match q with
                  | IsEventLog (i, o, pc) log => handleOwnerChanged db i o pc log
                  | BareLog _ => db
                  end) l d
             = fold_left onEvent' (flat_map ownerDelivery l) d).
  { induction l as [|q l IH]; intros d0; simpl; [reflexivity|].
    rewrite fold_left_app, IH. destruct q as [[[i o] pc] log|log]; reflexivity. }
  assert (Hd : forall l d,
             fold_left
               (fun db q =>
                  match q with
                  | IsEventLog (i, t, d, v, pc) log =>
                      handleDelegateChanged decodeBytes32String db i t d v pc log
                  | BareLog _ => db
                  end) l d
             = fold_left onEvent' (flat_map delegateDelivery l) d).
  { induction l as [|q l IH]; intros d0; simpl; [reflexivity|].
    rewrite fold_left_app, IH.
    destruct q as [[[[[i t] d] v] pc] log|log]; reflexivity. }
  assert (Ha : forall l d,
             fold_left
               (fun db q =>
                  match q with
                  | IsEventLog (i, n, x, v, pc) log =>
                      handleAttributeChanged decodeBytes32String toUtf8String
                                             hexlify db i n x v pc log
                  | BareLog _ => db
                  end) l d
             = fold_left onEvent' (flat_map attributeDelivery l) d).
  { induction l as [|q l IH]; intros d0; simpl; [reflexivity|].
    rewrite fold_left_app, IH.
    destruct q as [[[[[i n] x] v] pc] log|log]; reflexivity. }
  now rewrite Ho, Hd, Ha.
Qed.

(** The rows a run of handlers, one after the other, adds to the event
    table: one for each event, in their order, with its name, transaction
    hash and block. *)
Lemma deliveries_rows (evs : list LedgerEvent) :
  forall db,
    exists added,
      events (fold_left onEvent' evs db) = (events db ++ added)%list
      /\ List.map rowKey added
         = List.map (fun ev => (Agreement.nameOf ev,
                                l_transactionHash (Agreement.logOf ev),
                                Agreement.blockOf ev))
                    evs.
Proof.
  induction evs as [|ev evs IH]; intros db; simpl.
  - exists []. split; [now rewrite app_nil_r|reflexivity].
  - destruct (IH (onEvent' db ev)) as (added & Heq & Hkeys).
    assert (He : events (onEvent' db ev)
                 = (events db ++ [Projection.eventRow decodeBytes32String
                                                      hexlify db ev])%list).
    { unfold onEvent', onEvent. destruct ev.
      - apply handleOwnerChanged_tables.
      - apply handleDelegateChanged_tables.
      - apply handleAttributeChanged_tables. }
    rewrite He, <- app_assoc in Heq.
    eexists. split; [exact Heq|]. cbn [List.map app]. rewrite Hkeys.
    f_equal. now destruct ev.
Qed.

Lemma ownerDelivery_rows (l : list (Queried (string * string * Z))) :
  List.map (fun ev => (Agreement.nameOf ev,
                       l_transactionHash (Agreement.logOf ev),
                       Agreement.blockOf ev))
           (List.flat_map ownerDelivery l)
  = List.map (rowOfQueried "DIDOwnerChanged") (filter isEventLog l).
Proof.
  induction l as [|[[[i o] pc] log|log] l IH]; simpl; [reflexivity| |exact IH].
  now rewrite IH.
Qed.

Lemma delegateDelivery_rows
      (l : list (Queried (string * string * string * Z * Z))) :
  List.map (fun ev => (Agreement.nameOf ev,
                       l_transactionHash (Agreement.logOf ev),
                       Agreement.blockOf ev))
           (List.flat_map delegateDelivery l)
  = List.map (rowOfQueried "DIDDelegateChanged") (filter isEventLog l).
Proof.
  induction l as [|[[[[[i t] d] v] pc] log|log] l IH]; simpl;
    [reflexivity| |exact IH].
  now rewrite IH.
Qed.

Lemma attributeDelivery_rows
      (l : list (Queried (string * string * string * Z * Z))) :
  List.map (fun ev => (Agreement.nameOf ev,
                       l_transactionHash (Agreement.logOf ev),
                       Agreement.blockOf ev))
           (List.flat_map attributeDelivery l)
  = List.map (rowOfQueried "DIDAttributeChanged") (filter isEventLog l).
Proof.
  induction l as [|[[[[[i n] x] v] pc] log|log] l IH]; simpl;
    [reflexivity| |exact IH].
  now rewrite IH.
Qed.

(** [syncFromBlock] keeps well-formed tables well formed.  When the node
    rejects a query it leaves all four tables as they are.  Otherwise it
    rewrites no event row and appends one for each queried entry that is an
    event log, none for a bare log, in this order: the owner changes in the
    order of their answer, then the delegate changes in theirs, then the
    attribute changes in theirs, each row with the name of its query and the
    transaction hash and block number of its log. *)
Theorem syncFromBlock_appends (db : Db) (answer : result QueryAnswer) :
  let db' := syncFromBlock decodeBytes32String toUtf8String hexlify db answer in
  (wellFormed db -> wellFormed db')
  /\ match answer with
     | Throw _ => db' = db
     | Ok a =>
         exists added,
           events db' = (events db ++ added)%list
           /\ List.map rowKey added
              = (List.map (rowOfQueried "DIDOwnerChanged")
                          (filter isEventLog (ownerEvents a))
                 ++ List.map (rowOfQueried "DIDDelegateChanged")
                             (filter isEventLog (delegateEvents a))
                 ++ List.map (rowOfQueried "DIDAttributeChanged")
                             (filter isEventLog (attributeEvents a)))%list
     end.
Proof.
  destruct answer as [a|msg]; cbv zeta.
  - rewrite syncFromBlock_deliveries. split.
    + apply deliveries_keep_wellFormed.
    + destruct (deliveries_rows (deliveries a) db) as (added & Heq & Hkeys).
      exists added. split; [exact Heq|]. rewrite Hkeys.
      unfold deliveries. rewrite !map_app.
      now rewrite ownerDelivery_rows, delegateDelivery_rows,
        attributeDelivery_rows.
  - split; [auto|reflexivity].
Qed.

End TablesWellFormed.

Section TablesAtInput.
Import Js DidService BlockchainService Tables Listening IngestionScenario.
Import AgreementScenario.

Lemma handler_keeps_tables_wellFormed_witness :
  wellFormed emptyDb
  /\ wellFormed (toyOnEvent emptyDb grant)
  /\ List.length (events (toyOnEvent emptyDb grant)) = 1%nat.
Proof.
  split; [exact wellFormed_empty|].
  destruct (handler_keeps_tables_wellFormed toyDecode toyDecode toyHexlify
                                            emptyDb grant wellFormed_empty)
    as (Hwf & Hev & _).
  split; [exact Hwf|].
  unfold toyOnEvent. rewrite Hev. reflexivity.
Defined.

Lemma syncFromBlock_appends_witness :
  let db' := syncFromBlock toyDecode toyDecode toyHexlify emptyDb (Ok catchUp) in
  wellFormed emptyDb
  /\ wellFormed db'
  /\ List.map rowKey (events db')
     = [ ("DIDOwnerChanged", "0xt2", 3%Z); ("DIDDelegateChanged", "0xt1", 2%Z) ].
Proof.
  destruct (syncFromBlock_appends toyDecode toyDecode toyHexlify
                                  emptyDb (Ok catchUp))
    as (Hwf & added & Hev & Hkeys).
  split; [exact wellFormed_empty|].
  split; [exact (Hwf wellFormed_empty)|].
  rewrite Hev. exact Hkeys.
Defined.
End TablesAtInput.

(* ================================================================== *)
(** * Listening *)
(* ================================================================== *)

Section ListeningFacts.
Import Js Listening ListeningRuns.

Lemma call_keeps (s : Listener) (c : Call) :
  listeners s = (if isListening s then allThree else []) ->
  listeners (call s c) = (if isListening (call s c) then allThree else []).
Proof.
  intros H. destruct c as [[n|msg]|]; simpl;
    unfold startListening, stopListening;
    destruct (isListening s) eqn:E; simpl; rewrite ?E; try exact H.
  - now rewrite H.
  - reflexivity.
Qed.

(** However [startListening] and [stopListening] are called, and whether
    or not the node answers, each of the three event kinds has exactly one
    listener while the service is listening and none while it is not: a
    second start registers nothing, a start the node rejects registers
    nothing and leaves the service not listening, a stop removes all. *)
Theorem listeners_registered_once (calls : list Call) :
  let s := fold_left call calls initial in
  listeners s = (if isListening s then allThree else [])
  /\ startListening s (Ok 0%Z)
     = mkListener true allThree
  /\ (forall msg, startListening s (Throw msg) = s)
  /\ stopListening s = initial.
Proof.
  assert (H : forall s0,
             listeners s0 = (if isListening s0 then allThree else []) ->
             listeners (fold_left call calls s0)
             = (if isListening (fold_left call calls s0) then allThree else [])).
  { induction calls as [|c l IH]; intros s0 H0; simpl; [exact H0|].
    apply IH, call_keeps, H0. }
  specialize (H initial eq_refl). cbv zeta.
  set (s := fold_left call calls initial) in *.
  split; [exact H|]. unfold startListening, stopListening.
  destruct s as [[] ls]; simpl in *; subst ls; repeat split.
Qed.
End ListeningFacts.

(* ================================================================== *)
(** * A signature that does not recover *)
(* ================================================================== *)

Section NoRecovery.
Import Js CredentialService Scenario CredentialScenario.

Variable JSON_stringify : CredentialPayload -> string.
Variable verifyMessage : string -> string -> result string.
Variable dateOf : string -> Z.
Variable encodeURIComponent : string -> string.
Variable apiBaseUrl : string.

Let verify' := verify JSON_stringify verifyMessage dateOf encodeURIComponent
                      apiBaseUrl.

(** When [ethers.verifyMessage] throws on the stored proof, [verify]
    fails the signature check and the authority check, reports an empty
    recovered address and owner, logs nothing, and does not consult the
    DID service at all: the result is the same whatever that service would
    have answered. *)
Theorem verify_unrecoverable_signature (api api' : DidServiceApi)
        (credentials : list Credential) (nowMs : Z) (credentialId : string)
        (cred : Credential) (msg : string) :
  findCredential credentials (replace "urn:uuid:" EmptyString credentialId)
  = Some cred ->
  verifyMessage
    (JSON_stringify
       (mkCredentialPayload VC_CONTEXTS (c_type cred) (c_issuer cred)
          (c_issuanceDate cred) (orUndefined (c_expirationDate cred))
          (credentialSubject (c_subject cred) (c_claims cred))))
    (p_proofValue (c_proof cred)) = Throw msg ->
  let out := verify' api credentials nowMs credentialId in
  signature (checks (fst out)) = false
  /\ signerValidAtIssuance (checks (fst out)) = false
  /\ valid (fst out) = false
  /\ option_map recoveredAddress (details (fst out)) = Some EmptyString
  /\ option_map ownerAtIssuance (details (fst out)) = Some EmptyString
  /\ snd out = []
  /\ verify' api' credentials nowMs credentialId = out.
Proof.
  intros Hfind Hthrow. unfold verify', verify. rewrite Hfind.
  unfold checkSignature. rewrite Hthrow.
  unfold checkSignerAtIssuance. cbn. repeat split.
Qed.

End NoRecovery.

Section NoRecoveryAtInput.
Import Js CredentialService Scenario CredentialScenario.

Lemma verify_unrecoverable_signature_witness :
  let out := toyVerify (didServiceOf handedOverDb providerDown)
                       [credentialBy EmptyString at1500] 1600000 "urn:uuid:c1" in
  signature (checks (fst out)) = false /\ snd out = [].
Proof.
  destruct (verify_unrecoverable_signature
              toyStringify toyVerifyMessage toyDateOf toyEncode
              "http://localhost:3001"
              (didServiceOf handedOverDb providerDown)
              (didServiceOf handedOverDb providerDown)
              [credentialBy EmptyString at1500] 1600000 "urn:uuid:c1"
              (credentialBy EmptyString at1500) "invalid signature"
              eq_refl eq_refl)
    as (H1 & _ & _ & _ & _ & H6 & _).
  split; [exact H1|exact H6].
Defined.
End NoRecoveryAtInput.

(* ================================================================== *)
(** * The current tables agree with the replay of the log *)
(* ================================================================== *)

Section UpsertAsMapSet.
Import Js BlockchainService.

Context {R K V : Type} (rid : R -> option Z) (keq : K -> K -> bool).
Variable view : R -> K * V.


End UpsertAsMapSet.

Section FilterFacts.
Context {A : Type}.





End FilterFacts.

Section RowsOfAnIdentity.
Import Js DidService BlockchainService Agreement.


End RowsOfAnIdentity.

Section IdentityRows.
Import Js DidService BlockchainService Agreement.







End IdentityRows.

Section AgreementKept.
Import Js DidService BlockchainService Tables Agreement.

Variable decodeBytes32String : string -> result string.
Variable toUtf8String : string -> result string.
Variable hexlify : string -> string.

Let onEvent' := onEvent decodeBytes32String toUtf8String hexlify.

End AgreementKept.

Section DocumentOfViews.
Import Js DidService Agreement.



End DocumentOfViews.

Section TableOrder.
Import Js DidService BlockchainService Agreement.




End TableOrder.

Section OrderByKind.
Import Js DidService BlockchainService Agreement.










End OrderByKind.

Section CurrentIsReplay.
Import Js DidService BlockchainService Tables Agreement DidListings.
Import Representation Listening.

Variable decodeBytes32String : string -> result string.
Variable toUtf8String : string -> result string.
Variable hexlify : string -> string.

Let onEvent' := onEvent decodeBytes32String toUtf8String hexlify.







End CurrentIsReplay.

Section CurrentIsReplayAtInput.
Import Js DidService BlockchainService Agreement Listening.
Import IngestionScenario AgreementScenario.

End CurrentIsReplayAtInput.

(* ================================================================== *)
(** * The clients and the backend *)
(* ================================================================== *)

Section ClientRequests.
Import Js CredentialService CredentialLifecycle Frontend.

Variable JSON_stringify : CredentialPayload -> string.
Variable verifyMessage : string -> string -> result string.
Variable encodeURIComponent : string -> string.
Variable apiBaseUrl : string.
Variable isAddress : string -> bool.

(** What the frontend has the wallet sign is what the backend checks the
    signature against: when [handleIssue] gets as far as signing, the message
    is the one [issue] rebuilds from the request, so a signature of that
    message that recovers the account makes [issue] accept the request and
    store its row; and the message [handleRevoke] has signed makes [revoke]
    accept the revocation of a credential that account issued. *)
Theorem frontend_requests_are_accepted (address : option string)
        (form : IssueForm) (message : string)
        (request : string -> IssueCredentialDto)
        (signature recovered : string)
        (credentials : list Credential) (id : string) :
  handleIssue JSON_stringify isAddress address form = Some (message, request) ->
  verifyMessage message signature = Ok recovered ->
  Some (toLowerCase recovered) = option_map toLowerCase address ->
  let dto := request signature in
  message = issueMessage JSON_stringify dto
  /\ (exists vc,
         issue JSON_stringify verifyMessage encodeURIComponent apiBaseUrl
               credentials id dto
         = Done (vc, credentials ++ [issuedRow id dto])%list)
  /\ (forall table credentialId revokeMessage args revokeSignature signer cred,
         handleRevoke address credentialId = Some (revokeMessage, args) ->
         findCredential table (replace "urn:uuid:" EmptyString credentialId)
         = Some cred ->
         c_issuer cred = c_issuer (issuedRow id dto) ->
         verifyMessage revokeMessage revokeSignature = Ok signer ->
         Some (toLowerCase signer) = option_map toLowerCase address ->
         exists res,
           revoke verifyMessage table (fst args) (snd args) revokeSignature
           = Done (res, updateCredential table (withStatus cred REVOKED))).
Proof.
  intros Hh Hv Hr dto.
  destruct address as [a|]; [|discriminate].
  cbn [option_map] in Hr. injection Hr as Hr.
  unfold handleIssue in Hh.
  destruct (truthy a) eqn:Ta; [|discriminate]. cbn [negb] in Hh.
  destruct (lastOf _) as [subjectAddress|]; [|discriminate].
  destruct (_ || _); [discriminate|].
  destruct (_ =? _)%nat; [discriminate|].
  injection Hh as Hm Hreq.
  assert (Hmsg : message = issueMessage JSON_stringify dto).
  { unfold dto. rewrite <- Hreq, <- Hm.
    unfold createCredentialMessage, issueMessage, myDid. rewrite Ta.
    reflexivity. }
  split; [exact Hmsg|]. split.
  - unfold issue.
    assert (Hc : checkSigner verifyMessage (issueMessage JSON_stringify dto)
                             (dto_signature dto) (dto_issuerAddress dto)
                 = Done tt).
    { apply checkSigner_done. exists recovered.
      unfold dto at 2 3. rewrite <- Hreq. cbn [dto_signature dto_issuerAddress].
      rewrite <- Hmsg. split; assumption. }
    unfold issueMessage in Hc. rewrite Hc.
    eexists. unfold push, issuedRow. reflexivity.
  - intros table credentialId revokeMessage args revokeSignature signer cred
           Hrev Hfind Hissuer Hvr Hsigner.
    unfold handleRevoke in Hrev. rewrite Ta in Hrev. cbn [negb] in Hrev.
    injection Hrev as Hrm Hargs. subst revokeMessage args. cbn [fst snd].
    cbn [option_map] in Hsigner. injection Hsigner as Hsigner.
    unfold revoke. rewrite Hfind.
    assert (Hi : (toLowerCase (c_issuer cred)
                  =? toLowerCase ("did:ethr:" ++ toLowerCase a)) = true).
    { apply String.eqb_eq. rewrite Hissuer. unfold dto. rewrite <- Hreq.
      reflexivity. }
    rewrite Hi. cbn [negb].
    assert (Hc : checkSigner verifyMessage ("Revoke credential: " ++ credentialId)
                             revokeSignature a = Done tt).
    { apply checkSigner_done. exists signer. split; assumption. }
    rewrite Hc. eexists. reflexivity.
Qed.
End ClientRequests.

Section ClientRequestsAtInput.
Import Js CredentialService CredentialLifecycle Frontend.
Import CredentialScenario FrontendScenario.

Lemma frontend_requests_are_accepted_witness :
  exists message request,
    handleIssue toyStringify toyIsAddress (Some "0xAA") degreeForm
    = Some (message, request)
    /\ message = issueMessage toyStringify (request "0xaa").
Proof.
  eexists. eexists.
  assert (H : handleIssue toyStringify toyIsAddress (Some "0xAA") degreeForm
              = Some (_, _)) by reflexivity.
  split; [exact H|].
  exact (proj1 (frontend_requests_are_accepted
                  toyStringify toyVerifyMessage toyEncode
                  "http://localhost:3001" toyIsAddress
                  (Some "0xAA") degreeForm _ _ "0xaa" "0xaa" [] "c7"
                  H eq_refl eq_refl)).
Defined.
End ClientRequestsAtInput.

Section DidHelpers.
Import Js DidService ExamplesConfig Frontend.

(** The DID helpers of the example scripts agree with the backend's
    parser: [didToAddress] never throws and answers what [extractAddress]
    answers, on every text; and for an address without [:], [addressToDid]
    writes the DID the frontend writes for that account, [didToAddress] takes
    it back to the lowercased address, and the backend names the identity by
    the same DID. *)
Theorem did_helpers_agree (db : Db) (did address : string) :
  noColon address = true ->
  didToAddress did = Ok (extractAddress did)
  /\ didToAddress (addressToDid address) = Ok (toLowerCase address)
  /\ oi_did (getOwner db (addressToDid address)) = addressToDid address
  /\ doc_id (resolve db 0 address) = addressToDid address
  /\ (truthy address = true -> myDid (Some address) = addressToDid address).
Proof.
  intros Hplain.
  assert (Hd : forall d, didToAddress d = Ok (extractAddress d)).
  { intros d. unfold didToAddress.
    rewrite (lastOf_last _ (split_not_nil _ _)).
    now rewrite extractAddress_last. }
  assert (Ha : extractAddress address = toLowerCase address).
  { rewrite extractAddress_last, (split_plain _ Hplain). reflexivity. }
  assert (Hp : extractAddress (addressToDid address) = toLowerCase address).
  { unfold addressToDid.
    rewrite (extractAddress_last ("did:ethr:" ++ _)), extractAddress_prefixed.
    rewrite split_plain by now rewrite noColon_toLowerCase.
    cbn [List.last]. apply toLowerCase_idem. }
  split; [apply Hd|]. split; [now rewrite Hd, Hp|]. split; [|split].
  - unfold getOwner. cbn [oi_did]. now rewrite Hp.
  - rewrite resolve_id. now rewrite Ha.
  - intros Ht. unfold myDid. now rewrite Ht.
Qed.

Lemma did_helpers_agree_witness :
  didToAddress (addressToDid "0xAbC1") = Ok "0xabc1".
Proof.
  exact (proj1 (proj2 (did_helpers_agree (mkDb [] [] [] []) "did:ethr:0xAbC1"
                                         "0xAbC1" eq_refl))).
Defined.
End DidHelpers.
